(** * Organic typography (OT2): spatial index, semantic field, growth engine

    A shallow embedding of the three JavaScript classes of the repository,
    [SpatialIndex] (js/SpatialIndex.js), [SemanticField] (js/SemanticField.js)
    and [OrganicLayout] (js/OrganicLayout.js), followed by the properties
    established about them.

    Conventions of the embedding.
    - A JavaScript number is an exact real ([R]); [NaN] is a separate value
      ([jsnum]).  Rounding error and the infinities of IEEE doubles are not
      represented.  [Math.floor] is [Int_part], [Math.sqrt], [Math.sin],
      [Math.cos] and [Math.PI] are the functions and the constant of the
      Standard Library's real analysis.
    - A JavaScript string is the list of its UTF-16 code units.
    - A JavaScript [Map] is an association list in insertion order
      ([JSMap]): [set] on a present key replaces the value in place, [set]
      on a new key appends, iteration follows the list.
    - Methods that mutate [this] return the new state next to their result.
    - Every call of [Math.random()] is a parameter of the function that
      makes it: a real number the caller supplies, in the order of the
      calls in the source. *)

From Stdlib Require Import Reals Lra Lia ZArith List Bool Arith Psatz.
From Stdlib Require Import Permutation Sorted.
Import ListNotations.

Set Implicit Arguments.

(* ================================================================== *)
(** * Part I. The embedding                                            *)
(* ================================================================== *)

(** ** Decidable equality on keys *)

Class EqDec (K : Type) := eq_dec : forall a b : K, {a = b} + {a <> b}.

#[global] Instance Z_EqDec : EqDec Z := Z.eq_dec.
#[global] Instance nat_EqDec : EqDec nat := Nat.eq_dec.

#[global] Instance prod_EqDec {A B} `{EqDec A} `{EqDec B} : EqDec (A * B).
Proof.
  intros [a b] [a' b'].
  destruct (eq_dec a a') as [->|Ha]; [|right; congruence].
  destruct (eq_dec b b') as [->|Hb]; [left; reflexivity|right; congruence].
Defined.

#[global] Instance list_EqDec {A} `{EqDec A} : EqDec (list A).
Proof. intros l l'. apply list_eq_dec. exact eq_dec. Defined.

#[global] Instance option_EqDec {A} `{EqDec A} : EqDec (option A).
Proof.
  intros [a|] [b|]; try (right; discriminate); [|left; reflexivity].
  destruct (eq_dec a b) as [->|Hn]; [left; reflexivity|right; congruence].
Defined.

Definition eqb {K} `{EqDec K} (a b : K) : bool :=
  if eq_dec a b then true else false.

(** ** JavaScript strings *)

(** A string is the list of its UTF-16 code units. *)
Definition jsstring := list Z.

(** Decimal digits of a natural number, most significant first, as
    [String(n)] prints them. *)
Fixpoint digits_fuel (fuel n : nat) (acc : jsstring) : jsstring :=
  match fuel with
  | O => acc
  | S fuel' =>
      let acc' := (48 + Z.of_nat (n mod 10))%Z :: acc in
      if (n <? 10)%nat then acc' else digits_fuel fuel' (n / 10) acc'
  end.

Definition decimal (n : nat) : jsstring := digits_fuel (S n) n [].

(** ** JavaScript numbers *)

Inductive jsnum : Type :=
| NaN
| Num (r : R).

Module JSMath.
Open Scope R_scope.

(** [Math.floor] *)
Definition floor (x : R) : Z := Int_part x.
(** [Math.ceil] *)
Definition ceil (x : R) : Z := (- Int_part (- x))%Z.
(** [Math.round]: the nearest integer, halves towards plus infinity. *)
Definition round (x : R) : Z := Int_part (x + / 2).

(** [Number(v) || d] on a numeric argument: zero and NaN give [d]. *)
Definition num_or (v : jsnum) (d : R) : R :=
  match v with
  | NaN => d
  | Num r => if Req_dec_T r 0 then d else r
  end.

(** [x || d] on a real: zero is falsy. *)
Definition or_default (x d : R) : R := if Req_dec_T x 0 then d else x.

(** Comparisons as booleans. *)
Definition leb (a b : R) : bool := if Rle_dec a b then true else false.
Definition ltb (a b : R) : bool := if Rlt_dec a b then true else false.

(** [Math.max(lo, Math.min(hi, x))] *)
Definition clamp (lo hi x : R) : R := Rmax lo (Rmin hi x).
End JSMath.

(** ** Insertion-ordered maps (JavaScript [Map]) *)

Module JSMap.
Section Defs.
Context {K V : Type} `{EqDec K}.

Definition t := list (K * V).

Definition empty : t := [].

Fixpoint get (m : t) (k : K) : option V :=
  match m with
  | [] => None
  | (k', v) :: m' => if eq_dec k k' then Some v else get m' k
  end.

Definition has (m : t) (k : K) : bool :=
  match get m k with Some _ => true | None => false end.

(** [m.set(k, v)]: in place when [k] is present, appended otherwise. *)
Fixpoint set (m : t) (k : K) (v : V) : t :=
  match m with
  | [] => [(k, v)]
  | (k', v') :: m' =>
      if eq_dec k k' then (k, v) :: m' else (k', v') :: set m' k v
  end.

Fixpoint delete (m : t) (k : K) : t :=
  match m with
  | [] => []
  | (k', v') :: m' =>
      if eq_dec k k' then delete m' k else (k', v') :: delete m' k
  end.

Definition size (m : t) : nat := length m.
Definition keys (m : t) : list K := map fst m.
Definition values (m : t) : list V := map snd m.
End Defs.
Arguments t : clear implicits.
End JSMap.

(* ------------------------------------------------------------------ *)
(** ** SpatialIndex (js/SpatialIndex.js)                               *)
(* ------------------------------------------------------------------ *)

(** The index stores arbitrary objects and reads two of their properties,
    [id] and [position]; a type of indexable objects provides them.
    [item_id] is [None] for a missing id; [item_position] is [None] for a
    missing position, and a coordinate that is not a number is [NaN]. *)
Class Indexable (T : Type) := {
  item_id : T -> option jsstring;
  item_position : T -> option (jsnum * jsnum)
}.

(** [!id]: a missing id and the empty string are falsy. *)
Definition truthy_id (id : option jsstring) : bool :=
  match id with
  | Some (_ :: _) => true
  | _ => false
  end.

Module SpatialIndex.
Import JSMath.
Open Scope R_scope.

Definition cell := (Z * Z)%type.
(** A cache key [`${round x},${round y},${round radius}`]. *)
Definition cache_key := (Z * Z * Z)%type.

Record memory_usage : Type := mk_memory_usage {
  mem_items : Z;
  mem_grid : Z;
  mem_cache : Z;
  mem_total : Z
}.

Record stats : Type := mk_stats {
  stats_itemCount : Z;
  stats_cellCount : nat;
  stats_gridSize : Z;
  stats_cacheSize : nat;
  stats_averageItemsPerCell : R;
  stats_memoryUsage : memory_usage
}.

Section WithItems.
Context {T : Type} `{Indexable T}.

Record t : Type := mk {
  width : R;
  height : R;
  cellSize : R;
  gridWidth : Z;
  gridHeight : Z;
  grid : JSMap.t cell (list T);
  itemCount : Z;
  queryCache : JSMap.t cache_key (list T);
  maxCacheSize : nat;
  cacheAccessOrder : list cache_key
}.

Definition with_grid (st : t) g c : t :=
  mk (width st) (height st) (cellSize st) (gridWidth st) (gridHeight st)
    g c (queryCache st) (maxCacheSize st) (cacheAccessOrder st).

Definition with_cache (st : t) q o : t :=
  mk (width st) (height st) (cellSize st) (gridWidth st) (gridHeight st)
    (grid st) (itemCount st) q (maxCacheSize st) o.

(** [constructor(width, height, cellSize = 50)] *)
Definition new (w h cs : jsnum) : t :=
  let w' := Rmax 1 (num_or w 800) in
  let h' := Rmax 1 (num_or h 600) in
  let cs' := Rmax 1 (num_or cs 50) in
  mk w' h' cs' (ceil (w' / cs')) (ceil (h' / cs'))
    JSMap.empty 0%Z JSMap.empty 100%nat [].

(** [getGridKey(x, y)] *)
Definition getGridKey (st : t) (x y : jsnum) : cell :=
  match x, y with
  | Num x, Num y =>
      let gridX := floor (x / cellSize st) in
      let gridY := floor (y / cellSize st) in
      (Z.max 0 (Z.min (gridWidth st - 1) gridX),
       Z.max 0 (Z.min (gridHeight st - 1) gridY))
  | _, _ => (0%Z, 0%Z)
  end.

(** [clearQueryCache()] *)
Definition clearQueryCache (st : t) : t := with_cache st JSMap.empty [].

(** [item.id === id] for a truthy [id]. *)
Definition has_id (id : jsstring) (it : T) : bool :=
  eqb (item_id it) (Some id).

(** [findItemById(id)]: the first match in cell order. *)
Definition findItemById (st : t) (id : option jsstring) : option T :=
  if truthy_id id then
    match id with
    | Some s => find (has_id s) (concat (JSMap.values (grid st)))
    | None => None
    end
  else None.

(** The cells after the loop of [remove]: matching items are spliced
    out of every cell, and a cell that lost an item and became empty is
    deleted. *)
Fixpoint remove_cells (id : jsstring) (g : JSMap.t cell (list T))
  : JSMap.t cell (list T) :=
  match g with
  | [] => []
  | (k, items) :: g' =>
      let items' := filter (fun it => negb (has_id id it)) items in
      if (length items' <? length items)%nat then
        match items' with
        | [] => remove_cells id g'
        | _ => (k, items') :: remove_cells id g'
        end
      else (k, items) :: remove_cells id g'
  end.

(** How many items [remove] splices out. *)
Definition removed_count (id : jsstring) (g : JSMap.t cell (list T)) : nat :=
  length (filter (has_id id) (concat (JSMap.values g))).

(** [remove(id)] *)
Definition remove (st : t) (id : option jsstring) : bool * t :=
  match id with
  | Some s =>
      if truthy_id id then
        let n := removed_count s (grid st) in
        let st' :=
          with_grid st (remove_cells s (grid st))
            (Nat.iter n (fun c => Z.max 0 (c - 1)) (itemCount st)) in
        if (0 <? n)%nat then (true, clearQueryCache st') else (false, st')
      else (false, st)
  | None => (false, st)
  end.

(** [insert(item)] *)
Definition insert (st : t) (item : T) : bool * t :=
  match item_position item with
  | None => (false, st)
  | Some (NaN, _) | Some (_, NaN) => (false, st)
  | Some (Num x, Num y) =>
      let st1 :=
        if truthy_id (item_id item) then
          match findItemById st (item_id item) with
          | Some _ => snd (remove st (item_id item))
          | None => st
          end
        else st in
      let key := getGridKey st1 (Num x) (Num y) in
      let g1 :=
        if JSMap.has (grid st1) key then grid st1
        else JSMap.set (grid st1) key [] in
      let g2 :=
        match JSMap.get g1 key with
        | Some items => JSMap.set g1 key (items ++ [item])
        | None => g1
        end in
      (true, clearQueryCache (with_grid st1 g2 (itemCount st1 + 1)%Z))
  end.

(** [dist <= radius] for one stored item, with
    [dist = Math.sqrt(dx * dx + dy * dy)]; a comparison with NaN is
    false. *)
Definition within (x y radius : R) (it : T) : bool :=
  match item_position it with
  | Some (Num ix, Num iy) =>
      let dx := ix - x in
      let dy := iy - y in
      leb (sqrt (dx * dx + dy * dy)) radius
  | _ => false
  end.

(** The integers [lo, lo+1, ..., hi] of a [for] loop. *)
Definition zrange (lo hi : Z) : list Z :=
  map (fun i => (lo + Z.of_nat i)%Z) (seq 0 (Z.to_nat (hi - lo + 1))).

(** [performQuery(x, y, radius)] *)
Definition performQuery (st : t) (x y radius : R) : list T :=
  let gridRadius := ceil (radius / cellSize st) in
  let centerX := floor (x / cellSize st) in
  let centerY := floor (y / cellSize st) in
  let minX := Z.max 0 (centerX - gridRadius) in
  let maxX := Z.min (gridWidth st - 1) (centerX + gridRadius) in
  let minY := Z.max 0 (centerY - gridRadius) in
  let maxY := Z.min (gridHeight st - 1) (centerY + gridRadius) in
  flat_map (fun gridX =>
    flat_map (fun gridY =>
      match JSMap.get (grid st) (gridX, gridY) with
      | Some items => filter (within x y radius) items
      | None => []
      end) (zrange minY maxY)) (zrange minX maxX).

(** [a.splice(a.indexOf(k), 1)] when [k] occurs: the first occurrence
    is taken out. *)
Fixpoint remove_first (k : cache_key) (l : list cache_key)
  : list cache_key :=
  match l with
  | [] => []
  | k' :: l' => if eq_dec k k' then l' else k' :: remove_first k l'
  end.

(** [updateCacheAccess(cacheKey)] *)
Definition updateCacheAccess (st : t) (k : cache_key) : t :=
  with_cache st (queryCache st) (remove_first k (cacheAccessOrder st) ++ [k]).

(** [addToCache(cacheKey, results)].  Cache keys are non-empty strings,
    so the key shifted off the access order is truthy whenever there is
    one. *)
Definition addToCache (st : t) (k : cache_key) (results : list T) : t :=
  let st1 :=
    if (maxCacheSize st <=? JSMap.size (queryCache st))%nat then
      match cacheAccessOrder st with
      | oldestKey :: rest =>
          with_cache st (JSMap.delete (queryCache st) oldestKey) rest
      | [] => st
      end
    else st in
  with_cache st1 (JSMap.set (queryCache st1) k results)
    (cacheAccessOrder st1 ++ [k]).

Definition cacheKey (x y radius : R) : cache_key :=
  (round x, round y, round radius).

(** [query(position, radius)] *)
Definition query (st : t) (position : option (jsnum * jsnum))
  (radius : jsnum) : list T * t :=
  match position, radius with
  | Some (Num x, Num y), Num r =>
      if ltb r 0 then ([], st)
      else
        let k := cacheKey x y r in
        match JSMap.get (queryCache st) k with
        | Some cached => (cached, updateCacheAccess st k)
        | None =>
            let results := performQuery st x y r in
            (results, addToCache st k results)
        end
  | _, _ => ([], st)
  end.

(** [update(item)] *)
Definition update (st : t) (item : T) : bool * t :=
  if truthy_id (item_id item) then
    insert (snd (remove st (item_id item))) item
  else (false, st).

(** [clear()] *)
Definition clear (st : t) : t :=
  clearQueryCache (with_grid st JSMap.empty 0%Z).

(** [getItemsInBounds(minX, minY, maxX, maxY)] *)
Definition getItemsInBounds (st : t) (minX minY maxX maxY : R) : list T :=
  let minGridX := Z.max 0 (floor (minX / cellSize st)) in
  let minGridY := Z.max 0 (floor (minY / cellSize st)) in
  let maxGridX := Z.min (gridWidth st - 1) (floor (maxX / cellSize st)) in
  let maxGridY := Z.min (gridHeight st - 1) (floor (maxY / cellSize st)) in
  flat_map (fun gx =>
    flat_map (fun gy =>
      match JSMap.get (grid st) (gx, gy) with
      | Some items =>
          filter (fun it =>
            match item_position it with
            | Some (Num ix, Num iy) =>
                leb minX ix && leb ix maxX && leb minY iy && leb iy maxY
            | _ => false
            end) items
      | None => []
      end) (zrange minGridY maxGridY)) (zrange minGridX maxGridX).

(** One pass of the inner loop of [findNearest] over the candidates of
    one radius. *)
Definition nearest_step (x y : jsnum) (acc : option T * R) (item : T)
  : option T * R :=
  match item_position item, x, y with
  | Some (Num ix, Num iy), Num px, Num py =>
      let dx := ix - px in
      let dy := iy - py in
      let distance := sqrt (dx * dx + dy * dy) in
      if ltb distance (snd acc) then (Some item, distance) else acc
  | _, _, _ => acc
  end.

(** The loop of [findNearest] over the search radii. *)
Fixpoint findNearest_loop (st : t) (x y : jsnum) (radii : list R)
  (nearest : option T) (minDistance : R) : option T * t :=
  match radii with
  | [] => (nearest, st)
  | radius :: rest =>
      if ltb minDistance radius then (nearest, st)
      else
        let '(candidates, st') := query st (Some (x, y)) (Num radius) in
        let '(nearest', minDistance') :=
          fold_left (nearest_step x y) candidates (nearest, minDistance) in
        match nearest' with
        | Some _ => (nearest', st')
        | None => findNearest_loop st' x y rest nearest' minDistance'
        end
  end.

(** [findNearest(position, maxDistance = Infinity)]; [None] for
    [maxDistance] is the default, infinity. *)
Definition findNearest (st : t) (position : option (jsnum * jsnum))
  (maxDistance : option R) : option T * t :=
  match position with
  | None => (None, st)
  | Some (x, y) =>
      let minDistance :=
        match maxDistance with
        | None => 1000
        | Some m => Rmin m 1000
        end in
      findNearest_loop st x y [50; 100; 200; 500; minDistance]
        None minDistance
  end.

(** [a.slice(-n)]: the last [n] elements; [slice(-0)] is the whole
    array. *)
Definition slice_last {A} (n : nat) (l : list A) : list A :=
  match n with
  | O => l
  | _ => skipn (length l - n) l
  end.

(** [cleanup()] *)
Definition cleanup (st : t) : t :=
  let g := filter (fun kv => negb (Nat.eqb (length (snd kv)) 0)) (grid st) in
  let st1 := with_grid st g (itemCount st) in
  if (maxCacheSize st1 <? 2 * JSMap.size (queryCache st1))%nat then
    let keepCount := (maxCacheSize st1 / 2)%nat in
    let keysToKeep := slice_last keepCount (cacheAccessOrder st1) in
    with_cache st1 JSMap.empty keysToKeep
  else st1.

(** [estimateMemoryUsage()] *)
Definition estimateMemoryUsage (st : t) : memory_usage :=
  let itemMemory := (itemCount st * 200)%Z in
  let gridMemory := (Z.of_nat (JSMap.size (grid st)) * 100)%Z in
  let cacheMemory := (Z.of_nat (JSMap.size (queryCache st)) * 50)%Z in
  mk_memory_usage itemMemory gridMemory cacheMemory
    (itemMemory + gridMemory + cacheMemory).

(** [getStats()] *)
Definition getStats (st : t) : stats :=
  mk_stats (itemCount st) (JSMap.size (grid st))
    (gridWidth st * gridHeight st) (JSMap.size (queryCache st))
    (if (0 <? JSMap.size (grid st))%nat
     then IZR (itemCount st) / INR (JSMap.size (grid st))
     else 0)
    (estimateMemoryUsage st).

(** Every item held by the index, in cell order. *)
Definition all_items (st : t) : list T := concat (JSMap.values (grid st)).

(** *** Vocabulary of the properties *)

(** The number of items in the cells of a grid. *)
Definition total (g : JSMap.t cell (list T)) : nat :=
  length (concat (JSMap.values g)).

(** The items of a cell, none when the cell is absent. *)
Definition items_at (g : JSMap.t cell (list T)) (k : cell) : list T :=
  match JSMap.get g k with Some items => items | None => [] end.

(** The item has numeric coordinates. *)
Definition valid_position (it : T) : Prop :=
  exists x y, item_position it = Some (Num x, Num y).

(** The item lies within [r] of [(x, y)]. *)
Definition within_radius (x y r : R) (it : T) : Prop :=
  exists ix iy,
    item_position it = Some (Num ix, Num iy)
    /\ sqrt ((ix - x) * (ix - x) + (iy - y) * (iy - y)) <= r.

(** The item lies on the canvas. *)
Definition on_canvas (st : t) (it : T) : Prop :=
  exists ix iy,
    item_position it = Some (Num ix, Num iy)
    /\ 0 <= ix < width st /\ 0 <= iy < height st.

(** The invariant of the index: the grid dimensions are those of the
    constructor, a cell has one entry, every item sits in the cell of
    its position, [itemCount] counts the items, and a cached list is
    what [performQuery] returns now for a query with that key. *)
Definition dims_ok (st : t) : Prop :=
  0 < cellSize st
  /\ gridWidth st = ceil (width st / cellSize st)
  /\ gridHeight st = ceil (height st / cellSize st).

Definition cells_ok (st : t) : Prop :=
  forall k items, In (k, items) (grid st) ->
    forall it, In it items ->
      exists x y, item_position it = Some (Num x, Num y)
      /\ getGridKey st (Num x) (Num y) = k.

Definition count_ok (st : t) : Prop :=
  itemCount st = Z.of_nat (length (all_items st)).

Definition cache_ok (st : t) : Prop :=
  forall k v, JSMap.get (queryCache st) k = Some v ->
    exists x y r, 0 <= r /\ cacheKey x y r = k /\ v = performQuery st x y r.

Definition wf (st : t) : Prop :=
  dims_ok st /\ NoDup (JSMap.keys (grid st)) /\ cells_ok st
  /\ count_ok st /\ cache_ok st.

(** States that agree on the geometry and on the cells. *)
Definition same_grid (st st' : t) : Prop :=
  cellSize st = cellSize st' /\ gridWidth st = gridWidth st'
  /\ gridHeight st = gridHeight st'
  /\ forall k, items_at (grid st) k = items_at (grid st') k.

(** The states that the public methods reach from a new index. *)
Inductive reachable : t -> Prop :=
| reach_new w h cs : reachable (new w h cs)
| reach_insert st item : reachable st -> reachable (snd (insert st item))
| reach_remove st id : reachable st -> reachable (snd (remove st id))
| reach_update st item : reachable st -> reachable (snd (update st item))
| reach_query st p r : reachable st -> reachable (snd (query st p r))
| reach_findNearest st p m :
  reachable st -> reachable (snd (findNearest st p m))
| reach_clear st : reachable st -> reachable (clear st)
| reach_cleanup st : reachable st -> reachable (cleanup st).
(** The fields that no method assigns after the constructor. *)
Definition geometry (st : t) : R * R * R * Z * Z * nat :=
  (width st, height st, cellSize st, gridWidth st, gridHeight st,
   maxCacheSize st).

(** No cell of the grid is empty. *)
Definition cells_nonempty (st : t) : Prop :=
  forall k items, In (k, items) (grid st) -> items <> [].

(** The item lies in the rectangle. *)
Definition in_bounds (minX minY maxX maxY : R) (it : T) : Prop :=
  exists ix iy,
    item_position it = Some (Num ix, Num iy)
    /\ minX <= ix <= maxX /\ minY <= iy <= maxY.

(** The distance of an item from a point. *)
Definition distance_to (x y : R) (it : T) (d : R) : Prop :=
  exists ix iy,
    item_position it = Some (Num ix, Num iy)
    /\ d = sqrt ((ix - x) * (ix - x) + (iy - y) * (iy - y)).

(** The cache and its access order name the same keys, once each, and
    the cache is within its capacity. *)
Definition cache_in_step (st : t) : Prop :=
  NoDup (cacheAccessOrder st)
  /\ NoDup (JSMap.keys (queryCache st))
  /\ (forall k, In k (cacheAccessOrder st) <-> In k (JSMap.keys (queryCache st)))
  /\ (JSMap.size (queryCache st) <= maxCacheSize st)%nat.

(** The states that the public methods other than [cleanup] reach from
    a new index. *)
Inductive reachable_without_cleanup : t -> Prop :=
| rwc_new w h cs : reachable_without_cleanup (new w h cs)
| rwc_insert st item :
  reachable_without_cleanup st ->
  reachable_without_cleanup (snd (insert st item))
| rwc_remove st id :
  reachable_without_cleanup st ->
  reachable_without_cleanup (snd (remove st id))
| rwc_update st item :
  reachable_without_cleanup st ->
  reachable_without_cleanup (snd (update st item))
| rwc_query st p r :
  reachable_without_cleanup st ->
  reachable_without_cleanup (snd (query st p r))
| rwc_findNearest st p m :
  reachable_without_cleanup st ->
  reachable_without_cleanup (snd (findNearest st p m))
| rwc_clear st :
  reachable_without_cleanup st -> reachable_without_cleanup (clear st).

End WithItems.
Arguments t : clear implicits.
End SpatialIndex.

(* ------------------------------------------------------------------ *)
(** ** SemanticField (js/SemanticField.js)                             *)
(* ------------------------------------------------------------------ *)

(** Stable sorting, as [Array.prototype.sort] orders an array with a
    comparator that compares keys: [before x y] says that the comparator
    is negative on [(x, y)], so that [x] goes before [y]; elements that
    compare equal keep their original order. *)
Section StableSort.
Context {A : Type} (before : A -> A -> bool).

(** [x] goes before the first element that it must precede. *)
Fixpoint insert_sorted (x : A) (l : list A) : list A :=
  match l with
  | [] => [x]
  | y :: l' => if before x y then x :: y :: l' else y :: insert_sorted x l'
  end.

Definition stable_sort (l : list A) : list A :=
  fold_left (fun acc x => insert_sorted x acc) l [].
End StableSort.

Module SemanticField.
Import JSMath.
Open Scope R_scope.

(** An entry of the reading history; of the recorded reading state the
    node id and the cognitive load are kept. *)
Record history_entry : Type := mk_entry {
  entry_node : jsstring;
  entry_cognitiveLoad : R
}.

Record t : Type := mk {
  semanticGraph : JSMap.t jsstring (JSMap.t jsstring R);
  collocationMatrix : JSMap.t jsstring R;
  readingHistory : list history_entry;
  maxHistorySize : nat;
  maxSemanticGraphSize : nat;
  maxCollocationSize : nat;
  cleanupCounter : nat
}.

Definition with_graph (sf : t) g : t :=
  mk g (collocationMatrix sf) (readingHistory sf) (maxHistorySize sf)
    (maxSemanticGraphSize sf) (maxCollocationSize sf) (cleanupCounter sf).
Definition with_collocation (sf : t) c : t :=
  mk (semanticGraph sf) c (readingHistory sf) (maxHistorySize sf)
    (maxSemanticGraphSize sf) (maxCollocationSize sf) (cleanupCounter sf).
Definition with_history (sf : t) h : t :=
  mk (semanticGraph sf) (collocationMatrix sf) h (maxHistorySize sf)
    (maxSemanticGraphSize sf) (maxCollocationSize sf) (cleanupCounter sf).
Definition with_counter (sf : t) n : t :=
  mk (semanticGraph sf) (collocationMatrix sf) (readingHistory sf)
    (maxHistorySize sf) (maxSemanticGraphSize sf) (maxCollocationSize sf) n.

(** [constructor()] *)
Definition new : t := mk JSMap.empty JSMap.empty [] 500 1000 2000 0.

(** The code units matched by [\s] and by the four punctuation marks of
    the separator class of [tokenize]. *)
Definition is_separator (c : Z) : bool :=
  existsb (Z.eqb c)
    [9; 10; 11; 12; 13; 32; 160; 5760; 8232; 8233; 8239; 8287; 12288;
     65279; 12289; 12290; 65281; 65311]%Z
    || ((8192 <=? c) && (c <=? 8202))%Z.

(** [text.split(/[\s、。！？]+/).filter(word => word && word.length > 0)] *)
Fixpoint split_words (s : jsstring) (cur : jsstring) : list jsstring :=
  match s with
  | [] => match cur with [] => [] | _ => [rev cur] end
  | c :: s' =>
      if is_separator c then
        match cur with
        | [] => split_words s' []
        | _ => rev cur :: split_words s' []
        end
      else split_words s' (c :: cur)
  end.

Definition tokenize (text : jsstring) : list jsstring := split_words text [].

(** [ToInt32]: the signed 32-bit value of an integer. *)
Definition toInt32 (z : Z) : Z := ((z + 2 ^ 31) mod 2 ^ 32 - 2 ^ 31)%Z.

(** [simpleHash(str)] *)
Definition simpleHash (s : jsstring) : Z :=
  fold_left
    (fun hash char => toInt32 (toInt32 (Z.shiftl hash 5) - hash + char))
    s 0%Z.

(** [getWordEmbedding(word)]; [None] is the [null] of an empty word. *)
Definition getWordEmbedding (word : jsstring) : option (list R) :=
  match word with
  | [] => None
  | _ =>
      let hash := IZR (simpleHash word) in
      Some (map (fun i => sin (hash * (INR i + 1)) * cos (hash * (INR i + 2)))
            (seq 0 50))
  end.

(** [computeSemanticVectors(words)] *)
Definition computeSemanticVectors (words : list jsstring) : list (list R) :=
  flat_map (fun w => match getWordEmbedding w with
                     | Some v => [v]
                     | None => []
                     end) words.

(** [calculateSemanticSimilarity(vector1, vector2)] *)
Definition calculateSemanticSimilarity (vector1 vector2 : list R) : R :=
  match vector1, vector2 with
  | [], _ | _, [] => 0
  | _, _ =>
      let pairs := combine vector1 vector2 in
      let dotProduct :=
        fold_left (fun acc p => acc + or_default (fst p) 0 * or_default (snd p) 0)
          pairs 0 in
      let norm1 :=
        fold_left (fun acc p => acc + or_default (fst p) 0 * or_default (fst p) 0)
          pairs 0 in
      let norm2 :=
        fold_left (fun acc p => acc + or_default (snd p) 0 * or_default (snd p) 0)
          pairs 0 in
      let denominator := sqrt norm1 * sqrt norm2 in
      if ltb 0 denominator then clamp 0 1 (dotProduct / denominator) else 0
  end.

(** [Math.floor(max * 0.8)] *)
Definition keepCount (max : nat) : nat := (max * 4 / 5)%nat.

(** [cleanupSemanticGraph()] *)
Definition cleanupSemanticGraph (sf : t) : t :=
  let entries :=
    stable_sort (fun a b : jsstring * JSMap.t jsstring R =>
      (JSMap.size (snd b) <? JSMap.size (snd a))%nat)
      (semanticGraph sf) in
  let toKeep := firstn (keepCount (maxSemanticGraphSize sf)) entries in
  with_graph sf
    (fold_left (fun g e => JSMap.set g (fst e) (snd e)) toKeep JSMap.empty).

(** [cleanupCollocationMatrix()] *)
Definition cleanupCollocationMatrix (sf : t) : t :=
  let entries :=
    stable_sort (fun a b : jsstring * R => ltb (snd b) (snd a))
      (collocationMatrix sf) in
  let toKeep := firstn (keepCount (maxCollocationSize sf)) entries in
  with_collocation sf
    (fold_left (fun g e => JSMap.set g (fst e) (snd e)) toKeep JSMap.empty).

(** [addSemanticConnection(word1, word2, strength)] *)
Definition addSemanticConnection (sf : t) (word1 word2 : jsstring)
  (strength : R) : t :=
  match word1, word2 with
  | [], _ | _, [] => sf
  | _, _ =>
      let sf1 :=
        if (maxSemanticGraphSize sf <=? JSMap.size (semanticGraph sf))%nat
        then cleanupSemanticGraph sf else sf in
      let g1 :=
        if JSMap.has (semanticGraph sf1) word1 then semanticGraph sf1
        else JSMap.set (semanticGraph sf1) word1 JSMap.empty in
      let g2 :=
        match JSMap.get g1 word1 with
        | Some connections =>
            JSMap.set g1 word1 (JSMap.set connections word2 (clamp 0 1 strength))
        | None => g1
        end in
      with_graph sf1 g2
  end.

(** [`${w1}_${w2}`] *)
Definition bigram_key (w1 w2 : jsstring) : jsstring := w1 ++ 95%Z :: w2.

(** The loop of [detectCollocationPatterns] over adjacent words. *)
Fixpoint add_bigrams (c : JSMap.t jsstring R) (words : list jsstring)
  : JSMap.t jsstring R :=
  match words with
  | w1 :: ((w2 :: _) as rest) =>
      let c' :=
        match w1, w2 with
        | [], _ | _, [] => c
        | _, _ =>
            let bigram := bigram_key w1 w2 in
            let currentStrength :=
              match JSMap.get c bigram with
              | Some s => or_default s 0
              | None => 0
              end in
            JSMap.set c bigram (Rmin 1 (currentStrength + 0.1))
        end in
      add_bigrams c' rest
  | _ => c
  end.

(** [detectCollocationPatterns(words)] *)
Definition detectCollocationPatterns (sf : t) (words : list jsstring) : t :=
  if (length words <? 2)%nat then sf
  else
    let sf1 :=
      if (maxCollocationSize sf <=? JSMap.size (collocationMatrix sf))%nat
      then cleanupCollocationMatrix sf else sf in
    with_collocation sf1 (add_bigrams (collocationMatrix sf1) words).

(** [a.splice(0, a.length - max)] when [a.length > max]: the oldest
    entries go. *)
Definition trim_oldest {A} (max : nat) (l : list A) : list A :=
  if (max <? length l)%nat then skipn (length l - max) l else l.

(** [cleanup()] *)
Definition cleanup (sf : t) : t :=
  let sf1 := with_history sf (trim_oldest (maxHistorySize sf) (readingHistory sf)) in
  let sf2 :=
    if (maxSemanticGraphSize sf1 <? JSMap.size (semanticGraph sf1))%nat
    then cleanupSemanticGraph sf1 else sf1 in
  if (maxCollocationSize sf2 <? JSMap.size (collocationMatrix sf2))%nat
  then cleanupCollocationMatrix sf2 else sf2.

(** [performCleanupIfNeeded()] *)
Definition performCleanupIfNeeded (sf : t) : t :=
  let sf1 := with_counter sf (S (cleanupCounter sf)) in
  if (100 <=? cleanupCounter sf1)%nat
  then with_counter (cleanup sf1) 0
  else sf1.

(** The inner loop of [analyzeSemanticStructure] for one [i]: the words
    [words[j]], [j > i], with their vectors. *)
Definition connect_from (words : list jsstring) (vectors : list (list R))
  (i : nat) (sf : t) : t :=
  fold_left (fun sf j =>
    match nth_error vectors i, nth_error vectors j with
    | Some vi, Some vj =>
        let similarity := calculateSemanticSimilarity vi vj in
        if ltb 0.3 similarity then
          addSemanticConnection sf (nth i words []) (nth j words []) similarity
        else sf
    | _, _ => sf
    end) (seq (S i) (length words - S i)) sf.

(** [analyzeSemanticStructure(text)]; the returned graph is the
    [semanticGraph] of the new state. *)
Definition analyzeSemanticStructure (sf : t) (text : jsstring) : t :=
  match text with
  | [] => sf
  | _ =>
      let words := tokenize text in
      match words with
      | [] => sf
      | _ =>
          let semanticVectors := computeSemanticVectors words in
          let sf1 :=
            fold_left (fun sf i => connect_from words semanticVectors i sf)
              (seq 0 (length words)) sf in
          performCleanupIfNeeded (detectCollocationPatterns sf1 words)
      end
  end.

(** [getSemanticDistance(word1, word2)] *)
Definition getSemanticDistance (sf : t) (word1 word2 : jsstring) : R :=
  match word1, word2 with
  | [], _ | _, [] => 1
  | _, _ =>
      match JSMap.get (semanticGraph sf) word1 with
      | Some connections =>
          match JSMap.get connections word2 with
          | Some similarity => Rmax 0 (1 - similarity)
          | None => 1
          end
      | None => 1
      end
  end.

(** [getCollocationStrength(word1, word2)] *)
Definition getCollocationStrength (sf : t) (word1 word2 : jsstring) : R :=
  match word1, word2 with
  | [], _ | _, [] => 0
  | _, _ =>
      match JSMap.get (collocationMatrix sf) (bigram_key word1 word2) with
      | Some s => or_default s 0
      | None => 0
      end
  end.

(** The force triple [{attraction, repulsion, lateral}]. *)
Record force : Type := mk_force {
  attraction : R;
  repulsion : R;
  lateral : R
}.

(** [generateInterferencePattern(spatialDist, semanticDist,
    collocationStrength)] *)
Definition generateInterferencePattern (spatialDist semanticDist
  collocationStrength : R) : force :=
  let safeSpatialDist := Rmax 0.1 (or_default spatialDist 0.1) in
  let safeSemanticDist := Rmax 0.1 (Rmin 1 (or_default semanticDist 1)) in
  let safeCollocationStrength :=
    Rmax 0 (Rmin 1 (or_default collocationStrength 0)) in
  let interferenceRatio := safeSpatialDist / safeSemanticDist in
  mk_force
    (Rmax 0 (Rmin 1 (safeCollocationStrength - interferenceRatio * 0.3)))
    (Rmax 0 (Rmin 1 ((interferenceRatio - 1) * 0.5)))
    (Rmax (-1) (Rmin 1 (sin (interferenceRatio * PI) * 0.2))).

(** [calculateSemanticForce(sourceNode, targetNode, spatialDistance)].
    A node argument is [None] for [null], and otherwise carries its
    [char] ([None] when the property is missing). *)
Definition calculateSemanticForce (sf : t)
  (sourceNode targetNode : option (option jsstring))
  (spatialDistance : jsnum) : force :=
  match sourceNode, targetNode, spatialDistance with
  | Some (Some ((_ :: _) as word1)), Some (Some ((_ :: _) as word2)), Num d =>
      let semanticDistance := getSemanticDistance sf word1 word2 in
      let collocationStrength := getCollocationStrength sf word1 word2 in
      let interferencePattern :=
        generateInterferencePattern d semanticDistance collocationStrength in
      mk_force
        (Rmax 0 (Rmin 1 (or_default (attraction interferencePattern) 0)))
        (Rmax 0 (Rmin 1 (or_default (repulsion interferencePattern) 0)))
        (Rmax (-1) (Rmin 1 (or_default (lateral interferencePattern) 0)))
  | _, _, _ => mk_force 0 0 0
  end.

(** The force triple as the specification words it: the interference
    ratio is the spatial distance over the semantic distance, both floored
    at 0.1; the semantic distance is one minus the similarity, 1 for an
    unknown pair; the collocation strength is 0 when unknown. *)
Definition spec_force (similarity collocation : option R)
  (spatialDistance : R) : force :=
  let semanticDistance :=
    match similarity with Some s => 1 - s | None => 1 end in
  let c := match collocation with Some c => c | None => 0 end in
  let ratio := Rmax 0.1 spatialDistance / Rmax 0.1 semanticDistance in
  mk_force (clamp 0 1 (c - ratio * 0.3))
    (clamp 0 1 ((ratio - 1) * 0.5))
    (clamp (-1) 1 (sin (ratio * PI) * 0.2)).

(** The similarity recorded for a pair of words, if any. *)
Definition similarity_of (sf : t) (word1 word2 : jsstring) : option R :=
  match JSMap.get (semanticGraph sf) word1 with
  | Some connections => JSMap.get connections word2
  | None => None
  end.

(** The fields that [detectCollocationPatterns] and the cleanup counter
    read. *)
Definition same_collocation (sf sf' : t) : Prop :=
  collocationMatrix sf = collocationMatrix sf'
  /\ maxCollocationSize sf = maxCollocationSize sf'
  /\ cleanupCounter sf = cleanupCounter sf'.

(** [getSemanticComplexity(word)] *)
Definition getSemanticComplexity (sf : t) (word : jsstring) : R :=
  match word with
  | [] => 1
  | _ =>
      match JSMap.get (semanticGraph sf) word with
      | Some connections => Rmin 10 (INR (JSMap.size connections))
      | None => 1
      end
  end.

(** [getContextualLoad(node)] *)
Definition getContextualLoad (sf : t) : R :=
  Rmin 1 (INR (length (readingHistory sf)) * 0.01).

(** [calculateCognitiveLoad(node)], on the [char] of the node. *)
Definition calculateCognitiveLoad (sf : t) (char : jsstring) : R :=
  match char with
  | [] => 0.5
  | _ =>
      let wordComplexity := INR (length char) in
      let semanticComplexity := getSemanticComplexity sf char in
      let contextualLoad := getContextualLoad sf in
      Rmax 0 (Rmin 1 ((wordComplexity + semanticComplexity + contextualLoad) / 3))
  end.

(** [addToReadingHistory(entry)] *)
Definition addToReadingHistory (sf : t) (entry : history_entry) : t :=
  with_history sf
    (trim_oldest (maxHistorySize sf) (readingHistory sf ++ [entry])).

(** [calculateAttentionFocus(currentNode, allNodes)], on the positions of
    the nodes: those closer than [cognitiveParams.semanticRadius], 120,
    nearest first, at most [cognitiveParams.attentionSpan], 7, of them. *)
Definition calculateAttentionFocus (pos : R * R) (allPositions : list (R * R))
  : list (R * R) :=
  let dist (p : R * R) :=
    sqrt ((fst p - fst pos) * (fst p - fst pos)
          + (snd p - snd pos) * (snd p - snd pos)) in
  firstn 7
    (stable_sort (fun a b => ltb (dist a) (dist b))
     (filter (fun p => ltb (dist p) 120) allPositions)).

(** [calculateAttentionVector(focusNodes)] *)
Definition calculateAttentionVector (focus : list (R * R)) : R * R :=
  match focus with
  | [] => (0, 0)
  | _ =>
      let centerX :=
        fold_left (fun sum p => sum + fst p) focus 0 / INR (length focus) in
      let centerY :=
        fold_left (fun sum p => sum + snd p) focus 0 / INR (length focus) in
      (Rmax (-1) (Rmin 1 (centerX * 0.01)),
       Rmax (-1) (Rmin 1 (centerY * 0.01)))
  end.

(** [calculateGestureVector(word)], the motor part of
    [accessBodyMemory(word)], which [calculateMemoryVector] returns. *)
Definition calculateGestureVector (word : jsstring) : R * R :=
  match word with
  | [] => (0, 0)
  | _ =>
      let hash := IZR (simpleHash word) in
      (Rmax (-1) (Rmin 1 (cos hash * 0.3)),
       Rmax (-1) (Rmin 1 (sin hash * 0.3)))
  end.

(** [calculateEmbodiedDirection(readingState)], on the attention focus,
    the cognitive load and the gesture vector of the reading state. *)
Definition calculateEmbodiedDirection (attentionFocus : list (R * R))
  (cognitiveLoad : R) (gestureVector : R * R) : R * R :=
  let attentionVector := calculateAttentionVector attentionFocus in
  let memoryVector := gestureVector in
  let loadFactor := Rmax 0.1 (Rmin 1 (1 - or_default cognitiveLoad 0 * 0.5)) in
  (Rmax (-1) (Rmin 1
    ((fst attentionVector * 0.6 + fst memoryVector * 0.4) * loadFactor)),
   Rmax (-1) (Rmin 1
     ((snd attentionVector * 0.6 + snd memoryVector * 0.4) * loadFactor))).

(** The string [unknown]. *)
Definition unknown : jsstring := [117; 110; 107; 110; 111; 119; 110]%Z.

(** [simulateReadingBody(currentNode, textNodes)], on the [id], the
    [char] and the [position] of the node and the positions of the text
    nodes: the embodied direction, and the field with the reading added
    to its history. *)
Definition simulateReadingBody (sf : t) (nodeId char : jsstring)
  (pos : R * R) (textPositions : list (R * R)) : (R * R) * t :=
  match char with
  | [] => ((0, 0), sf)
  | _ =>
      let attentionFocus := calculateAttentionFocus pos textPositions in
      let cognitiveLoad := calculateCognitiveLoad sf char in
      let gestureVector := calculateGestureVector char in
      let embodiedDirection :=
        calculateEmbodiedDirection attentionFocus cognitiveLoad gestureVector in
      (embodiedDirection,
       addToReadingHistory sf
         (mk_entry (match nodeId with [] => unknown | _ => nodeId end)
          cognitiveLoad))
  end.
(** The angles of [for (angle = 0; angle < Math.PI * 2; angle += Math.PI / 12)]
    in exact arithmetic: [k * (PI / 12)] for [k < 24].  (The rounded sums
    of the doubles can let the loop run once more; nothing below depends
    on the number of turns.) *)
Definition field_angles : list R :=
  map (fun k => INR k * (PI / 12)) (seq 0 24).

(** The body of the loop of [generateSensationField]: the point at
    [angle]. *)
Definition sensation_point (midpoint : R * R) (fieldRadius angle : R)
  : R * R :=
  let r := fieldRadius * (0.8 + 0.2 * sin (angle * 3)) in
  (fst midpoint + cos angle * r, snd midpoint + sin angle * r).

(** [generateSensationField(pos1, pos2, intensity)], for two positions
    with numeric coordinates. *)
Definition generateSensationField (pos1 pos2 : R * R) (intensity : R)
  : list (R * R) :=
  let safeIntensity := Rmax 0 (Rmin 1 (or_default intensity 0)) in
  let midpoint := ((fst pos1 + fst pos2) / 2, (snd pos1 + snd pos2) / 2) in
  let fieldRadius := safeIntensity * 30 in
  map (sensation_point midpoint fieldRadius) field_angles.

(** *** Vocabulary of the properties *)

(** The association graph is within its capacity, which is positive. *)
Definition graph_within_cap (sf : t) : Prop :=
  (0 < maxSemanticGraphSize sf)%nat
  /\ (JSMap.size (semanticGraph sf) <= maxSemanticGraphSize sf)%nat.

(** How often the bigram [key] occurs among the adjacent pairs of
    [words]. *)
Fixpoint bigram_count (key : jsstring) (words : list jsstring) : nat :=
  match words with
  | w1 :: ((w2 :: _) as rest) =>
      ((if eqb (bigram_key w1 w2) key then 1 else 0)
       + bigram_count key rest)%nat
  | _ => 0%nat
  end.

End SemanticField.

(* ------------------------------------------------------------------ *)
(** ** OrganicLayout (js/OrganicLayout.js)                             *)
(* ------------------------------------------------------------------ *)

Module OrganicLayout.
Import JSMath.
Open Scope R_scope.

(** A node.  Kept are the properties that growth reads back: [id],
    [char] (the empty string stands for a missing character, both are
    falsy), [position], [velocity], [energy], [generation], [textIndex]
    and [parent].  The descriptive properties ([children], [curvature],
    [semanticResonance], [collocationStrength], [readingDepth],
    [temporalLayer]) are written once and read by no decision of the
    engine. *)
Record node : Type := mk_node {
  id : jsstring;
  char : jsstring;
  position : R * R;
  velocity : R * R;
  energy : R;
  generation : nat;
  textIndex : nat;
  parent : option jsstring
}.

#[global] Instance node_Indexable : Indexable node := {|
  item_id := fun n => Some (id n);
  item_position := fun n => Some (Num (fst (position n)), Num (snd (position n)))
|}.

(** A connection, by its [(from, to)] pair. *)
Record connection : Type := mk_connection {
  conn_from : jsstring;
  conn_to : jsstring
}.

(** The growth parameters that the modelled part of a tick reads. *)
Record params : Type := mk_params {
  initialEnergy : R;
  energyDecay : R;
  branchProbability : R;
  characterSpacing : R;
  semanticGravity : R;
  interferenceAmplitude : R;
  embodimentFactor : R
}.

Record t : Type := mk {
  text : jsstring;
  canvasWidth : R;
  canvasHeight : R;
  nodes : list node;
  connections : list connection;
  growthQueue : list node;
  generation_count : nat;
  isGrowing : bool;
  maxNodes : nat;
  maxConnections : nat;
  spatialIndex : SpatialIndex.t node;
  semanticField : SemanticField.t;
  parameters : params
}.

Definition with_nodes (e : t) ns idx : t :=
  mk (text e) (canvasWidth e) (canvasHeight e) ns (connections e)
    (growthQueue e) (generation_count e) (isGrowing e) (maxNodes e)
    (maxConnections e) idx (semanticField e) (parameters e).
Definition with_connections (e : t) cs : t :=
  mk (text e) (canvasWidth e) (canvasHeight e) (nodes e) cs
    (growthQueue e) (generation_count e) (isGrowing e) (maxNodes e)
    (maxConnections e) (spatialIndex e) (semanticField e) (parameters e).
Definition with_index (e : t) idx : t :=
  mk (text e) (canvasWidth e) (canvasHeight e) (nodes e) (connections e)
    (growthQueue e) (generation_count e) (isGrowing e) (maxNodes e)
    (maxConnections e) idx (semanticField e) (parameters e).
Definition with_field (e : t) sf : t :=
  mk (text e) (canvasWidth e) (canvasHeight e) (nodes e) (connections e)
    (growthQueue e) (generation_count e) (isGrowing e) (maxNodes e)
    (maxConnections e) (spatialIndex e) sf (parameters e).
Definition with_queue (e : t) q g : t :=
  mk (text e) (canvasWidth e) (canvasHeight e) (nodes e) (connections e)
    q g (isGrowing e) (maxNodes e)
    (maxConnections e) (spatialIndex e) (semanticField e) (parameters e).
Definition with_growing (e : t) b : t :=
  mk (text e) (canvasWidth e) (canvasHeight e) (nodes e) (connections e)
    (growthQueue e) (generation_count e) b (maxNodes e)
    (maxConnections e) (spatialIndex e) (semanticField e) (parameters e).
Definition with_parameters (e : t) p : t :=
  mk (text e) (canvasWidth e) (canvasHeight e) (nodes e) (connections e)
    (growthQueue e) (generation_count e) (isGrowing e) (maxNodes e)
    (maxConnections e) (spatialIndex e) (semanticField e) p.

(** The text used when the constructor is given none. *)
Definition default_text : jsstring :=
  [12487; 12501; 12457; 12523; 12488; 12486; 12461; 12473; 12488]%Z.

Definition default_params : params := mk_params 100 0.3 0.15 18 0.6 0.4 0.7.

(** [constructor(text, canvasWidth, canvasHeight)], with both classes it
    depends on present. *)
Definition new (txt : jsstring) (w h : jsnum) : t :=
  let txt' := match txt with [] => default_text | _ => txt end in
  let cw := Rmax 100 (num_or w 800) in
  let ch := Rmax 100 (num_or h 600) in
  mk txt' cw ch [] [] [] 0 false 1000 2000
    (SpatialIndex.new (Num cw) (Num ch) (Num 50))
    (SemanticField.analyzeSemanticStructure SemanticField.new txt')
    default_params.

(** [`node_${n}`]; the prefix is the code units of [node_]. *)
Definition node_id (n : nat) : jsstring :=
  [110; 111; 100; 101; 95]%Z ++ decimal n.

(** [this.text[i]] as a string; empty when [i] is out of range. *)
Definition char_at (txt : jsstring) (i : nat) : jsstring :=
  match nth_error txt i with
  | Some c => [c]
  | None => []
  end.

(** The three [Math.random()] draws that place one seed: for its
    distance from the centre and for the two components of its
    velocity. *)
Record seed_draws : Type := mk_seed_draws {
  radiusDraw : R;
  dxDraw : R;
  dyDraw : R
}.

(** The loop body of [initialize] for seed [i]. *)
Definition add_seed (seedCount : nat) (rnd : nat -> seed_draws) (e : t)
  (i : nat) : t :=
  let centerX := canvasWidth e / 2 in
  let centerY := canvasHeight e / 2 in
  let angle := INR i / INR seedCount * PI * 2 in
  let radius := 100 + radiusDraw (rnd i) * 50 in
  let txtIndex :=
    Nat.min (i * (length (text e) / seedCount)) (length (text e) - 1) in
  let seed :=
    mk_node (node_id (length (nodes e)))
      (match char_at (text e) txtIndex with
       | [] => char_at (text e) 0
       | c => c
       end)
      (centerX + cos angle * radius, centerY + sin angle * radius)
      (cos (angle + (dxDraw (rnd i) - 0.5) * 0.5),
       sin (angle + (dyDraw (rnd i) - 0.5) * 0.5))
      (initialEnergy (parameters e)) 0 txtIndex None in
  let e1 :=
    with_nodes e (nodes e ++ [seed])
      (snd (SpatialIndex.insert (spatialIndex e) seed)) in
  with_queue e1 (growthQueue e1 ++ [seed]) (generation_count e1).

(** [initialize()]; [rnd i] are the random draws of seed [i]. *)
Definition initialize (rnd : nat -> seed_draws) (e : t) : t :=
  match text e with
  | [] => e
  | _ =>
      let seedCount :=
        Z.to_nat (Z.max 1 (Z.min 10 (floor (sqrt (INR (length (text e))) / 5)))) in
      fold_left (add_seed seedCount rnd) (seq 0 seedCount) e
  end.

(** [start()] and [pause()] *)
Definition start (e : t) : t := with_growing e true.
Definition pause (e : t) : t := with_growing e false.

(** [getDistance(pos1, pos2)] *)
Definition getDistance (p1 p2 : R * R) : R :=
  let dx := fst p1 - fst p2 in
  let dy := snd p1 - snd p2 in
  sqrt (dx * dx + dy * dy).

(** [getNormalizedDirection(from, to)] *)
Definition getNormalizedDirection (from to : R * R) : R * R :=
  let dx := fst to - fst from in
  let dy := snd to - snd from in
  let mag := sqrt (dx * dx + dy * dy) in
  if ltb 0 mag then (dx / mag, dy / mag) else (0, 0).

(** [dot(v1, v2)] *)
Definition dot (v1 v2 : R * R) : R := fst v1 * fst v2 + snd v1 * snd v2.

(** [Math.atan2(y, x)] *)
Definition atan2 (y x : R) : R :=
  if Rlt_dec 0 x then atan (y / x)
  else if Rlt_dec x 0 then
    if Rle_dec 0 y then atan (y / x) + PI else atan (y / x) - PI
  else if Rlt_dec 0 y then PI / 2
  else if Rlt_dec y 0 then - (PI / 2)
  else 0.

(** [checkIntersection(node, nearbyNodes)] *)
Definition checkIntersection (n : node) (nearbyNodes : list node) : bool :=
  existsb (fun nearby =>
    negb (eqb (id nearby) (id n))
      && ltb (getDistance (position n) (position nearby)) 15) nearbyNodes.

(** [checkSemanticIntersection(node, nearbyNodes)] *)
Definition checkSemanticIntersection (sf : SemanticField.t) (n : node)
  (nearbyNodes : list node) : bool :=
  if checkIntersection n nearbyNodes then true
  else
    match char n with
    | [] => false
    | _ =>
        existsb (fun nearby =>
          match char nearby with
          | [] => false
          | _ =>
              ltb (SemanticField.getSemanticDistance sf (char n) (char nearby)) 0.3
                && ltb (getDistance (position n) (position nearby)) 25
          end) nearbyNodes
    end.

(** [calculateEnergyDecay(node, nearbyNodes)] *)
Definition calculateEnergyDecay (e : t) (n : node) (nearbyNodes : list node)
  : R :=
  let baseDecay := energyDecay (parameters e) in
  let cognitiveLoad :=
    SemanticField.calculateCognitiveLoad (semanticField e) (char n) in
  let loadPenalty := Rmax 0 (cognitiveLoad * 0.1) in
  let collocationBonus :=
    match char n with
    | [] => 0
    | _ =>
        fold_left (fun acc nearby =>
          match char nearby with
          | [] => acc
          | _ =>
              acc + Rmax 0 (SemanticField.getCollocationStrength
                (semanticField e) (char n) (char nearby) * 0.05)
          end) nearbyNodes 0
    end in
  Rmax 0.1 (Rmin 1 (baseDecay + loadPenalty - collocationBonus)).

(** [calculateSemanticBranchProbability(node, nearbyNodes)] *)
Definition calculateSemanticBranchProbability (e : t) (n : node)
  (nearbyNodes : list node) : R :=
  match char n with
  | [] => branchProbability (parameters e)
  | _ =>
      let baseProbability := branchProbability (parameters e) in
      let semanticComplexity :=
        SemanticField.getSemanticComplexity (semanticField e) (char n) in
      let complexityBonus := Rmin 0.3 (semanticComplexity / 10) in
      let collocationBonus :=
        fold_left (fun acc nearby =>
          match char nearby with
          | [] => acc
          | _ =>
              if ltb 0.5 (SemanticField.getCollocationStrength
                (semanticField e) (char n) (char nearby))
              then acc + 0.1 else acc
          end) nearbyNodes 0 in
      let depthFactor :=
        Rmin 1 (INR (length (SemanticField.readingHistory (semanticField e))) / 100) in
      Rmax 0 (Rmin 0.8 (baseProbability + complexityBonus
        + collocationBonus * depthFactor))
  end.

(** [addConnection(connection)] *)
Definition addConnection (e : t) (c : connection) : t :=
  match conn_from c, conn_to c with
  | [], _ | _, [] => e
  | _, _ =>
      if existsb (fun conn => eqb (conn_from conn) (conn_from c)
                  && eqb (conn_to conn) (conn_to c))
          (connections e)
      then e
      else with_connections e (connections e ++ [c])
  end.

(** [calculateSemanticInterest(node, direction, nearbyNodes)] *)
Definition calculateSemanticInterest (sf : SemanticField.t) (n : node)
  (direction : R * R) (nearbyNodes : list node) : R :=
  match char n with
  | [] => 0
  | _ =>
      let angle := atan2 (snd direction) (fst direction) in
      let interest0 := 0 + sin (angle * 3) * 0.3 in
      let interest :=
        fold_left (fun acc nearby =>
          match char nearby with
          | [] => acc
          | _ =>
              let nearbyDir :=
                getNormalizedDirection (position n) (position nearby) in
              let dirSimilarity := dot direction nearbyDir in
              if ltb 0.7 dirSimilarity then
                acc + (1 - SemanticField.getSemanticDistance sf (char n)
                       (char nearby)) * 0.4
              else acc
          end) nearbyNodes interest0 in
      Rmax 0 interest
  end.

(** The angles of [for (angle = 0; angle < Math.PI * 2; angle += Math.PI / d)]:
    [k * (PI / d)] for [k < 2 d]. *)
Definition scan_angles (d : nat) : list R :=
  map (fun k => INR k * (PI / INR d)) (seq 0 (2 * d)).

(** The search of [createSemanticBranch] for the most interesting of the
    24 directions: the best direction so far and its interest. *)
Definition best_direction (sf : SemanticField.t) (parentNode : node)
  (nearbyNodes : list node) : option (R * R) * R :=
  fold_left (fun acc angle =>
    let testDir := (cos angle, sin angle) in
    let interest :=
      calculateSemanticInterest sf parentNode testDir nearbyNodes in
    if ltb (snd acc) interest then (Some testDir, interest) else acc)
    (scan_angles 12) (None, 0).

(** The [branchNode] of [createSemanticBranch] in the direction found. *)
Definition branch_candidate (e : t) (parentNode : node)
  (bestDirection : R * R) : node :=
  let nextTextIndex :=
    Nat.min (textIndex parentNode + 1) (length (text e) - 1) in
  let spacing := characterSpacing (parameters e) in
  mk_node (node_id (length (nodes e)))
    (char_at (text e) nextTextIndex)
    (fst (position parentNode) + fst bestDirection * spacing,
     snd (position parentNode) + snd bestDirection * spacing)
    bestDirection
    (Rmax 0 (energy parentNode * 0.8))
    (generation parentNode + 1) nextTextIndex
    (Some (id parentNode)).

(** [createSemanticBranch(parentNode, nearbyNodes)]: the new engine and
    the branch node, if one was made. *)
Definition createSemanticBranch (e : t) (parentNode : node)
  (nearbyNodes : list node) : t * option node :=
  match best_direction (semanticField e) parentNode nearbyNodes with
  | (Some bestDirection, maxInterest) =>
      if leb maxInterest 0 then (e, None)
      else
        let branchNode := branch_candidate e parentNode bestDirection in
        if checkSemanticIntersection (semanticField e) branchNode nearbyNodes
        then (e, None)
        else
          let e1 :=
            with_nodes e (nodes e ++ [branchNode])
              (snd (SpatialIndex.insert (spatialIndex e) branchNode)) in
          (addConnection e1 (mk_connection (id parentNode) (id branchNode)),
           Some branchNode)
  | (None, _) => (e, None)
  end.

(** [calculateSemanticFreedom(position, char, nearbyNodes)] *)
Definition calculateSemanticFreedom (sf : SemanticField.t) (pos : R * R)
  (c : jsstring) (nearbyNodes : list node) : R :=
  match c with
  | [] => 0
  | _ =>
      let '(spatialFreedom, semanticFreedom) :=
        fold_left (fun acc nearby =>
          match char nearby with
          | [] => acc
          | _ =>
              let spatialDist := getDistance pos (position nearby) in
              let semanticDist :=
                SemanticField.getSemanticDistance sf c (char nearby) in
              (fst acc * Rmin 1 (spatialDist / 30),
               snd acc * Rmin 1 semanticDist)
          end) nearbyNodes (1, 1) in
      (spatialFreedom + semanticFreedom) / 2
  end.

(** [createSemanticAvoidanceBranch(parentNode, nearbyNodes)] *)
Definition createSemanticAvoidanceBranch (e : t) (parentNode : node)
  (nearbyNodes : list node) : t * option node :=
  match char parentNode with
  | [] => (e, None)
  | _ =>
      let spacing := characterSpacing (parameters e) in
      let '(bestAngle, maxFreedom) :=
        fold_left (fun acc angle =>
          let testPos :=
            (fst (position parentNode) + cos angle * spacing,
             snd (position parentNode) + sin angle * spacing) in
          let freedom :=
            calculateSemanticFreedom (semanticField e) testPos
              (char parentNode) nearbyNodes in
          if ltb (snd acc) freedom then (Some angle, freedom) else acc)
          (scan_angles 8) (None, 0) in
      match bestAngle with
      | Some _ =>
          if ltb 0.3 maxFreedom
          then createSemanticBranch e parentNode nearbyNodes
          else (e, None)
      | None => (e, None)
      end
  end.

(** The two [Math.random()] draws of [createBranch]. *)
Record branch_draws : Type := mk_branch_draws {
  sideDraw : R;
  spreadDraw : R
}.

(** The [branchNode] of [createBranch]. *)
Definition physical_branch_candidate (e : t) (rnd : branch_draws)
  (parentNode : node) : node :=
  let branchAngle :=
    atan2 (snd (velocity parentNode)) (fst (velocity parentNode))
      + (if ltb 0.5 (sideDraw rnd) then 1 else -1)
      * (PI / 4 + spreadDraw rnd * PI / 4) in
  let nextTextIndex :=
    Nat.min (textIndex parentNode + 1) (length (text e) - 1) in
  let spacing := characterSpacing (parameters e) in
  mk_node (node_id (length (nodes e)))
    (char_at (text e) nextTextIndex)
    (fst (position parentNode) + cos branchAngle * spacing,
     snd (position parentNode) + sin branchAngle * spacing)
    (cos branchAngle, sin branchAngle)
    (Rmax 0 (energy parentNode * 0.7))
    (generation parentNode + 1) nextTextIndex
    (Some (id parentNode)).

(** [createBranch(parentNode, nearbyNodes)], the branch of the physical
    growth rules. *)
Definition createBranch (e : t) (rnd : branch_draws) (parentNode : node)
  (nearbyNodes : list node) : t * option node :=
  let branchNode := physical_branch_candidate e rnd parentNode in
  if checkIntersection branchNode nearbyNodes then (e, None)
  else
    let e1 :=
      with_nodes e (nodes e ++ [branchNode])
        (snd (SpatialIndex.insert (spatialIndex e) branchNode)) in
    (addConnection e1 (mk_connection (id parentNode) (id branchNode)),
     Some branchNode).

(** [performMemoryCleanup()], on the nodes, the connections and the
    spatial index. *)
Definition performMemoryCleanup (e : t) : t :=
  let e1 :=
    if (maxNodes e <? length (nodes e))%nat then
      let removeCount :=
        (length (nodes e) - SemanticField.keepCount (maxNodes e))%nat in
      let removedIds := map id (firstn removeCount (nodes e)) in
      let kept := skipn removeCount (nodes e) in
      let conns :=
        filter (fun c =>
          negb (existsb (eqb (conn_from c)) removedIds)
            && negb (existsb (eqb (conn_to c)) removedIds)) (connections e) in
      let idx :=
        fold_left (fun idx n => snd (SpatialIndex.insert idx n)) kept
          (SpatialIndex.clear (spatialIndex e)) in
      with_connections (with_nodes e kept idx) conns
    else e in
  if (maxConnections e1 <? length (connections e1))%nat then
    with_connections e1
      (skipn (length (connections e1)
              - SemanticField.keepCount (maxConnections e1))
       (connections e1))
  else e1.

(** The two [Math.random()] draws of the loop body of [grow] for one
    queue entry: the one of [applyCurvature] and the one of the branching
    test. *)
Record node_draws : Type := mk_node_draws {
  curveDraw : R;
  branchDraw : R
}.

(** The metrics that [captureSystemState] hands to
    [adaptSystemParameters]. *)
Record system_state : Type := mk_system_state {
  semanticDensity : R;
  visualComplexity : R;
  cognitiveLoad : R
}.

(** [adaptSystemParameters(reflection)] *)
Definition adaptSystemParameters (p : params) (state : system_state)
  : params :=
  let g :=
    if ltb 0.8 (semanticDensity state) then semanticGravity p * 0.95
    else if ltb (semanticDensity state) 0.3 then semanticGravity p * 1.05
    else semanticGravity p in
  let a :=
    if ltb 0.7 (visualComplexity state) then interferenceAmplitude p * 0.9
    else if ltb (visualComplexity state) 0.3 then interferenceAmplitude p * 1.1
    else interferenceAmplitude p in
  let d :=
    if ltb 0.8 (cognitiveLoad state) then energyDecay p * 1.1
    else if ltb (cognitiveLoad state) 0.3 then energyDecay p * 0.9
    else energyDecay p in
  mk_params (initialEnergy p) (Rmax 0.1 (Rmin 1.0 d)) (branchProbability p)
    (characterSpacing p) (Rmax 0.1 (Rmin 1.0 g)) (Rmax 0.1 (Rmin 1.0 a))
    (embodimentFactor p).

(** The neighbours of a queue entry: what
    [spatialIndex.query(node.position, 50)] returns, the node itself
    (by id) filtered out; and the index after the query. *)
Definition neighbours (e : t) (n : node) : list node :=
  filter (fun m => negb (eqb (id m) (id n)))
    (fst (SpatialIndex.query (spatialIndex e)
          (Some (Num (fst (position n)), Num (snd (position n)))) (Num 50))).

Definition index_after_query (e : t) (n : node) : SpatialIndex.t node :=
  snd (SpatialIndex.query (spatialIndex e)
       (Some (Num (fst (position n)), Num (snd (position n)))) (Num 50)).

(** [normalizeVector(vector)] *)
Definition normalizeVector (v : R * R) : R * R :=
  let mag := sqrt (fst v * fst v + snd v * snd v) in
  if ltb 0 mag then (fst v / mag, snd v / mag) else (0, 0).

(** [calculateGrowthDirection(node, nearbyNodes)] *)
Definition calculateGrowthDirection (n : node) (nearbyNodes : list node)
  : R * R :=
  let direction :=
    fold_left (fun direction nearby =>
      if eqb (id nearby) (id n) then direction
      else
        let dx := fst (position n) - fst (position nearby) in
        let dy := snd (position n) - snd (position nearby) in
        let dist := sqrt (dx * dx + dy * dy) in
        if ltb 0 dist && ltb dist 30 then
          let force := (30 - dist) / 30 in
          (fst direction + dx / dist * force * 0.3,
           snd direction + dy / dist * force * 0.3)
        else direction) nearbyNodes (velocity n) in
  let mag :=
    sqrt (fst direction * fst direction + snd direction * snd direction) in
  if ltb 0 mag then (fst direction / mag, snd direction / mag) else (1, 0).

(** [calculateSemanticGrowthDirection(node, nearbyNodes)] *)
Definition calculateSemanticGrowthDirection (e : t) (n : node)
  (nearbyNodes : list node) : R * R :=
  let physicalDir := calculateGrowthDirection n nearbyNodes in
  let gravity := semanticGravity (parameters e) in
  let semanticForce :=
    fold_left (fun semanticForce nearby =>
      if eqb (id nearby) (id n) then semanticForce
      else
        let semanticVector :=
          SemanticField.calculateSemanticForce (semanticField e)
            (Some (Some (char n))) (Some (Some (char nearby)))
            (Num (getDistance (position n) (position nearby))) in
        let dirToNearby :=
          getNormalizedDirection (position n) (position nearby) in
        let attraction := SemanticField.attraction semanticVector in
        let repulsion := SemanticField.repulsion semanticVector in
        let lateral := SemanticField.lateral semanticVector in
        (fst semanticForce + fst dirToNearby * attraction * gravity
          - fst dirToNearby * repulsion * gravity
            + - snd dirToNearby * lateral,
          snd semanticForce + snd dirToNearby * attraction * gravity
            - snd dirToNearby * repulsion * gravity
            + fst dirToNearby * lateral)) nearbyNodes (0, 0) in
  normalizeVector
    (fst physicalDir * (1 - gravity) + fst semanticForce,
     snd physicalDir * (1 - gravity) + snd semanticForce).

(** [semanticField.simulateReadingBody(node, this.nodes)] for a queue
    entry: the embodied direction that it returns, and the semantic
    field after it, whose reading history has one entry more.
    [embodied_direction] is the first component; [read_node] is the
    engine that holds the second. *)
Definition simulate (e : t) (n : node) : (R * R) * SemanticField.t :=
  SemanticField.simulateReadingBody (semanticField e) (id n) (char n)
    (position n) (map position (nodes e)).

Definition embodied_direction (e : t) (n : node) : R * R := fst (simulate e n).

Definition read_node (e : t) (n : node) : t := with_field e (snd (simulate e n)).

(** [applyInterferencePattern(visualDir, embodiedDir, node)] *)
Definition applyInterferencePattern (e : t) (visualDir embodiedDir : R * R)
  (n : node) : R * R :=
  let amplitude := interferenceAmplitude (parameters e) in
  let factor := embodimentFactor (parameters e) in
  let phase := INR (generation n) * 0.1 + INR (textIndex n) * 0.05 in
  let interferenceX := sin phase * amplitude in
  let interferenceY := cos (phase * 1.3) * amplitude in
  normalizeVector
    (fst visualDir * (1 - factor) + fst embodiedDir * factor + interferenceX,
     snd visualDir * (1 - factor) + snd embodiedDir * factor + interferenceY).

(** [calculateSemanticCurvature(node, nearbyNodes)] *)
Definition calculateSemanticCurvature (e : t) (n : node)
  (nearbyNodes : list node) : R :=
  let baseCurvature :=
    Rmax 0 ((initialEnergy (parameters e) - energy n)
            / initialEnergy (parameters e)) in
  let maxCollocation :=
    match char n with
    | [] => 0
    | _ =>
        fold_left (fun maxCollocation nearby =>
          match char nearby with
          | [] => maxCollocation
          | _ =>
              Rmax maxCollocation
                (SemanticField.getCollocationStrength (semanticField e)
                 (char n) (char nearby))
          end) nearbyNodes 0
    end in
  let semanticComplexity :=
    match char n with
    | [] => 1
    | _ => SemanticField.getSemanticComplexity (semanticField e) (char n)
    end in
  let complexityFactor := Rmin 1 (semanticComplexity / 10) in
  Rmax 0 (Rmin 1 (baseCurvature + maxCollocation * 0.3
    + complexityFactor * 0.2)).

(** [applyCurvature(direction, curvature)]; [draw] is its
    [Math.random()]. *)
Definition applyCurvature (direction : R * R) (curvature draw : R) : R * R :=
  let safeCurvature := Rmax 0 (Rmin 1 (or_default curvature 0)) in
  let angle := atan2 (snd direction) (fst direction) in
  let curveAngle := angle + (draw - 0.5) * safeCurvature * PI in
  (cos curveAngle, sin curveAngle).

(** The direction in which [grow] places the successor of a queue
    entry: the semantic growth direction and the embodied direction of
    the reading, superposed by [applyInterferencePattern] and bent by
    [applyCurvature], whose [Math.random()] is [draw].  The reading has
    gone into the history when the interference and the curvature are
    computed. *)
Definition curved_direction (e : t) (n : node) (nearbyNodes : list node)
  (draw : R) : R * R :=
  let growthDir := calculateSemanticGrowthDirection e n nearbyNodes in
  let embodiedDirection := embodied_direction e n in
  let e := read_node e n in
  let interferencePattern :=
    applyInterferencePattern e growthDir embodiedDirection n in
  let curvature := calculateSemanticCurvature e n nearbyNodes in
  applyCurvature interferencePattern curvature draw.

(** The [newNode] of [grow] for a queue entry with its neighbours and
    the curved direction. *)
Definition successor_candidate (e : t) (curvedDir : R * R) (n : node)
  (nearbyNodes : list node) : node :=
  let nextTextIndex := Nat.min (textIndex n + 1) (length (text e) - 1) in
  let spacing := characterSpacing (parameters e) in
  mk_node (node_id (length (nodes e)))
    (char_at (text e) nextTextIndex)
    (fst (position n) + fst curvedDir * spacing,
     snd (position n) + snd curvedDir * spacing)
    curvedDir
    (Rmax 0 (energy n - calculateEnergyDecay e n nearbyNodes))
    (generation n + 1) nextTextIndex (Some (id n)).

(** The body of the loop of [grow] for one queue entry; the state of the
    loop is the engine and the queue of the next tick. *)
Definition grow_node (rnd : node_draws) (acc : t * list node) (n : node)
  : t * list node :=
  let '(e, newQueue) := acc in
  if leb (energy n) 0 || (length (text e) - 1 <=? textIndex n)%nat
  then (e, newQueue)
  else
    let nearbyNodes := neighbours e n in
    let e := with_index e (index_after_query e n) in
    let curvedDir := curved_direction e n nearbyNodes (curveDraw rnd) in
    let e := read_node e n in
    let newNode := successor_candidate e curvedDir n nearbyNodes in
    if checkSemanticIntersection (semanticField e) newNode nearbyNodes then
      let '(e, avoidanceNode) :=
        createSemanticAvoidanceBranch e n nearbyNodes in
      match avoidanceNode with
      | Some b => (e, newQueue ++ [b])
      | None => (e, newQueue)
      end
    else
      let e :=
        with_nodes e (nodes e ++ [newNode])
          (snd (SpatialIndex.insert (spatialIndex e) newNode)) in
      let newQueue := newQueue ++ [newNode] in
      let e := addConnection e (mk_connection (id n) (id newNode)) in
      let probability := calculateSemanticBranchProbability e n nearbyNodes in
      if ltb (branchDraw rnd) probability && ltb 50 (energy n) then
        let '(e, branchNode) := createSemanticBranch e n nearbyNodes in
        match branchNode with
        | Some b => (e, newQueue ++ [b])
        | None => (e, newQueue)
        end
      else (e, newQueue).

(** What one tick takes from outside the modelled state: the draws of
    each queue entry, by its place in the queue, and the metrics seen by
    the self-reflection of every tenth generation ([None] when the
    reflection was abandoned on an exception). *)
Record tick_env : Type := mk_tick_env {
  draws_of : nat -> node_draws;
  observed : option system_state
}.

(** [grow()], one tick. *)
Definition grow (env : tick_env) (e : t) : t :=
  if negb (isGrowing e) || (length (growthQueue e) =? 0)%nat then e
  else
    let e1 :=
      if (maxNodes e <=? length (nodes e))%nat
      then performMemoryCleanup e else e in
    let '(e2, newQueue) :=
      fold_left (fun acc (entry : nat * node) =>
        grow_node (draws_of env (fst entry)) acc (snd entry))
        (combine (seq 0 (length (growthQueue e1))) (growthQueue e1))
        (e1, []) in
    let e3 :=
      if (generation_count e2 mod 10 =? 0)%nat then
        match observed env with
        | Some state =>
            with_parameters e2 (adaptSystemParameters (parameters e2) state)
        | None => e2
        end
      else e2 in
    with_queue e3 newQueue (S (generation_count e3)).

(** [reset()]; [rnd] are the random draws of the [initialize()] that ends
    it.  The semantic field is a new one, which has analysed no text. *)
Definition reset (rnd : nat -> seed_draws) (e : t) : t :=
  initialize rnd
    (mk (text e) (canvasWidth e) (canvasHeight e) [] [] [] 0 false
       (maxNodes e) (maxConnections e)
       (SpatialIndex.clear (spatialIndex e)) SemanticField.new
       (parameters e)).

(** *** Vocabulary of the properties *)

(** The conflict test in words: the candidate is closer than 15 units to
    a neighbour with another id, or it has a character and is closer than
    25 units to a neighbour whose character is at semantic distance below
    0.3. *)
Definition conflicts (sf : SemanticField.t) (c : node)
  (nearbyNodes : list node) : Prop :=
  (exists m, In m nearbyNodes /\ id m <> id c
   /\ getDistance (position c) (position m) < 15)
  \/ (char c <> []
      /\ exists m, In m nearbyNodes /\ char m <> []
      /\ SemanticField.getSemanticDistance sf (char c) (char m) < 0.3
      /\ getDistance (position c) (position m) < 25).

(** How a node [c] was made out of its parent [p]: as the successor of
    [grow], as the branch of [createSemanticBranch], or as the branch of
    [createBranch]. *)
Definition is_successor (p c : node) : Prop :=
  exists e curvedDir nearbyNodes,
    c = successor_candidate e curvedDir p nearbyNodes.

Definition is_semantic_branch (p c : node) : Prop :=
  exists e bestDirection, c = branch_candidate e p bestDirection.

Definition is_physical_branch (p c : node) : Prop :=
  exists e rnd, c = physical_branch_candidate e rnd p.

(** The energy of a child next to that of its parent: the parent's less
    a decay between 0.1 and 1, or 0.8 or 0.7 times the parent's, floored
    at 0. *)
Definition child_energy (p c : node) : Prop :=
  (exists decay, 0.1 <= decay <= 1 /\ energy c = Rmax 0 (energy p - decay))
  \/ energy c = Rmax 0 (energy p * 0.8)
  \/ energy c = Rmax 0 (energy p * 0.7).

(** The engine on which the loop of a tick runs: after the cleanup when
    the nodes have reached the cap. *)
Definition tick_start (e : t) : t :=
  if (maxNodes e <=? length (nodes e))%nat then performMemoryCleanup e else e.

(** The ids of the nodes are [node_0], [node_1], ... in order. *)
Definition ids_sequential (e : t) : Prop :=
  map id (nodes e) = map node_id (seq 0 (length (nodes e))).
(** What the loop of a tick leaves as it is: the text, the canvas, the
    limits, the parameters, and the state of the run. *)
Definition config (e : t)
  : jsstring * R * R * nat * nat * params * bool * nat * list node :=
  (text e, canvasWidth e, canvasHeight e, maxNodes e, maxConnections e,
   parameters e, isGrowing e, generation_count e, growthQueue e).

(** A node [c] one step after its parent [p] in the text [txt]: it
    carries the next character, is one generation younger, and lies
    [spacing] away from [p] in the direction of its own velocity, a unit
    vector. *)
Definition step_from (txt : jsstring) (spacing : R) (p c : node) : Prop :=
  parent c = Some (id p)
  /\ generation c = (generation p + 1)%nat
  /\ textIndex c = S (textIndex p)
  /\ (textIndex c < length txt)%nat
  /\ char c = char_at txt (textIndex c)
  /\ exists a,
       velocity c = (cos a, sin a)
       /\ position c
          = (fst (position p) + cos a * spacing,
             snd (position p) + sin a * spacing).

(** [k] ticks of [grow], the tick [i] with the environment [envs i]. *)
Fixpoint grow_ticks (envs : nat -> tick_env) (k : nat) (e : t) : t :=
  match k with
  | O => e
  | S k' => grow (envs k') (grow_ticks envs k' e)
  end.

(** The parameters that [adaptSystemParameters] adjusts lie in their
    range. *)
Definition adapted_in_range (p : params) : Prop :=
  0.1 <= energyDecay p <= 1
  /\ 0.1 <= semanticGravity p <= 1
  /\ 0.1 <= interferenceAmplitude p <= 1.

(** A seed of [initialize], the [i]-th node of an engine with the text
    [txt] and the canvas centre [centre]: it has the full energy, no
    parent, a character of the text, and lies [100 + 50 * draw] from the
    centre. *)
Definition is_seed (e : t) (draw : R) (i : nat) (seed : node) : Prop :=
  id seed = node_id i
  /\ energy seed = initialEnergy (parameters e)
  /\ generation seed = 0%nat
  /\ parent seed = None
  /\ (textIndex seed < length (text e))%nat
  /\ char seed = char_at (text e) (textIndex seed)
  /\ getDistance (position seed) (canvasWidth e / 2, canvasHeight e / 2)
     = Rabs (100 + draw * 50).

End OrganicLayout.

(* ------------------------------------------------------------------ *)
(** ** Concrete indexes and engines used in examples                   *)
(* ------------------------------------------------------------------ *)

Module Scenarios.
Open Scope R_scope.

(** A plain object with an optional [id] and an optional [position]. *)
Record plain_item : Type := mk_plain {
  plain_id : option jsstring;
  plain_position : option (jsnum * jsnum)
}.

#[global] Instance plain_Indexable : Indexable plain_item := {|
  item_id := plain_id;
  item_position := plain_position
|}.

(** [new SpatialIndex(800, 600, 50)] *)
Definition canvas : SpatialIndex.t plain_item :=
  SpatialIndex.new (Num 800) (Num 600) (Num 50).

(** [{ id: 'a', position: { x: 15.2, y: 10 } }] *)
Definition item_a : plain_item :=
  mk_plain (Some [97%Z]) (Some (Num 15.2, Num 10)).

(** [{ id: 'a' }], an update of [item_a] that lost its position. *)
Definition item_a_lost : plain_item := mk_plain (Some [97%Z]) None.

(** [{ position: { x: 1, y: 1 } }], an item without id. *)
Definition item_anonymous : plain_item :=
  mk_plain None (Some (Num 1, Num 1)).

(** [{ id: 'b', position: { x: 2000, y: 10 } }], beyond the right edge
    of the canvas. *)
Definition item_off_canvas : plain_item :=
  mk_plain (Some [98%Z]) (Some (Num 2000, Num 10)).

(** The index holding [item_off_canvas]. *)
Definition canvas_off : SpatialIndex.t plain_item :=
  snd (SpatialIndex.insert canvas item_off_canvas).

(** The index holding [item_a]. *)
Definition canvas_a : SpatialIndex.t plain_item :=
  snd (SpatialIndex.insert canvas item_a).

(** [query({ x: i, y: 0 }, 0)] for an integer [i], for its effect on the
    cache. *)
Definition query_at (st : SpatialIndex.t plain_item) (i : Z)
  : SpatialIndex.t plain_item :=
  snd (SpatialIndex.query st (Some (Num (IZR i), Num 0)) (Num 0)).

(** What a valid query does to the cache of an index without items: the
    key is touched when cached, and stored with an empty result when
    not. *)
Definition record_query (st : SpatialIndex.t plain_item)
  (k : SpatialIndex.cache_key) : SpatialIndex.t plain_item :=
  match JSMap.get (SpatialIndex.queryCache st) k with
  | Some _ => SpatialIndex.updateCacheAccess st k
  | None => SpatialIndex.addToCache st k []
  end.

(** 51 queries with distinct keys, [cleanup()], then 101 queries with
    fresh keys. *)
Definition cache_overflow_run : SpatialIndex.t plain_item :=
  fold_left query_at (SpatialIndex.zrange 101 201)
    (SpatialIndex.cleanup
      (fold_left query_at (SpatialIndex.zrange 1 51) canvas)).

(** The letter [a] as a word and as the [char] of a node. *)
Definition word_a : jsstring := [97%Z].

(** The semantic field after [addSemanticConnection('a', 'a', 1)]: the
    pair of a word with itself, at the similarity of two equal vectors. *)
Definition field_a_a : SemanticField.t :=
  SemanticField.addSemanticConnection SemanticField.new word_a word_a 1.

(** 2002 one-letter words with the code units 1000 to 3001, and the
    bigram that starts at the [i]-th of them. *)
Definition burst_word (i : nat) : jsstring := [(1000 + Z.of_nat i)%Z].

Definition burst_bigram (i : nat) : jsstring :=
  SemanticField.bigram_key (burst_word i) (burst_word (S i)).

Definition burst_words : list jsstring := map burst_word (seq 0 2002).

(** The words of [burst_words], separated by spaces. *)
Definition burst_text : jsstring :=
  flat_map (fun w => w ++ [32%Z]) burst_words.

(** The text [abcdef]. *)
Definition text_abcdef : jsstring := [97; 98; 99; 100; 101; 102]%Z.

(** The seed that [initialize] places for this text when its random
    draws are 0, 0.5 and 0.5: at [(500, 300)], heading along the x
    axis. *)
Definition seed_0 : OrganicLayout.node :=
  OrganicLayout.mk_node (OrganicLayout.node_id 0) [97%Z] (500, 300) (1, 0)
    100 0 0 None.

(** The engine of [new OrganicLayout('abcdef', 800, 600)] after
    [initialize()] with these draws and [start()]. *)
Definition engine_one_seed : OrganicLayout.t :=
  OrganicLayout.mk text_abcdef 800 600 [seed_0] [] [seed_0] 0 true 1000 2000
    (SpatialIndex.mk 800 600 50 16 12 [((10, 6)%Z, [seed_0])] 1 [] 100 [])
    (SemanticField.mk [] [] [] 500 1000 2000 1)
    OrganicLayout.default_params.

(** A tick in which the random draw of [applyCurvature] is 0.5, which
    leaves the direction unbent, and the draw of the branching test is
    0. *)
Definition first_tick : OrganicLayout.tick_env :=
  OrganicLayout.mk_tick_env
    (fun _ => OrganicLayout.mk_node_draws 0.5 0) None.

(** An engine above its cap of 1000 nodes: [node_0] to [node_999] at
    the origin, and [node_1000] at [(500, 300)], which is also the one
    entry of the growth queue. *)
Definition crowded_last : OrganicLayout.node :=
  OrganicLayout.mk_node (OrganicLayout.node_id 1000) [97%Z] (500, 300) (1, 0)
    100 0 0 None.

Definition engine_crowded : OrganicLayout.t :=
  OrganicLayout.mk text_abcdef 800 600
    (map (fun i => OrganicLayout.mk_node (OrganicLayout.node_id i) [97%Z]
          (0, 0) (1, 0) 100 0 0 None) (seq 0 1000)
     ++ [crowded_last])
    [] [crowded_last] 0 true 1000 2000
    (SpatialIndex.mk 800 600 50 16 12 [] 0 [] 100 [])
    (SemanticField.mk [] [] [] 500 1000 2000 1)
    OrganicLayout.default_params.
(** A semantic field whose collocation table has room for two entries
    and holds two: [a_b] at 0.3 and [b_a] at 0.5. *)
Definition field_two_bigrams : SemanticField.t :=
  SemanticField.mk []
    [(SemanticField.bigram_key [97%Z] [98%Z], 0.3);
     (SemanticField.bigram_key [98%Z] [97%Z], 0.5)]
    [] 500 1000 2 0.

(** The random draws of [initialize] that place [seed_0]. *)
Definition centre_draws : nat -> OrganicLayout.seed_draws :=
  fun _ => OrganicLayout.mk_seed_draws 0 0.5 0.5.

End Scenarios.

(* ================================================================== *)
(** * Part II. Properties                                              *)
(* ================================================================== *)

Unset Implicit Arguments.

(** ** Numbers *)

Module JSMathFacts.
Import JSMath.
Open Scope R_scope.

Lemma floor_spec (x : R) : IZR (floor x) <= x < IZR (floor x) + 1.
Proof.
  unfold floor. destruct (base_Int_part x) as [Hle Hgt]. split; lra.
Qed.

Lemma floor_unique (x : R) (z : Z) : IZR z <= x < IZR z + 1 -> floor x = z.
Proof.
  intros [Hlo Hhi]. destruct (floor_spec x) as [Flo Fhi].
  assert (H1 : (floor x < z + 1)%Z).
  { apply lt_IZR. rewrite plus_IZR. simpl. lra. }
  assert (H2 : (z < floor x + 1)%Z).
  { apply lt_IZR. rewrite plus_IZR. simpl. lra. }
  lia.
Qed.

Lemma floor_ge (x : R) (z : Z) : IZR z <= x -> (z <= floor x)%Z.
Proof.
  intros Hz. destruct (floor_spec x) as [_ Fhi].
  assert (H1 : (z < floor x + 1)%Z).
  { apply lt_IZR. rewrite plus_IZR. simpl. lra. }
  lia.
Qed.

Lemma floor_lt (x : R) (z : Z) : x < IZR z -> (floor x < z)%Z.
Proof.
  intros Hz. destruct (floor_spec x) as [Flo _].
  apply lt_IZR. lra.
Qed.

Lemma ceil_spec (x : R) : IZR (ceil x) - 1 < x <= IZR (ceil x).
Proof.
  unfold ceil. destruct (base_Int_part (- x)) as [Hle Hgt].
  rewrite opp_IZR. split; lra.
Qed.

Lemma ceil_unique (x : R) (z : Z) : IZR z - 1 < x <= IZR z -> ceil x = z.
Proof.
  intros [Hlo Hhi]. unfold ceil.
  assert (E : Int_part (- x)%R = (- z)%Z).
  { apply (floor_unique (- x) (- z)). rewrite opp_IZR. split; lra. }
  rewrite E. lia.
Qed.

Lemma round_unique (x : R) (z : Z) :
  IZR z - / 2 <= x < IZR z + / 2 -> round x = z.
Proof.
  intros [Hlo Hhi]. unfold round.
  apply (floor_unique (x + / 2) z). split; lra.
Qed.

Lemma round_IZR (z : Z) : round (IZR z) = z.
Proof. apply round_unique. split; lra. Qed.

Lemma leb_true (a b : R) : leb a b = true <-> a <= b.
Proof. unfold leb. destruct (Rle_dec a b); split; intros; auto; discriminate. Qed.

Lemma leb_false (a b : R) : leb a b = false <-> b < a.
Proof.
  unfold leb. destruct (Rle_dec a b); split; intros; auto; try discriminate; lra.
Qed.

Lemma ltb_true (a b : R) : ltb a b = true <-> a < b.
Proof. unfold ltb. destruct (Rlt_dec a b); split; intros; auto; discriminate. Qed.

Lemma ltb_false (a b : R) : ltb a b = false <-> b <= a.
Proof.
  unfold ltb. destruct (Rlt_dec a b); split; intros; auto; try discriminate; lra.
Qed.

Lemma or_default_0 (x : R) : or_default x 0 = x.
Proof. unfold or_default. destruct (Req_dec_T x 0); congruence. Qed.

Lemma or_default_zero (d : R) : or_default 0 d = d.
Proof.
  unfold or_default. destruct (Req_dec_T 0 0) as [_|Hn];
    [reflexivity|contradiction Hn; reflexivity].
Qed.

Lemma or_default_nonzero (x d : R) : x <> 0 -> or_default x d = x.
Proof.
  intros Hx. unfold or_default.
  destruct (Req_dec_T x 0); [contradiction|reflexivity].
Qed.

Lemma num_or_nonzero (r d : R) : r <> 0 -> num_or (Num r) d = r.
Proof.
  intros Hr. unfold num_or.
  destruct (Req_dec_T r 0); [contradiction|reflexivity].
Qed.

Lemma Rmax_Rmin_bounds (lo hi x : R) :
  lo <= hi -> lo <= Rmax lo (Rmin hi x) <= hi.
Proof.
  intros Hb. unfold Rmax, Rmin.
  destruct (Rle_dec hi x); destruct (Rle_dec lo hi); destruct (Rle_dec lo x);
    split; lra.
Qed.

(** [sqrt (dx^2 + dy^2) <= r] bounds each coordinate difference. *)
Lemma clamp_fixed (lo hi x : R) : lo <= x <= hi -> Rmax lo (Rmin hi x) = x.
Proof.
  intros [Hlo Hhi]. rewrite Rmin_right by exact Hhi. apply Rmax_right. exact Hlo.
Qed.

Lemma clamp_idempotent (lo hi x : R) :
  lo <= hi -> Rmax lo (Rmin hi (Rmax lo (Rmin hi x))) = Rmax lo (Rmin hi x).
Proof. intros Hb. apply clamp_fixed. apply Rmax_Rmin_bounds. exact Hb. Qed.

Lemma clamp_above (lo hi x : R) :
  lo <= hi -> hi <= x -> Rmax lo (Rmin hi x) = hi.
Proof.
  intros Hb Hx. rewrite Rmin_left by exact Hx. apply Rmax_right. exact Hb.
Qed.

Lemma sqrt_sum_le_l (dx dy r : R) :
  sqrt (dx * dx + dy * dy) <= r -> - r <= dx <= r.
Proof.
  intros Hs.
  assert (Hn : 0 <= dx * dx + dy * dy) by nra.
  assert (H0 : 0 <= sqrt (dx * dx + dy * dy)) by apply sqrt_pos.
  assert (Hsq : sqrt (dx * dx + dy * dy) * sqrt (dx * dx + dy * dy)
          = dx * dx + dy * dy) by (apply sqrt_sqrt; exact Hn).
  split; nra.
Qed.

Lemma sqrt_sum_le_r (dx dy r : R) :
  sqrt (dx * dx + dy * dy) <= r -> - r <= dy <= r.
Proof.
  intros Hs. apply (sqrt_sum_le_l dy dx).
  replace (dy * dy + dx * dx) with (dx * dx + dy * dy) by ring. exact Hs.
Qed.

(** Comparing a distance with a non-negative bound, through squares. *)
Lemma sqrt_le_iff (a r : R) : 0 <= a -> 0 <= r -> (sqrt a <= r <-> a <= r * r).
Proof.
  intros Ha Hr.
  assert (H0 : 0 <= sqrt a) by apply sqrt_pos.
  assert (Hsq : sqrt a * sqrt a = a) by (apply sqrt_sqrt; exact Ha).
  split; intros Hle; nra.
Qed.

Lemma sqrt_lt_iff (a r : R) : 0 <= a -> 0 <= r -> (sqrt a < r <-> a < r * r).
Proof.
  intros Ha Hr.
  assert (H0 : 0 <= sqrt a) by apply sqrt_pos.
  assert (Hsq : sqrt a * sqrt a = a) by (apply sqrt_sqrt; exact Ha).
  split; intros Hle; nra.
Qed.
End JSMathFacts.

(** ** Insertion-ordered maps *)

Module JSMapFacts.
Section Facts.
Context {K V : Type} `{EqDec K}.
Implicit Types (m : JSMap.t K V) (k : K) (v : V).

Lemma get_set_eq m k v : JSMap.get (JSMap.set m k v) k = Some v.
Proof.
  induction m as [|[k' v'] m IH]; simpl.
  - destruct (eq_dec k k); congruence.
  - destruct (eq_dec k k') as [->|Hn]; simpl.
    + destruct (eq_dec k' k'); congruence.
    + destruct (eq_dec k k'); [congruence|exact IH].
Qed.

Lemma get_set_neq m k k' v :
  k <> k' -> JSMap.get (JSMap.set m k v) k' = JSMap.get m k'.
Proof.
  intros Hne. induction m as [|[k0 v0] m IH]; simpl.
  - destruct (eq_dec k' k); congruence.
  - destruct (eq_dec k k0) as [->|Hn]; simpl.
    + destruct (eq_dec k' k0); congruence.
    + destruct (eq_dec k' k0); [reflexivity|exact IH].
Qed.

Lemma get_delete m k k' v :
  JSMap.get (JSMap.delete m k) k' = Some v -> JSMap.get m k' = Some v.
Proof.
  induction m as [|[k0 v0] m IH]; simpl; [discriminate|].
  destruct (eq_dec k k0) as [->|Hn]; simpl.
  - intros Hg. destruct (eq_dec k' k0) as [->|Hn'].
    + exfalso. clear IH. induction m as [|[k1 v1] m IHm]; simpl in Hg;
        [discriminate|].
      destruct (eq_dec k0 k1) as [->|Hn1]; [auto|].
      simpl in Hg. destruct (eq_dec k0 k1); [congruence|auto].
    + auto.
  - destruct (eq_dec k' k0); auto.
Qed.

Lemma get_None_not_In m k : ~ In k (JSMap.keys m) -> JSMap.get m k = None.
Proof.
  induction m as [|[k0 v0] m IH]; simpl; [reflexivity|].
  intros Hni. destruct (eq_dec k k0) as [->|Hn]; [exfalso; auto|].
  apply IH. intros Hin. apply Hni. right. exact Hin.
Qed.

Lemma get_In m k v : JSMap.get m k = Some v -> In (k, v) m.
Proof.
  induction m as [|[k0 v0] m IH]; simpl; [discriminate|].
  destruct (eq_dec k k0) as [->|Hn].
  - intros [= ->]. left; reflexivity.
  - intros Hg. right. auto.
Qed.

Lemma In_get m k v :
  NoDup (JSMap.keys m) -> In (k, v) m -> JSMap.get m k = Some v.
Proof.
  induction m as [|[k0 v0] m IH]; simpl; [contradiction|].
  intros Hnd Hin. inversion Hnd as [|? ? Hni Hnd']; subst.
  destruct Hin as [[= -> ->]|Hin].
  - destruct (eq_dec k k); congruence.
  - destruct (eq_dec k k0) as [->|Hn]; [|auto].
    exfalso. apply Hni. apply (in_map fst) in Hin. exact Hin.
Qed.


Lemma In_set m k v k' v' :
  In (k', v') (JSMap.set m k v) -> (k' = k /\ v' = v) \/ In (k', v') m.
Proof.
  induction m as [|[k0 v0] m IH]; simpl.
  - intros [[= <- <-]|[]]. left; auto.
  - destruct (eq_dec k k0) as [->|Hn]; simpl.
    + intros [[= <- <-]|Hin]; [left; auto|right; right; exact Hin].
    + intros [Heq|Hin]; [right; left; exact Heq|].
      destruct (IH Hin) as [?|?]; [left; assumption|right; right; assumption].
Qed.

Lemma In_keys_set m k v k' :
  In k' (JSMap.keys (JSMap.set m k v)) <-> k' = k \/ In k' (JSMap.keys m).
Proof.
  induction m as [|[k0 v0] m IH]; simpl.
  - intuition.
  - destruct (eq_dec k k0) as [->|Hn]; simpl.
    + intuition.
    + rewrite IH. intuition.
Qed.

Lemma NoDup_keys_set m k v :
  NoDup (JSMap.keys m) -> NoDup (JSMap.keys (JSMap.set m k v)).
Proof.
  induction m as [|[k0 v0] m IH]; simpl; intros Hnd.
  - constructor; [intros []|constructor].
  - inversion Hnd as [|? ? Hni Hnd']; subst.
    destruct (eq_dec k k0) as [->|Hn]; simpl.
    + constructor; assumption.
    + constructor; [|auto].
      rewrite In_keys_set. intros [->|Hin]; [congruence|contradiction].
Qed.

Lemma In_delete m k kv : In kv (JSMap.delete m k) -> In kv m.
Proof.
  induction m as [|[k0 v0] m IH]; simpl; [auto|].
  destruct (eq_dec k k0); simpl; intuition.
Qed.

Lemma size_set_le m k v :
  (JSMap.size (JSMap.set m k v) <= S (JSMap.size m))%nat.
Proof.
  unfold JSMap.size. induction m as [|[k0 v0] m IH]; simpl; [lia|].
  destruct (eq_dec k k0); simpl; lia.
Qed.

Lemma size_set_has m k v :
  JSMap.has m k = true -> JSMap.size (JSMap.set m k v) = JSMap.size m.
Proof.
  unfold JSMap.size, JSMap.has.
  induction m as [|[k0 v0] m IH]; simpl; [discriminate|].
  destruct (eq_dec k k0); simpl; [reflexivity|].
  intros Hg. rewrite IH; auto.
Qed.

Lemma size_set_new m k v :
  JSMap.get m k = None -> JSMap.size (JSMap.set m k v) = S (JSMap.size m).
Proof.
  unfold JSMap.size.
  induction m as [|[k0 v0] m IH]; simpl; [reflexivity|].
  destruct (eq_dec k k0); simpl; [discriminate|].
  intros Hg. rewrite IH; auto.
Qed.
End Facts.
End JSMapFacts.

(** ** SpatialIndex *)

Module SpatialIndexFacts.
Import JSMath JSMathFacts JSMapFacts SpatialIndex.
Open Scope R_scope.

Section Facts.
Context {T : Type} `{Indexable T}.
Implicit Types (st : SpatialIndex.t T) (it : T).

Lemma within_true x y r it :
  within x y r it = true <-> within_radius x y r it.
Proof.
  unfold within, within_radius.
  destruct (item_position it) as [[[|ix] [|iy]]|].
  all: try (split; [discriminate|intros (? & ? & [=] & _)]).
  rewrite leb_true. split.
  - intros Hle. exists ix, iy. auto.
  - intros (ix' & iy' & [= <- <-] & Hle). exact Hle.
Qed.

Lemma performQuery_same_grid st st' x y r :
  same_grid st st' -> performQuery st x y r = performQuery st' x y r.
Proof.
  intros (Hc & Hw & Hh & Hg). unfold performQuery.
  rewrite Hc, Hw, Hh.
  apply flat_map_ext. intros gx. apply flat_map_ext. intros gy.
  specialize (Hg (gx, gy)). unfold items_at in Hg.
  destruct (JSMap.get (grid st) (gx, gy)), (JSMap.get (grid st') (gx, gy));
    subst; reflexivity.
Qed.

Lemma same_grid_refl st : same_grid st st.
Proof. repeat split; reflexivity. Qed.

Lemma same_grid_with_cache st q o : same_grid st (with_cache st q o).
Proof. repeat split; reflexivity. Qed.

Lemma cache_ok_same_grid st st' :
  same_grid st st' -> queryCache st' = queryCache st ->
  cache_ok st -> cache_ok st'.
Proof.
  intros Hs Hq Hc k v Hg. rewrite Hq in Hg.
  destruct (Hc k v Hg) as (x & y & r & Hr & Hk & ->).
  exists x, y, r. repeat split; auto.
  apply performQuery_same_grid. exact Hs.
Qed.

Lemma wf_new w h cs : wf (new w h cs).
Proof.
  unfold wf, dims_ok, cells_ok, count_ok, cache_ok, new; simpl.
  repeat split.
  - assert (Hm := Rmax_l 1 (num_or cs 50)). lra.
  - constructor.
  - intros k items [].
  - discriminate.
Qed.

(** *** Counting the items *)

Lemma total_set_has (g : JSMap.t cell (list T)) k (items v : list T) :
  JSMap.get g k = Some items ->
  (total (JSMap.set g k v) + length items = total g + length v)%nat.
Proof.
  unfold total. induction g as [|[k0 items0] g IH]; simpl; [discriminate|].
  destruct (eq_dec k k0) as [->|Hn]; simpl.
  - intros [= ->]. rewrite !length_app. lia.
  - intros Hg. specialize (IH Hg). rewrite !length_app. lia.
Qed.

Lemma total_set_new (g : JSMap.t cell (list T)) k (v : list T) :
  JSMap.get g k = None -> total (JSMap.set g k v) = (total g + length v)%nat.
Proof.
  unfold total. induction g as [|[k0 items0] g IH]; simpl.
  - intros _. rewrite app_nil_r. reflexivity.
  - destruct (eq_dec k k0) as [->|Hn]; simpl; [discriminate|].
    intros Hg. rewrite !length_app, (IH Hg). lia.
Qed.

Lemma total_filter_nonempty (g : JSMap.t cell (list T)) :
  total (filter (fun kv => negb (Nat.eqb (length (snd kv)) 0)) g) = total g.
Proof.
  unfold total. induction g as [|[k0 items0] g IH]; simpl; [reflexivity|].
  destruct items0 as [|a items0]; simpl; [exact IH|].
  rewrite !length_app, IH. reflexivity.
Qed.

Lemma filter_partition_length {A} (f : A -> bool) (l : list A) :
  (length (filter f l) + length (filter (fun a => negb (f a)) l)
     = length l)%nat.
Proof.
  induction l as [|a l IH]; simpl; [reflexivity|].
  destruct (f a); simpl; lia.
Qed.

Lemma iter_decrement (n : nat) (c : Z) :
  (Z.of_nat n <= c)%Z ->
  Nat.iter n (fun c => Z.max 0 (c - 1)) c = (c - Z.of_nat n)%Z.
Proof.
  induction n as [|n IH]; intros Hn; simpl Nat.iter; [lia|].
  rewrite IH by lia. lia.
Qed.

(** *** [remove] *)

Lemma remove_cells_In id g k items' :
  In (k, items') (remove_cells id g) ->
  exists items, In (k, items) g /\ incl items' items.
Proof.
  induction g as [|[k0 items0] g IH]; simpl; [intros []|].
  destruct (_ <? _)%nat eqn:Hlt.
  - destruct (filter _ items0) as [|a l] eqn:Hf.
    + intros Hin. destruct (IH Hin) as (items & Hi & Hincl).
      exists items. auto.
    + intros [[= <- <-]|Hin].
      * exists items0. split; [left; reflexivity|].
        rewrite <- Hf. intros x Hx. apply filter_In in Hx. tauto.
      * destruct (IH Hin) as (items & Hi & Hincl). exists items. auto.
  - intros [[= <- <-]|Hin].
    + exists items0. split; [left; reflexivity|apply incl_refl].
    + destruct (IH Hin) as (items & Hi & Hincl). exists items. auto.
Qed.

Lemma remove_cells_keys id g k :
  In k (JSMap.keys (remove_cells id g)) -> In k (JSMap.keys g).
Proof.
  unfold JSMap.keys. intros Hin. apply in_map_iff in Hin.
  destruct Hin as ([k' items'] & <- & Hin).
  destruct (remove_cells_In _ _ _ _ Hin) as (items & Hi & _).
  apply (in_map fst) in Hi. exact Hi.
Qed.

Lemma remove_cells_NoDup id g :
  NoDup (JSMap.keys g) -> NoDup (JSMap.keys (remove_cells id g)).
Proof.
  induction g as [|[k0 items0] g IH]; simpl; intros Hnd; [constructor|].
  inversion Hnd as [|? ? Hni Hnd']; subst.
  assert (Hni' : ~ In k0 (JSMap.keys (remove_cells id g))).
  { intros Hin. apply Hni. eapply remove_cells_keys; eauto. }
  destruct (_ <? _)%nat.
  - destruct (filter _ items0); [auto|].
    simpl. constructor; auto.
  - simpl. constructor; auto.
Qed.

Lemma filter_length_eq {A} (f : A -> bool) (l : list A) :
  length (filter f l) = length l -> filter f l = l.
Proof.
  induction l as [|a l IH]; simpl; [reflexivity|].
  destruct (f a); simpl; intros Hl.
  - f_equal. apply IH. lia.
  - assert (Hle := filter_length_le f l). lia.
Qed.

(** The items that [remove] leaves are those with another id. *)
Lemma remove_cells_items id g :
  concat (JSMap.values (remove_cells id g))
    = filter (fun it => negb (has_id id it)) (concat (JSMap.values g)).
Proof.
  induction g as [|[k0 items0] g IH]; simpl; [reflexivity|].
  rewrite filter_app, <- IH.
  destruct (_ <? _)%nat eqn:Hlt.
  - destruct (filter _ items0) as [|a l] eqn:Hf; simpl; reflexivity.
  - simpl. f_equal. symmetry. apply filter_length_eq.
    apply Nat.ltb_ge in Hlt.
    assert (Hle := filter_length_le (fun it => negb (has_id id it)) items0).
    lia.
Qed.

Lemma remove_cells_none id g :
  removed_count id g = 0%nat -> remove_cells id g = g.
Proof.
  unfold removed_count.
  induction g as [|[k0 items0] g IH]; simpl; [reflexivity|].
  rewrite filter_app, length_app. intros Hz.
  assert (Hf : filter (fun it => negb (has_id id it)) items0 = items0).
  { assert (Hl : length (filter (has_id id) items0) = 0%nat) by lia.
    apply length_zero_iff_nil in Hl.
    clear - Hl. induction items0 as [|a l IHl]; simpl in *; [reflexivity|].
    destruct (has_id id a); simpl; [discriminate|]. f_equal. auto. }
  rewrite Hf, Nat.ltb_irrefl. f_equal. apply IH. lia.
Qed.

Lemma getGridKey_same st st' x y :
  cellSize st = cellSize st' -> gridWidth st = gridWidth st' ->
  gridHeight st = gridHeight st' ->
  getGridKey st x y = getGridKey st' x y.
Proof. intros Hc Hw Hh. unfold getGridKey. rewrite Hc, Hw, Hh. reflexivity. Qed.

Lemma with_same st : with_grid st (grid st) (itemCount st) = st.
Proof. destruct st; reflexivity. Qed.

Lemma wf_remove st id : wf st -> wf (snd (remove st id)).
Proof.
  intros Hwf. assert (Hwf' := Hwf). destruct Hwf' as (Hd & Hn & Hc & Hk & Hq).
  unfold remove.
  destruct id as [s|]; [|exact Hwf].
  destruct (truthy_id (Some s)); [|exact Hwf].
  destruct (0 <? _)%nat eqn:Hpos; simpl.
  - split; [exact Hd|]. split; [apply remove_cells_NoDup; exact Hn|].
    split; [|split].
    + intros k items' Hin it Hit. simpl in Hin.
      destruct (remove_cells_In _ _ _ _ Hin) as (items & Hi & Hincl).
      destruct (Hc k items Hi it (Hincl _ Hit)) as (x & y & Hp & Hkey).
      exists x, y. split; [exact Hp|exact Hkey].
    + unfold count_ok, all_items in *. simpl.
      rewrite remove_cells_items. unfold removed_count.
      assert (Hp := filter_partition_length (has_id s)
              (concat (JSMap.values (grid st)))).
      rewrite iter_decrement by lia. lia.
    + intros k v. simpl. discriminate.
  - apply Nat.ltb_ge in Hpos.
    assert (Hz : removed_count s (grid st) = 0%nat) by lia.
    rewrite Hz, (remove_cells_none _ _ Hz). simpl.
    rewrite with_same. exact Hwf.
Qed.

(** *** [insert] *)

Lemma wf_insert st item : wf st -> wf (snd (insert st item)).
Proof.
  intros Hwf. unfold insert.
  destruct (item_position item) as [[[|x] [|y]]|] eqn:Hpos; try exact Hwf.
  set (st1 := if truthy_id (item_id item) then _ else st).
  assert (Hwf1 : wf st1).
  { subst st1. destruct (truthy_id (item_id item)); [|exact Hwf].
    destruct (findItemById st (item_id item)); [|exact Hwf].
    apply wf_remove. exact Hwf. }
  clearbody st1. destruct Hwf1 as (Hd & Hn & Hc & Hk & Hq).
  set (key := getGridKey st1 (Num x) (Num y)).
  set (g1 := if JSMap.has (grid st1) key then grid st1 else _).
  assert (Hg1 : NoDup (JSMap.keys g1)
          /\ (forall k its, In (k, its) g1 ->
              In (k, its) (grid st1) \/ its = [])
          /\ total g1 = total (grid st1)
          /\ exists items, JSMap.get g1 key = Some items).
  { subst g1. unfold JSMap.has.
    destruct (JSMap.get (grid st1) key) as [items|] eqn:Hg.
    - split; [exact Hn|]. split; [auto|]. split; [reflexivity|].
      exists items. exact Hg.
    - split; [apply NoDup_keys_set; exact Hn|]. split; [|split].
      + intros k its Hin. apply In_set in Hin. destruct Hin as [[_ ->]|Hin]; auto.
      + rewrite (total_set_new _ _ _ Hg). simpl. lia.
      + exists []. apply get_set_eq. }
  clearbody g1. destruct Hg1 as (Hn1 & Hin1 & Htot & items & Hitems).
  rewrite Hitems. simpl.
  split; [exact Hd|]. split; [apply NoDup_keys_set; exact Hn1|].
  split; [|split; [|intros k v; simpl; discriminate]].
  2:{ unfold count_ok, all_items in *. simpl.
      assert (Ht := total_set_has g1 key items (items ++ [item]) Hitems).
      unfold total in *. rewrite length_app in Ht. simpl in Ht. lia. }
  intros k its Hin it Hit. simpl in Hin.
  apply In_set in Hin. destruct Hin as [[-> ->]|Hin].
  - apply in_app_or in Hit. destruct Hit as [Hit|Hit].
    + apply get_In in Hitems. destruct (Hin1 _ _ Hitems) as [Hg|Hnil].
      * exact (Hc _ _ Hg _ Hit).
      * subst items. destruct Hit.
    + destruct Hit as [Hit|Hit]; [subst it|destruct Hit].
      exists x, y. split; [exact Hpos|reflexivity].
  - destruct (Hin1 _ _ Hin) as [Hg|Hnil].
    + exact (Hc _ _ Hg _ Hit).
    + subst its. destruct Hit.
Qed.

Lemma wf_update st item : wf st -> wf (snd (update st item)).
Proof.
  intros Hwf. unfold update. destruct (truthy_id (item_id item)); [|exact Hwf].
  apply wf_insert, wf_remove, Hwf.
Qed.

Lemma wf_clear st : wf st -> wf (clear st).
Proof.
  intros (Hd & _). unfold clear. split; [exact Hd|].
  split; [constructor|]. split; [intros k items []|].
  split; [reflexivity|intros k v; discriminate].
Qed.

(** *** [query] *)

Lemma wf_with_cache st q o :
  wf st ->
  (forall k v, JSMap.get q k = Some v ->
   exists x y r, 0 <= r /\ cacheKey x y r = k /\ v = performQuery st x y r) ->
  wf (with_cache st q o).
Proof.
  intros (Hd & Hn & Hc & Hk & _) Hq. split; [exact Hd|]. split; [exact Hn|].
  split; [exact Hc|]. split; [exact Hk|exact Hq].
Qed.

Lemma wf_addToCache st x y r :
  wf st -> 0 <= r ->
  wf (addToCache st (cacheKey x y r) (performQuery st x y r)).
Proof.
  intros Hwf Hr. unfold addToCache.
  set (st1 := if (_ <=? _)%nat then _ else st).
  assert (H1 : wf st1 /\ same_grid st st1).
  { subst st1. destruct (_ <=? _)%nat; [|split; [exact Hwf|apply same_grid_refl]].
    destruct (cacheAccessOrder st) as [|oldest rest];
      [split; [exact Hwf|apply same_grid_refl]|].
    split; [|apply same_grid_with_cache].
    apply wf_with_cache; [exact Hwf|].
    intros k v Hg. apply get_delete in Hg.
    destruct Hwf as (_ & _ & _ & _ & Hq). exact (Hq k v Hg). }
  clearbody st1. destruct H1 as (Hwf1 & Hs).
  apply wf_with_cache; [exact Hwf1|].
  intros k v Hg.
  destruct (eq_dec (cacheKey x y r) k) as [<-|Hne].
  - rewrite get_set_eq in Hg. injection Hg as <-.
    exists x, y, r. repeat split; auto.
    apply performQuery_same_grid. exact Hs.
  - rewrite get_set_neq in Hg by exact Hne.
    destruct Hwf1 as (_ & _ & _ & _ & Hq). exact (Hq k v Hg).
Qed.

Lemma wf_query st p r : wf st -> wf (snd (query st p r)).
Proof.
  intros Hwf. unfold query.
  destruct p as [[[|x] [|y]]|]; try exact Hwf.
  destruct r as [|r]; [exact Hwf|].
  destruct (ltb r 0) eqn:Hneg; [exact Hwf|].
  apply ltb_false in Hneg.
  destruct (JSMap.get (queryCache st) (cacheKey x y r)) eqn:Hg; simpl.
  - apply wf_with_cache; [exact Hwf|].
    destruct Hwf as (_ & _ & _ & _ & Hq). exact Hq.
  - apply wf_addToCache; assumption.
Qed.

Lemma wf_findNearest_loop radii :
  forall st x y nearest minDistance,
    wf st -> wf (snd (findNearest_loop st x y radii nearest minDistance)).
Proof.
  induction radii as [|radius rest IH]; intros st x y nearest minDistance Hwf;
    cbn [findNearest_loop]; [exact Hwf|].
  destruct (ltb minDistance radius); [exact Hwf|].
  assert (Hq := wf_query st (Some (x, y)) (Num radius) Hwf).
  destruct (query st (Some (x, y)) (Num radius)) as [candidates st'].
  destruct (fold_left (nearest_step x y) candidates (nearest, minDistance))
    as [[found|] minDistance']; [exact Hq|].
  apply IH. exact Hq.
Qed.

Lemma wf_findNearest st p maxDistance :
  wf st -> wf (snd (findNearest st p maxDistance)).
Proof.
  intros Hwf. unfold findNearest. destruct p as [[x y]|]; [|exact Hwf].
  apply wf_findNearest_loop. exact Hwf.
Qed.

(** *** [cleanup] *)

Lemma NoDup_keys_filter (f : cell * list T -> bool) (g : JSMap.t cell (list T)) :
  NoDup (JSMap.keys g) -> NoDup (JSMap.keys (filter f g)).
Proof.
  induction g as [|[k items] g IH]; simpl; intros Hnd; [constructor|].
  inversion Hnd as [|? ? Hni Hnd']; subst.
  destruct (f (k, items)); simpl; [|auto].
  constructor; [|auto].
  intros Hin. apply Hni. unfold JSMap.keys in *.
  apply in_map_iff in Hin. destruct Hin as (kv & <- & Hin).
  apply filter_In in Hin. apply in_map. tauto.
Qed.

Lemma items_at_filter_nonempty (g : JSMap.t cell (list T)) k :
  NoDup (JSMap.keys g) ->
  items_at (filter (fun kv => negb (Nat.eqb (length (snd kv)) 0)) g) k
    = items_at g k.
Proof.
  intros Hnd. unfold items_at.
  set (f := fun kv : cell * list T => negb (Nat.eqb (length (snd kv)) 0)).
  destruct (JSMap.get g k) as [items|] eqn:Hg.
  - apply get_In in Hg.
    destruct items as [|a items].
    + destruct (JSMap.get (filter f g) k) as [items'|] eqn:Hg'; [|reflexivity].
      apply get_In, filter_In in Hg'. destruct Hg' as [Hin Hf].
      apply (In_get _ _ _ Hnd) in Hin.
      apply (In_get _ _ _ Hnd) in Hg. congruence.
    + assert (Hin : In (k, a :: items) (filter f g)).
      { apply filter_In. split; [exact Hg|reflexivity]. }
      apply In_get in Hin; [|apply NoDup_keys_filter; exact Hnd].
      rewrite Hin. reflexivity.
  - destruct (JSMap.get (filter f g) k) as [items'|] eqn:Hg'; [|reflexivity].
    apply get_In, filter_In in Hg'. destruct Hg' as [Hin _].
    apply (In_get _ _ _ Hnd) in Hin. congruence.
Qed.

Lemma wf_cleanup st : wf st -> wf (cleanup st).
Proof.
  intros (Hd & Hn & Hc & Hk & Hq). unfold cleanup.
  set (g := filter _ (grid st)).
  assert (Hs : same_grid st (with_grid st g (itemCount st))).
  { split; [reflexivity|]. split; [reflexivity|]. split; [reflexivity|].
    intros k. simpl. symmetry. apply items_at_filter_nonempty. exact Hn. }
  assert (Hwf1 : wf (with_grid st g (itemCount st))).
  { split; [exact Hd|]. split; [apply NoDup_keys_filter; exact Hn|].
    split; [|split].
    - intros k items Hin it Hit. simpl in Hin. subst g.
      apply filter_In in Hin. destruct Hin as [Hin _].
      exact (Hc k items Hin it Hit).
    - unfold count_ok, all_items in *. simpl. subst g.
      fold (total (filter (fun kv : cell * list T =>
                           negb (Nat.eqb (length (snd kv)) 0)) (grid st))).
      rewrite total_filter_nonempty. exact Hk.
    - apply (cache_ok_same_grid st); [exact Hs|reflexivity|exact Hq]. }
  destruct (_ <? _)%nat; [|exact Hwf1].
  apply wf_with_cache; [exact Hwf1|]. intros k v; discriminate.
Qed.

(** *** What [performQuery] returns *)

Lemma In_zrange lo hi z : In z (zrange lo hi) <-> (lo <= z <= hi)%Z.
Proof.
  unfold zrange. rewrite in_map_iff. split.
  - intros (i & <- & Hi). apply in_seq in Hi. lia.
  - intros Hz. exists (Z.to_nat (z - lo)). split; [lia|].
    apply in_seq. lia.
Qed.

Lemma In_all_items st it :
  In it (all_items st) <-> exists k items, In (k, items) (grid st) /\ In it items.
Proof.
  unfold all_items, JSMap.values. rewrite in_concat. split.
  - intros (items & Hin & Hit). apply in_map_iff in Hin.
    destruct Hin as ([k items'] & <- & Hin). exists k, items'. auto.
  - intros (k & items & Hin & Hit). exists items. split; [|exact Hit].
    apply in_map_iff. exists (k, items). auto.
Qed.

Lemma performQuery_sound st x y r it :
  In it (performQuery st x y r) ->
  In it (all_items st) /\ within_radius x y r it.
Proof.
  unfold performQuery. intros Hin.
  apply in_flat_map in Hin. destruct Hin as (gx & _ & Hin).
  apply in_flat_map in Hin. destruct Hin as (gy & _ & Hin).
  destruct (JSMap.get (grid st) (gx, gy)) as [items|] eqn:Hg; [|destruct Hin].
  apply filter_In in Hin. destruct Hin as [Hit Hw].
  split; [|apply within_true; exact Hw].
  apply In_all_items. exists (gx, gy), items. split; [|exact Hit].
  apply get_In. exact Hg.
Qed.

(** The cell of a point within [r] of the centre of a query lies in the
    scanned range, along one axis. *)
Lemma cell_in_range (cs x ix r : R) :
  0 < cs -> - r <= ix - x <= r ->
  (floor (x / cs) - ceil (r / cs) <= floor (ix / cs)
   <= floor (x / cs) + ceil (r / cs))%Z.
Proof.
  intros Hcs Hd.
  destruct (floor_spec (x / cs)) as [Fx1 Fx2].
  destruct (ceil_spec (r / cs)) as [Cr1 Cr2].
  assert (Hdiv : ix / cs - x / cs = (ix - x) / cs) by (field; lra).
  assert (Hinv : 0 < / cs) by (apply Rinv_0_lt_compat; exact Hcs).
  assert (Hlo : - (r / cs) <= (ix - x) / cs).
  { unfold Rdiv. nra. }
  assert (Hhi : (ix - x) / cs <= r / cs).
  { unfold Rdiv. nra. }
  split.
  - apply floor_ge. rewrite minus_IZR. lra.
  - assert (Hlt : (floor (ix / cs) < floor (x / cs) + ceil (r / cs) + 1)%Z).
    { apply floor_lt. rewrite !plus_IZR. simpl. lra. }
    lia.
Qed.

(** The cell that [Math.floor] gives a point of the canvas is a cell of
    the grid. *)
Lemma cell_on_canvas (cs w ix : R) :
  0 < cs -> 0 <= ix < w ->
  (0 <= floor (ix / cs) <= ceil (w / cs) - 1)%Z.
Proof.
  intros Hcs [Hlo Hhi].
  assert (Hinv : 0 < / cs) by (apply Rinv_0_lt_compat; exact Hcs).
  assert (H0 : (0 <= floor (ix / cs))%Z).
  { apply floor_ge. unfold Rdiv. simpl. nra. }
  assert (H1 : (floor (ix / cs) < ceil (w / cs))%Z).
  { apply floor_lt. destruct (ceil_spec (w / cs)) as [_ Hc].
    unfold Rdiv in *. nra. }
  lia.
Qed.

Lemma performQuery_complete st x y r it :
  wf st -> In it (all_items st) -> on_canvas st it ->
  within_radius x y r it -> In it (performQuery st x y r).
Proof.
  intros ((Hcs & Hgw & Hgh) & Hn & Hc & _ & _) Hin Hcanvas Hw.
  apply In_all_items in Hin. destruct Hin as (k & items & Hk & Hit).
  destruct (Hc k items Hk it Hit) as (ix & iy & Hpos & Hkey).
  destruct Hcanvas as (ix' & iy' & Hpos' & Hx & Hy).
  rewrite Hpos in Hpos'. injection Hpos' as <- <-.
  destruct Hw as (ix' & iy' & Hpos' & Hdist).
  rewrite Hpos in Hpos'. injection Hpos' as <- <-.
  assert (Hdx := sqrt_sum_le_l _ _ _ Hdist).
  assert (Hdy := sqrt_sum_le_r _ _ _ Hdist).
  assert (Hrx := cell_in_range (cellSize st) x ix r Hcs Hdx).
  assert (Hry := cell_in_range (cellSize st) y iy r Hcs Hdy).
  assert (Hbx := cell_on_canvas _ _ _ Hcs Hx). rewrite <- Hgw in Hbx.
  assert (Hby := cell_on_canvas _ _ _ Hcs Hy). rewrite <- Hgh in Hby.
  unfold getGridKey in Hkey.
  replace (Z.max 0 (Z.min (gridWidth st - 1) (floor (ix / cellSize st))))
    with (floor (ix / cellSize st)) in Hkey by lia.
  replace (Z.max 0 (Z.min (gridHeight st - 1) (floor (iy / cellSize st))))
    with (floor (iy / cellSize st)) in Hkey by lia.
  unfold performQuery.
  apply in_flat_map. exists (floor (ix / cellSize st)). split.
  { apply In_zrange. lia. }
  apply in_flat_map. exists (floor (iy / cellSize st)). split.
  { apply In_zrange. lia. }
  rewrite Hkey. rewrite (In_get _ _ _ Hn Hk).
  apply filter_In. split; [exact Hit|].
  apply within_true. exists ix, iy. auto.
Qed.

(** *** Reachable states satisfy the invariant *)

Lemma reachable_wf st : reachable st -> wf st.
Proof.
  induction 1.
  - apply wf_new.
  - apply wf_insert; assumption.
  - apply wf_remove; assumption.
  - apply wf_update; assumption.
  - apply wf_query; assumption.
  - apply wf_findNearest; assumption.
  - apply wf_clear; assumption.
  - apply wf_cleanup; assumption.
Qed.

(** *** The two paths of [query] *)

Lemma query_miss st x y r :
  0 <= r -> JSMap.get (queryCache st) (cacheKey x y r) = None ->
  query st (Some (Num x, Num y)) (Num r)
    = (performQuery st x y r,
       addToCache st (cacheKey x y r) (performQuery st x y r)).
Proof.
  intros Hr Hg. unfold query.
  apply ltb_false in Hr. rewrite Hr, Hg. reflexivity.
Qed.

Lemma query_hit st x y r cached :
  0 <= r -> JSMap.get (queryCache st) (cacheKey x y r) = Some cached ->
  query st (Some (Num x, Num y)) (Num r)
    = (cached, updateCacheAccess st (cacheKey x y r)).
Proof.
  intros Hr Hg. unfold query.
  apply ltb_false in Hr. rewrite Hr, Hg. reflexivity.
Qed.

Lemma addToCache_get st k v :
  JSMap.get (queryCache (addToCache st k v)) k = Some v.
Proof. unfold addToCache. simpl. apply get_set_eq. Qed.

Lemma insert_valid st item x y :
  item_position item = Some (Num x, Num y) ->
  fst (insert st item) = true
  /\ queryCache (snd (insert st item)) = []
  /\ cacheAccessOrder (snd (insert st item)) = [].
Proof.
  intros Hp. unfold insert. rewrite Hp.
  destruct (JSMap.get _ _); simpl; auto.
Qed.

Lemma insert_invalid st item :
  ~ valid_position item -> insert st item = (false, st).
Proof.
  intros Hp. unfold insert.
  destruct (item_position item) as [[[|x] [|y]]|] eqn:E; try reflexivity.
  exfalso. apply Hp. exists x, y. exact E.
Qed.

(** *** Exactness of [query] *)

Lemma performQuery_exact st x y r :
  wf st -> (forall it, In it (all_items st) -> on_canvas st it) ->
  forall it, In it (performQuery st x y r)
  <-> In it (all_items st) /\ within_radius x y r it.
Proof.
  intros Hwf Hcanvas it. split.
  - apply performQuery_sound.
  - intros [Hin Hw]. apply performQuery_complete; auto.
Qed.
(** *** The items after [remove] and [insert] *)

Lemma remove_all_items_incl st id it :
  In it (all_items (snd (remove st id))) -> In it (all_items st).
Proof.
  unfold remove. destruct id as [s|]; [|auto].
  destruct (truthy_id (Some s)); [|auto].
  intros Hin.
  assert (Hin' : In it (concat (JSMap.values (remove_cells s (grid st))))).
  { destruct (0 <? _)%nat; exact Hin. }
  rewrite remove_cells_items in Hin'. apply filter_In in Hin'. apply Hin'.
Qed.

Lemma insert_all_items st item it :
  In it (all_items (snd (insert st item))) -> In it (all_items st) \/ it = item.
Proof.
  unfold insert.
  destruct (item_position item) as [[[|x] [|y]]|]; auto.
  set (st1 := if truthy_id (item_id item) then _ else st).
  assert (H1 : forall a, In a (all_items st1) -> In a (all_items st)).
  { subst st1. destruct (truthy_id (item_id item)); [|auto].
    destruct (findItemById st (item_id item)); [|auto].
    intros a. apply remove_all_items_incl. }
  clearbody st1.
  set (key := getGridKey st1 (Num x) (Num y)).
  set (g1 := if JSMap.has (grid st1) key then grid st1 else _).
  assert (Hg1 : forall k items, In (k, items) g1 ->
          In (k, items) (grid st1) \/ items = []).
  { subst g1. destruct (JSMap.has (grid st1) key); [auto|].
    intros k items Hin. apply In_set in Hin.
    destruct Hin as [[_ ->]|Hin]; auto. }
  clearbody g1. cbn [snd]. intros Hin.
  apply In_all_items in Hin. destruct Hin as (k & items & Hk & Hit).
  cbn [grid clearQueryCache with_cache with_grid] in Hk.
  assert (Hfrom1 : forall k0 items0, In (k0, items0) g1 -> In it items0 ->
          In it (all_items st)).
  { intros k0 items0 Hk0 Hit0. apply H1. apply In_all_items.
    destruct (Hg1 _ _ Hk0) as [Hg| ->]; [|destruct Hit0].
    exists k0, items0. auto. }
  destruct (JSMap.get g1 key) as [items0|] eqn:Hget.
  - apply In_set in Hk. destruct Hk as [[-> ->]|Hk].
    + apply in_app_or in Hit. destruct Hit as [Hit|[<-|[]]]; [|auto].
      left. apply (Hfrom1 key items0); [|exact Hit].
      apply get_In. exact Hget.
    + left. exact (Hfrom1 _ _ Hk Hit).
  - left. exact (Hfrom1 _ _ Hk Hit).
Qed.

Lemma fold_insert_all_items (l : list T) :
  forall st it,
    In it (all_items (fold_left (fun idx n => snd (insert idx n)) l st)) ->
    In it (all_items st) \/ In it l.
Proof.
  induction l as [|a l IH]; intros st it Hin; cbn [fold_left] in Hin; [auto|].
  destruct (IH _ _ Hin) as [Hst|Hl]; [|right; right; exact Hl].
  destruct (insert_all_items _ _ _ Hst) as [Hst'| ->]; [left|right; left]; auto.
Qed.

(** A valid query returns indexed items within the radius, or what the
    cache holds under its key. *)
Lemma query_uncached_sound st x y r it :
  queryCache st = [] ->
  In it (fst (query st (Some (Num x, Num y)) (Num r))) ->
  In it (all_items st) /\ within_radius x y r it.
Proof.
  intros Hq. unfold query. destruct (ltb r 0); [intros []|].
  rewrite Hq. cbn [JSMap.get fst]. apply performQuery_sound.
Qed.

Lemma fold_insert_cache (l : list T) :
  forall st,
    queryCache st = [] ->
    queryCache (fold_left (fun idx n => snd (insert idx n)) l st) = [].
Proof.
  induction l as [|a l IH]; intros st Hq; cbn [fold_left]; [exact Hq|].
  apply IH. unfold insert.
  destruct (item_position a) as [[[|x] [|y]]|]; try exact Hq.
  destruct (JSMap.get _ _); reflexivity.
Qed.
End Facts.

(** The index of the default canvas. *)
Lemma new_index_800_600 {T : Type} `{Indexable T} :
  @SpatialIndex.new T (Num 800) (Num 600) (Num 50)
    = mk 800 600 50 16 12 [] 0 [] 100 [].
Proof.
  unfold new.
  rewrite !num_or_nonzero by lra.
  rewrite !Rmax_right by lra.
  rewrite (ceil_unique (800 / 50) 16) by lra.
  rewrite (ceil_unique (600 / 50) 12) by lra.
  reflexivity.
Qed.

End SpatialIndexFacts.

(** ** Claims about the spatial index *)

Module SpatialIndexClaims.
Import JSMath JSMathFacts JSMapFacts SpatialIndex SpatialIndexFacts Scenarios.
Open Scope R_scope.

(** *** Evaluation of the example indexes *)

Lemma canvas_eq : canvas = mk 800 600 50 16 12 [] 0 [] 100 [].
Proof. apply new_index_800_600. Qed.

Lemma canvas_a_eq :
  canvas_a = mk 800 600 50 16 12 [((0, 0)%Z, [item_a])] 1 [] 100 [].
Proof.
  unfold canvas_a. rewrite canvas_eq.
  unfold insert.
  cbn [item_position plain_Indexable plain_position item_a item_id plain_id
       truthy_id].
  unfold findItemById. cbn [truthy_id grid JSMap.values map concat find].
  unfold getGridKey. cbn [cellSize gridWidth gridHeight].
  rewrite (floor_unique (15.2 / 50) 0) by (simpl; lra).
  rewrite (floor_unique (10 / 50) 0) by (simpl; lra).
  reflexivity.
Qed.

Lemma canvas_off_eq :
  canvas_off
    = mk 800 600 50 16 12 [((15, 0)%Z, [item_off_canvas])] 1 [] 100 [].
Proof.
  unfold canvas_off. rewrite canvas_eq.
  unfold insert.
  cbn [item_position plain_Indexable plain_position item_off_canvas item_id
       plain_id truthy_id].
  unfold findItemById. cbn [truthy_id grid JSMap.values map concat find].
  unfold getGridKey. cbn [cellSize gridWidth gridHeight].
  rewrite (floor_unique (2000 / 50) 40) by (simpl; lra).
  rewrite (floor_unique (10 / 50) 0) by (simpl; lra).
  reflexivity.
Qed.

Lemma canvas_a_reachable : reachable canvas_a.
Proof. apply reach_insert, reach_new. Qed.

Lemma canvas_a_on_canvas it :
  In it (all_items canvas_a) -> on_canvas canvas_a it.
Proof.
  rewrite canvas_a_eq. intros [<-|[]].
  exists 15.2, 10. simpl. repeat split; lra.
Qed.

Lemma item_a_near : within_radius 10.4 10 5 item_a.
Proof.
  exists 15.2, 10. split; [reflexivity|].
  apply sqrt_le_iff; nra.
Qed.

Lemma item_a_far : ~ within_radius 10 10 5 item_a.
Proof.
  intros (ix & iy & [= <- <-] & Hle).
  apply sqrt_le_iff in Hle; nra.
Qed.

Lemma key_near_far : cacheKey 10.4 10 5 = cacheKey 10 10 5.
Proof.
  unfold cacheKey.
  rewrite (round_unique 10.4 10) by lra.
  rewrite (round_unique 10 10) by lra.
  reflexivity.
Qed.

(** *** C1 *)

(** C1, as amended.  In every state that the public methods reach, a
    query with real coordinates and a non-negative radius answers for
    the circle of radius [r'] around [(x', y')], where [(x', y', r')] has
    the rounded key of the query and is the query itself when the key is
    not cached.  Whatever the index holds, every item returned is an
    indexed item within that circle; and every indexed item that lies on
    the canvas and within that circle is returned.  So a cache miss is
    exact for the items on the canvas and has no false positive at all,
    and a cache hit answers, in the same way, the query that stored the
    entry. *)
Theorem query_exact_up_to_cache_key
  {T : Type} `{Indexable T} (st : SpatialIndex.t T) (x y r : R) :
  reachable st ->
  0 <= r ->
  exists x' y' r',
    0 <= r'
    /\ cacheKey x' y' r' = cacheKey x y r
    /\ (JSMap.get (queryCache st) (cacheKey x y r) = None ->
        x' = x /\ y' = y /\ r' = r)
    /\ forall it,
       (In it (fst (query st (Some (Num x, Num y)) (Num r))) ->
        In it (all_items st) /\ within_radius x' y' r' it)
       /\ (In it (all_items st) -> on_canvas st it ->
           within_radius x' y' r' it ->
           In it (fst (query st (Some (Num x, Num y)) (Num r)))).
Proof.
  intros Hreach Hr.
  assert (Hwf := reachable_wf st Hreach).
  destruct (JSMap.get (queryCache st) (cacheKey x y r)) as [cached|] eqn:Hg.
  - assert (Hq : cache_ok st) by apply Hwf.
    destruct (Hq _ _ Hg) as (x' & y' & r' & Hr' & Hkey & ->).
    exists x', y', r'. split; [exact Hr'|]. split; [exact Hkey|].
    split; [discriminate|].
    rewrite (query_hit st x y r _ Hr Hg). cbn [fst].
    intros it. split.
    + apply performQuery_sound.
    + intros Hin Hcanvas Hw. apply performQuery_complete; assumption.
  - exists x, y, r. split; [exact Hr|]. split; [reflexivity|].
    split; [auto|].
    rewrite (query_miss st x y r Hr Hg). cbn [fst].
    intros it. split.
    + apply performQuery_sound.
    + intros Hin Hcanvas Hw. apply performQuery_complete; assumption.
Qed.

Lemma query_exact_up_to_cache_key_witness :
  exists x' y' r',
    0 <= r'
    /\ cacheKey x' y' r' = cacheKey 10 10 5
    /\ (JSMap.get (queryCache canvas_a) (cacheKey 10 10 5) = None ->
        x' = 10 /\ y' = 10 /\ r' = 5)
    /\ forall it,
       (In it (fst (query canvas_a (Some (Num 10, Num 10)) (Num 5))) ->
        In it (all_items canvas_a) /\ within_radius x' y' r' it)
       /\ (In it (all_items canvas_a) -> on_canvas canvas_a it ->
           within_radius x' y' r' it ->
           In it (fst (query canvas_a (Some (Num 10, Num 10)) (Num 5)))).
Proof.
  apply (query_exact_up_to_cache_key canvas_a 10 10 5).
  - exact canvas_a_reachable.
  - lra.
Defined.

(** C1 as stated fails on a cache hit: with [item_a] at [(15.2, 10)]
    indexed, [query({x: 10.4, y: 10}, 5)] caches [[item_a]] under the key
    [10,10,5]; the next [query({x: 10, y: 10}, 5)] has the same key and
    returns [item_a], which is 5.2 away. *)
Lemma query_stale_cache_false_positive :
  let st2 := snd (query canvas_a (Some (Num 10.4, Num 10)) (Num 5)) in
  In item_a (fst (query st2 (Some (Num 10, Num 10)) (Num 5)))
  /\ ~ within_radius 10 10 5 item_a.
Proof.
  split; [|exact item_a_far].
  assert (Hempty : queryCache canvas_a = []).
  { rewrite canvas_a_eq. reflexivity. }
  assert (Hmiss : JSMap.get (queryCache canvas_a) (cacheKey 10.4 10 5) = None).
  { rewrite Hempty. reflexivity. }
  rewrite (query_miss canvas_a 10.4 10 5) by (lra || exact Hmiss). simpl snd.
  rewrite (query_hit _ 10 10 5 (performQuery canvas_a 10.4 10 5)).
  - simpl fst.
    apply (performQuery_exact canvas_a 10.4 10 5
           (reachable_wf _ canvas_a_reachable) canvas_a_on_canvas).
    split; [|exact item_a_near].
    rewrite canvas_a_eq. left. reflexivity.
  - lra.
  - rewrite <- key_near_far. apply addToCache_get.
Qed.

(** That every item within the circle is returned holds for the items
    on the canvas only: an item beyond the right edge is stored in the
    last column of cells, while the cells that a query around it scans,
    from column 39 on, are clamped to an empty range. *)
Lemma query_misses_item_off_canvas :
  fst (query canvas_off (Some (Num 2000, Num 10)) (Num 5)) = []
  /\ In item_off_canvas (all_items canvas_off)
  /\ within_radius 2000 10 5 item_off_canvas.
Proof.
  assert (Hmiss : JSMap.get (queryCache canvas_off) (cacheKey 2000 10 5) = None).
  { rewrite canvas_off_eq. reflexivity. }
  rewrite (query_miss canvas_off 2000 10 5) by (lra || exact Hmiss).
  cbn [fst]. split; [|split].
  - unfold performQuery. rewrite canvas_off_eq.
    cbn [cellSize gridWidth gridHeight grid].
    rewrite (ceil_unique (5 / 50) 1) by (simpl; lra).
    rewrite (floor_unique (2000 / 50) 40) by (simpl; lra).
    rewrite (floor_unique (10 / 50) 0) by (simpl; lra).
    reflexivity.
  - rewrite canvas_off_eq. left. reflexivity.
  - exists 2000, 10. split; [reflexivity|]. apply sqrt_le_iff; nra.
Qed.

(** *** C10 *)

Lemma has_id_true {T : Type} `{Indexable T} (s : jsstring) (it : T) :
  has_id s it = true <-> item_id it = Some s.
Proof.
  unfold has_id, eqb. destruct (eq_dec (item_id it) (Some s));
    split; intros; auto; discriminate.
Qed.

Lemma remove_all_items {T : Type} `{Indexable T} (st : SpatialIndex.t T) s :
  all_items (snd (remove st (Some s)))
    = (if truthy_id (Some s)
       then filter (fun it => negb (has_id s it)) (all_items st)
       else all_items st).
Proof.
  unfold remove. destruct (truthy_id (Some s)); [|reflexivity].
  destruct (0 <? _)%nat; unfold all_items; simpl; apply remove_cells_items.
Qed.

Lemma find_filter_nonempty {A} (f : A -> bool) (l : list A) a :
  find f l = Some a -> (0 < length (filter f l))%nat.
Proof.
  induction l as [|b l IH]; simpl; [discriminate|].
  destruct (f b); simpl; [lia|auto].
Qed.

Lemma find_filter_negb {A} (f : A -> bool) (l : list A) :
  find f (filter (fun a => negb (f a)) l) = None.
Proof.
  induction l as [|b l IH]; simpl; [reflexivity|].
  destruct (f b) eqn:E; simpl; [exact IH|]. rewrite E. exact IH.
Qed.

(** C10, as amended.  For an item that carries a non-empty id,
    [update(item)] is [remove(item.id)] followed by [insert(item)].
    Hence, when the id is indexed and the position of [item] is missing
    or not numeric, [update] returns [false] after the indexed item is
    gone: [itemCount] has decreased, the id is no longer found, and no
    query returns an item with that id. *)
Theorem update_with_id_is_remove_then_insert
  {T : Type} `{Indexable T} (st : SpatialIndex.t T) (item : T) :
  truthy_id (item_id item) = true ->
  update st item = insert (snd (remove st (item_id item))) item
  /\ (reachable st ->
      findItemById st (item_id item) <> None ->
      ~ valid_position item ->
      fst (update st item) = false
      /\ (itemCount (snd (update st item)) < itemCount st)%Z
      /\ findItemById (snd (update st item)) (item_id item) = None
      /\ forall p r it,
         In it (fst (query (snd (update st item)) p r)) ->
         item_id it <> item_id item).
Proof.
  intros Hid. split.
  { unfold update. rewrite Hid. reflexivity. }
  intros Hreach Hfound Hpos.
  assert (Hwf := reachable_wf st Hreach).
  assert (Hupd : update st item = (false, snd (remove st (item_id item)))).
  { unfold update. rewrite Hid. apply insert_invalid. exact Hpos. }
  rewrite Hupd. simpl fst. simpl snd.
  destruct (item_id item) as [s|] eqn:Eid; [|discriminate].
  assert (Hitems := remove_all_items st s). rewrite Hid in Hitems.
  unfold findItemById in Hfound. rewrite Hid in Hfound.
  destruct (find (has_id s) (concat (JSMap.values (grid st)))) as [old|] eqn:Hfind;
    [clear Hfound|contradiction].
  assert (Hn := find_filter_nonempty _ _ _ Hfind).
  assert (Hcount : count_ok st) by apply Hwf.
  assert (Hrem : remove st (Some s)
          = (true, clearQueryCache
             (with_grid st (remove_cells s (grid st))
              (Nat.iter (removed_count s (grid st))
               (fun c => Z.max 0 (c - 1)) (itemCount st))))).
  { assert (Hn' : (0 <? removed_count s (grid st))%nat = true)
      by (apply Nat.ltb_lt; exact Hn).
    unfold remove. rewrite Hid, Hn'. reflexivity. }
  split; [reflexivity|].
  split; [|split].
  - rewrite Hrem. simpl.
    assert (Hp := filter_partition_length (has_id s)
            (concat (JSMap.values (grid st)))).
    unfold count_ok, all_items in Hcount. unfold removed_count.
    rewrite iter_decrement by lia. lia.
  - unfold findItemById. rewrite Hid.
    fold (all_items (snd (remove st (Some s)))). rewrite Hitems.
    apply find_filter_negb.
  - intros p r it Hin Heq.
    assert (Hsub : In it (all_items (snd (remove st (Some s))))).
    { rewrite Hrem in Hin |- *. simpl snd in *.
      unfold query in Hin.
      destruct p as [[[|x] [|y]]|]; try destruct Hin.
      destruct r as [|r]; [destruct Hin|].
      destruct (ltb r 0); [destruct Hin|].
      simpl in Hin. apply performQuery_sound in Hin. apply Hin. }
    rewrite Hitems in Hsub. apply filter_In in Hsub.
    destruct Hsub as [_ Hneg].
    apply (proj2 (has_id_true s it)) in Heq. rewrite Heq in Hneg. discriminate.
Qed.

Lemma update_with_id_is_remove_then_insert_witness :
  update canvas_a item_a_lost
    = insert (snd (remove canvas_a (item_id item_a_lost))) item_a_lost
  /\ fst (update canvas_a item_a_lost) = false
  /\ (itemCount (snd (update canvas_a item_a_lost)) < itemCount canvas_a)%Z
  /\ findItemById (snd (update canvas_a item_a_lost)) (item_id item_a_lost)
    = None.
Proof.
  destruct (update_with_id_is_remove_then_insert canvas_a item_a_lost)
    as [Heq Hrest]; [reflexivity|].
  split; [exact Heq|].
  destruct Hrest as (Hf & Hc & Hn & _).
  - exact canvas_a_reachable.
  - rewrite canvas_a_eq. discriminate.
  - intros (x & y & Hp). discriminate Hp.
  - auto.
Defined.

(** C10 as stated fails for an item without id, which the index
    accepts: [update] rejects it and leaves the index alone, while
    [remove(undefined)] followed by [insert] stores it. *)
Lemma update_without_id_is_not_remove_then_insert :
  update canvas item_anonymous
    <> insert (snd (remove canvas (item_id item_anonymous))) item_anonymous.
Proof.
  intros Heq. apply (f_equal fst) in Heq.
  unfold update in Heq. simpl in Heq. discriminate Heq.
Qed.

(** *** C9 *)

Lemma findNearest_below_first_radius {T : Type} `{Indexable T}
  (st : SpatialIndex.t T) (p : jsnum * jsnum) (m : R) :
  m < 50 -> findNearest st (Some p) (Some m) = (None, st).
Proof.
  intros Hm. unfold findNearest. destruct p as [x y].
  cbn [findNearest_loop].
  assert (Hlt : ltb (Rmin m 1000) 50 = true).
  { apply ltb_true. unfold Rmin. destruct (Rle_dec m 1000); lra. }
  rewrite Hlt. reflexivity.
Qed.

(** C9 fails on the code: with [item_a] at [(15.2, 10)] indexed,
    [findNearest({x: 15, y: 10}, 30)] returns [null] without a single
    query, although [item_a] is 0.2 away: the first radius, 50, exceeds
    the limit and ends the loop. *)
Theorem findNearest_small_maxDistance_returns_null :
  findNearest canvas_a (Some (Num 15, Num 10)) (Some 30) = (None, canvas_a)
  /\ In item_a (all_items canvas_a)
  /\ within_radius 15 10 30 item_a.
Proof.
  split; [apply findNearest_below_first_radius; lra|].
  split.
  - rewrite canvas_a_eq. left. reflexivity.
  - exists 15.2, 10. split; [reflexivity|]. apply sqrt_le_iff; nra.
Qed.

(** *** C3 *)

Lemma flat_map_all_nil {A B} (f : A -> list B) (l : list A) :
  (forall a, f a = []) -> flat_map f l = [].
Proof.
  intros Hf. induction l as [|a l IH]; simpl; [reflexivity|].
  rewrite Hf, IH. reflexivity.
Qed.

Lemma performQuery_no_items {T : Type} `{Indexable T}
  (st : SpatialIndex.t T) x y r :
  grid st = [] -> performQuery st x y r = [].
Proof.
  intros Hg. unfold performQuery. rewrite Hg.
  apply flat_map_all_nil. intros gx.
  apply flat_map_all_nil. intros gy. reflexivity.
Qed.

Lemma query_at_record_query st i :
  grid st = [] ->
  query_at st i = record_query st (i, 0, 0)%Z
  /\ grid (query_at st i) = [].
Proof.
  intros Hg. unfold query_at, record_query, query.
  assert (Hlt : ltb 0 0 = false) by (apply ltb_false; lra).
  rewrite Hlt.
  replace (cacheKey (IZR i) 0 0) with (i, 0, 0)%Z.
  2:{ unfold cacheKey. rewrite round_IZR.
      rewrite (round_unique 0 0) by lra. reflexivity. }
  destruct (JSMap.get (queryCache st) (i, 0, 0)%Z); simpl.
  - split; [reflexivity|exact Hg].
  - rewrite (performQuery_no_items st _ _ _ Hg).
    split; [reflexivity|].
    unfold addToCache. destruct (_ <=? _)%nat; [|exact Hg].
    destruct (cacheAccessOrder st); exact Hg.
Qed.

Lemma fold_query_at_record_query l :
  forall st, grid st = [] ->
    fold_left query_at l st
      = fold_left (fun st i => record_query st (i, 0, 0)%Z) l st
    /\ grid (fold_left query_at l st) = [].
Proof.
  induction l as [|i l IH]; intros st Hg; simpl; [auto|].
  destruct (query_at_record_query st i Hg) as [Heq Hg'].
  rewrite <- Heq. apply IH. exact Hg'.
Qed.

(** C3 fails on the code: [cleanup()] empties [queryCache] and keeps 50
    keys in [cacheAccessOrder]; the evictions of [addToCache] then shift
    those stale keys off the order and delete nothing, and the cache
    grows past [maxCacheSize]. *)
Theorem cache_exceeds_cap_after_cleanup :
  JSMap.size (queryCache cache_overflow_run) = 101%nat
  /\ maxCacheSize cache_overflow_run = 100%nat.
Proof.
  unfold cache_overflow_run. rewrite canvas_eq.
  set (st0 := mk 800 600 50 16 12 [] 0 [] 100 []).
  destruct (fold_query_at_record_query (zrange 1 51) st0 eq_refl) as [E1 G1].
  assert (G2 : grid (cleanup (fold_left query_at (zrange 1 51) st0)) = []).
  { unfold cleanup. rewrite G1. simpl.
    destruct (_ <? _)%nat; reflexivity. }
  destruct (fold_query_at_record_query (zrange 101 201) _ G2) as [E2 _].
  rewrite E2, E1. subst st0.
  split; vm_compute; reflexivity.
Qed.
End SpatialIndexClaims.

(** ** Claims about the semantic field *)

Module SemanticFieldClaims.
Import JSMath JSMathFacts JSMapFacts SemanticField Scenarios.
Open Scope R_scope.

(** *** C6 *)

(** C6.  Whatever the two nodes (null, without [char], or with one) and
    whatever the spatial distance (a real, zero included, or not a
    number), the force returned by [calculateSemanticForce] has its
    attraction and its repulsion in [[0, 1]] and its lateral component in
    [[-1, 1]]. *)
Theorem calculateSemanticForce_bounded
  (sf : SemanticField.t) (sourceNode targetNode : option (option jsstring))
  (spatialDistance : jsnum) :
  let f := calculateSemanticForce sf sourceNode targetNode spatialDistance in
  0 <= attraction f <= 1 /\ 0 <= repulsion f <= 1 /\ -1 <= lateral f <= 1.
Proof.
  assert (Hzero : 0 <= 0 <= 1 /\ 0 <= 0 <= 1 /\ -1 <= 0 <= 1) by lra.
  unfold calculateSemanticForce.
  destruct sourceNode as [[[|c1 w1]|]|]; try exact Hzero.
  destruct targetNode as [[[|c2 w2]|]|]; try exact Hzero.
  destruct spatialDistance as [|d]; try exact Hzero.
  cbv zeta. cbn [attraction repulsion lateral].
  split; [|split]; apply Rmax_Rmin_bounds; lra.
Qed.

(** *** C5 *)

Lemma safe_spatial (d : R) : Rmax 0.1 (or_default d 0.1) = Rmax 0.1 d.
Proof.
  unfold or_default. destruct (Req_dec_T d 0) as [->|Hd]; [|reflexivity].
  rewrite (Rmax_left 0.1 0) by lra. apply Rmax_left. lra.
Qed.

(** The semantic distance that the code floors, for a pair that is
    unknown or has a similarity below 1: the one of the specification. *)
Lemma safe_semantic sf w1 w2 :
  w1 <> [] -> w2 <> [] ->
  (forall s, similarity_of sf w1 w2 = Some s -> 0 <= s < 1) ->
  Rmax 0.1 (Rmin 1 (or_default (getSemanticDistance sf w1 w2) 1))
    = Rmax 0.1 (match similarity_of sf w1 w2 with
                | Some s => 1 - s
                | None => 1
                end).
Proof.
  intros H1 H2 Hs. unfold getSemanticDistance, similarity_of in *.
  destruct w1 as [|c1 w1]; [contradiction H1; reflexivity|].
  destruct w2 as [|c2 w2]; [contradiction H2; reflexivity|].
  assert (Hone : Rmax 0.1 (Rmin 1 (or_default 1 1)) = Rmax 0.1 1).
  { rewrite or_default_nonzero by lra. rewrite Rmin_left by lra. reflexivity. }
  destruct (JSMap.get (semanticGraph sf) (c1 :: w1)) as [connections|];
    [|exact Hone].
  destruct (JSMap.get connections (c2 :: w2)) as [s|]; [|exact Hone].
  destruct (Hs s eq_refl) as [Hlo Hhi].
  rewrite (Rmax_right 0 (1 - s)) by lra.
  rewrite or_default_nonzero by lra. rewrite Rmin_right by lra. reflexivity.
Qed.

Lemma safe_collocation sf w1 w2 :
  w1 <> [] -> w2 <> [] ->
  (forall c, JSMap.get (collocationMatrix sf) (bigram_key w1 w2) = Some c ->
   0 <= c <= 1) ->
  Rmax 0 (Rmin 1 (or_default (getCollocationStrength sf w1 w2) 0))
    = match JSMap.get (collocationMatrix sf) (bigram_key w1 w2) with
      | Some c => c
      | None => 0
      end.
Proof.
  intros H1 H2 Hc. unfold getCollocationStrength.
  destruct w1 as [|c1 w1]; [contradiction H1; reflexivity|].
  destruct w2 as [|c2 w2]; [contradiction H2; reflexivity|].
  destruct (JSMap.get _ _) as [c|].
  - rewrite !or_default_0. apply clamp_fixed. apply Hc. reflexivity.
  - rewrite or_default_0. apply clamp_fixed. lra.
Qed.

(** Away from similarity 1 the code computes the force of C5: for a pair
    that is unknown or has a recorded similarity in [[0, 1)], and a
    recorded collocation strength in [[0, 1]] (the graph and the table
    hold clamped values), [calculateSemanticForce] returns the triple of
    the specification. *)
Lemma calculateSemanticForce_follows_spec sf w1 w2 d :
  w1 <> [] -> w2 <> [] ->
  (forall s, similarity_of sf w1 w2 = Some s -> 0 <= s < 1) ->
  (forall c, JSMap.get (collocationMatrix sf) (bigram_key w1 w2) = Some c ->
   0 <= c <= 1) ->
  calculateSemanticForce sf (Some (Some w1)) (Some (Some w2)) (Num d)
    = spec_force (similarity_of sf w1 w2)
        (JSMap.get (collocationMatrix sf) (bigram_key w1 w2)) d.
Proof.
  intros H1 H2 Hs Hc.
  assert (Hsem := safe_semantic sf w1 w2 H1 H2 Hs).
  assert (Hcol := safe_collocation sf w1 w2 H1 H2 Hc).
  unfold calculateSemanticForce.
  destruct w1 as [|c1 w1]; [contradiction H1; reflexivity|].
  destruct w2 as [|c2 w2]; [contradiction H2; reflexivity|].
  cbv zeta. unfold generateInterferencePattern.
  cbn [attraction repulsion lateral].
  rewrite Hsem, Hcol, safe_spatial, !or_default_0.
  rewrite !clamp_idempotent by lra.
  reflexivity.
Qed.

Lemma field_a_a_similarity : similarity_of field_a_a word_a word_a = Some 1.
Proof.
  unfold similarity_of, field_a_a, addSemanticConnection, word_a. simpl.
  unfold clamp. rewrite Rmin_right by lra. rewrite Rmax_right by lra.
  reflexivity.
Qed.

Lemma field_a_a_distance : getSemanticDistance field_a_a word_a word_a = 0.
Proof.
  assert (Hs := field_a_a_similarity). unfold similarity_of in Hs.
  unfold getSemanticDistance, word_a in *.
  destruct (JSMap.get (semanticGraph field_a_a) [97%Z]) as [connections|];
    [|discriminate].
  rewrite Hs. replace (1 - 1) with 0 by ring. apply Rmax_left. lra.
Qed.

(** C5 fails on the code for a pair of similarity 1.  In the field
    [field_a_a] the pair [(a, a)] is recorded with similarity 1, as for a
    word that a text repeats, and has semantic distance 0; at spatial
    distance 1 the specified ratio is [1 / 0.1 = 10] and the repulsion
    [clamp ((10 - 1) * 0.5) = 1], while the code replaces the zero
    distance by 1 ([Number(semanticDist) || 1]) and returns the repulsion
    [clamp ((1 - 1) * 0.5) = 0]. *)
Theorem force_of_identical_pair_ignores_floor :
  let code :=
    calculateSemanticForce field_a_a (Some (Some word_a)) (Some (Some word_a))
      (Num 1) in
  let spec :=
    spec_force (similarity_of field_a_a word_a word_a) None 1 in
  repulsion code = 0 /\ repulsion spec = 1.
Proof.
  cbv zeta. split.
  - unfold calculateSemanticForce, word_a.
    fold word_a. rewrite field_a_a_distance.
    cbn [repulsion]. rewrite or_default_0.
    unfold generateInterferencePattern. cbn [repulsion].
    rewrite (or_default_nonzero 1 0.1) by lra.
    rewrite (or_default_zero 1).
    rewrite (Rmin_left 1 1) by lra.
    rewrite (Rmax_right 0.1 1) by lra.
    replace ((1 / 1 - 1) * 0.5) with 0 by field.
    rewrite (Rmin_right 1 0) by lra.
    rewrite (Rmax_left 0 0) by lra.
    rewrite (Rmin_right 1 0) by lra.
    apply Rmax_left; lra.
  - rewrite field_a_a_similarity. unfold spec_force. cbn [repulsion].
    replace (1 - 1) with 0 by ring.
    rewrite (Rmax_right 0.1 1) by lra.
    rewrite (Rmax_left 0.1 0) by lra.
    replace ((1 / 0.1 - 1) * 0.5) with 4.5 by lra.
    unfold clamp. rewrite Rmin_left by lra. apply Rmax_right. lra.
Qed.

(** *** C2 *)

Lemma same_collocation_addSemanticConnection sf w1 w2 s :
  same_collocation sf (addSemanticConnection sf w1 w2 s).
Proof.
  unfold addSemanticConnection.
  destruct w1; [repeat split|]. destruct w2; [repeat split|].
  destruct (_ <=? _)%nat; destruct (JSMap.get _ _); repeat split.
Qed.

Lemma same_collocation_trans sf1 sf2 sf3 :
  same_collocation sf1 sf2 -> same_collocation sf2 sf3 ->
  same_collocation sf1 sf3.
Proof.
  intros (A1 & A2 & A3) (B1 & B2 & B3). repeat split; congruence.
Qed.

Lemma same_collocation_fold {A} (f : SemanticField.t -> A -> SemanticField.t)
  (l : list A) :
  (forall sf a, same_collocation sf (f sf a)) ->
  forall sf, same_collocation sf (fold_left f l sf).
Proof.
  intros Hf. induction l as [|a l IH]; intros sf; simpl; [repeat split|].
  eapply same_collocation_trans; [apply Hf|apply IH].
Qed.

Lemma same_collocation_connect_from words vectors i sf :
  same_collocation sf (connect_from words vectors i sf).
Proof.
  unfold connect_from. apply same_collocation_fold. intros sf' j.
  destruct (nth_error vectors i); [|repeat split].
  destruct (nth_error vectors j); [|repeat split].
  destruct (ltb _ _); [|repeat split].
  apply same_collocation_addSemanticConnection.
Qed.

Lemma detectCollocationPatterns_same sf sf' words :
  same_collocation sf sf' ->
  collocationMatrix (detectCollocationPatterns sf' words)
    = collocationMatrix (detectCollocationPatterns sf words).
Proof.
  intros (Hc & Hm & _). unfold detectCollocationPatterns.
  destruct (_ <? 2)%nat; [symmetry; exact Hc|].
  rewrite <- Hm, <- Hc.
  destruct (_ <=? _)%nat; simpl; [|rewrite Hc; reflexivity].
  rewrite <- Hm, <- Hc. reflexivity.
Qed.

(** The collocation table after [analyzeSemanticStructure], as long as
    the periodic cleanup is not due: the table that
    [detectCollocationPatterns] makes of the tokens. *)
Lemma analyzeSemanticStructure_collocation sf text :
  text <> [] -> tokenize text <> [] ->
  (S (cleanupCounter sf) < 100)%nat ->
  collocationMatrix (analyzeSemanticStructure sf text)
    = collocationMatrix (detectCollocationPatterns sf (tokenize text)).
Proof.
  intros Ht Hw Hc. unfold analyzeSemanticStructure.
  destruct text as [|c text]; [contradiction|].
  set (words := tokenize (c :: text)) in *.
  destruct words as [|w ws] eqn:Ew; [contradiction|].
  set (sf1 := fold_left _ _ sf).
  assert (Hs : same_collocation sf sf1).
  { subst sf1. apply same_collocation_fold. intros sf' i.
    apply same_collocation_connect_from. }
  unfold performCleanupIfNeeded.
  assert (Hcnt : cleanupCounter (detectCollocationPatterns sf1 (w :: ws))
          = cleanupCounter sf).
  { destruct Hs as (_ & _ & Hk). rewrite Hk. unfold detectCollocationPatterns.
    destruct (_ <? 2)%nat; [reflexivity|].
    destruct (_ <=? _)%nat; reflexivity. }
  cbn [cleanupCounter with_counter]. rewrite Hcnt.
  destruct (100 <=? S (cleanupCounter sf))%nat eqn:E.
  - apply Nat.leb_le in E. lia.
  - cbn [collocationMatrix with_counter].
    apply detectCollocationPatterns_same. exact Hs.
Qed.

Lemma maxCollocationSize_detect sf words :
  maxCollocationSize (detectCollocationPatterns sf words)
    = maxCollocationSize sf.
Proof.
  unfold detectCollocationPatterns.
  destruct (_ <? 2)%nat; [reflexivity|].
  destruct (_ <=? _)%nat; reflexivity.
Qed.

Lemma maxCollocationSize_performCleanupIfNeeded sf :
  maxCollocationSize (performCleanupIfNeeded sf) = maxCollocationSize sf.
Proof.
  unfold performCleanupIfNeeded.
  destruct (100 <=? _)%nat; [|reflexivity].
  unfold cleanup. cbn [with_counter maxCollocationSize].
  repeat match goal with
    | |- context [if ?b then _ else _] => destruct b
    end; reflexivity.
Qed.

Lemma maxCollocationSize_analyzeSemanticStructure sf text :
  maxCollocationSize (analyzeSemanticStructure sf text) = maxCollocationSize sf.
Proof.
  unfold analyzeSemanticStructure.
  destruct text as [|c text]; [reflexivity|].
  destruct (tokenize (c :: text)) as [|w ws]; [reflexivity|].
  rewrite maxCollocationSize_performCleanupIfNeeded, maxCollocationSize_detect.
  symmetry.
  apply (same_collocation_fold
         (fun sf i =>
          connect_from (w :: ws) (computeSemanticVectors (w :: ws)) i sf)).
  intros sf' i. apply same_collocation_connect_from.
Qed.

(** On a new field the size test of [detectCollocationPatterns] passes
    and the loop starts from the empty table. *)
Lemma detectCollocationPatterns_new words :
  (2 <= length words)%nat ->
  collocationMatrix (detectCollocationPatterns SemanticField.new words)
    = add_bigrams JSMap.empty words.
Proof.
  intros Hlen. unfold detectCollocationPatterns.
  destruct (length words <? 2)%nat eqn:E; [apply Nat.ltb_lt in E; lia|].
  change (maxCollocationSize SemanticField.new
          <=? JSMap.size (collocationMatrix SemanticField.new))%nat
    with false.
  reflexivity.
Qed.

Lemma tokenize_burst_text : tokenize burst_text = burst_words.
Proof. vm_compute. reflexivity. Qed.

Lemma burst_bigram_inj i j : burst_bigram i = burst_bigram j -> i = j.
Proof.
  unfold burst_bigram, bigram_key, burst_word. cbn [app].
  intros Heq. apply (f_equal (fun l => nth 0 l 0%Z)) in Heq.
  cbn [nth] in Heq. lia.
Qed.

(** One step of the loop of [detectCollocationPatterns] on two words. *)
Lemma add_bigrams_cons (c : JSMap.t jsstring R) (w1 w2 : jsstring)
  (rest : list jsstring) :
  w1 <> [] -> w2 <> [] ->
  add_bigrams c (w1 :: w2 :: rest)
    = add_bigrams
        (JSMap.set c (bigram_key w1 w2)
         (Rmin 1 (match JSMap.get c (bigram_key w1 w2) with
                  | Some s => or_default s 0
                  | None => 0
                  end + 0.1)))
        (w2 :: rest).
Proof.
  intros H1 H2. destruct w1; [contradiction H1; reflexivity|].
  destruct w2; [contradiction H2; reflexivity|]. reflexivity.
Qed.

(** Every bigram of the burst is new to the table: [n + 1] words from the
    [k]-th on add [n] entries to a table that holds earlier bigrams
    only. *)
Lemma add_bigrams_burst (n : nat) :
  forall (k : nat) (c : JSMap.t jsstring R),
    (forall key, In key (JSMap.keys c) ->
     exists j, (j < k)%nat /\ key = burst_bigram j) ->
    JSMap.size (add_bigrams c (map burst_word (seq k (S n))))
      = (JSMap.size c + n)%nat.
Proof.
  induction n as [|n IH]; intros k c Hkeys.
  - simpl. lia.
  - assert (Hfresh : JSMap.get c (burst_bigram k) = None).
    { apply get_None_not_In. intros Hin.
      destruct (Hkeys _ Hin) as (j & Hj & Heq).
      apply burst_bigram_inj in Heq. lia. }
    replace (map burst_word (seq k (S (S n))))
      with (burst_word k :: burst_word (S k)
            :: map burst_word (seq (S (S k)) n)) by reflexivity.
    rewrite add_bigrams_cons by discriminate.
    fold (burst_bigram k). rewrite Hfresh.
    replace (burst_word (S k) :: map burst_word (seq (S (S k)) n))
      with (map burst_word (seq (S k) (S n))) by reflexivity.
    rewrite IH.
    + rewrite (size_set_new _ _ _ Hfresh). lia.
    + intros key Hin. apply In_keys_set in Hin. destruct Hin as [->|Hin].
      * exists k. split; [lia|reflexivity].
      * destruct (Hkeys _ Hin) as (j & Hj & Heq).
        exists j. split; [lia|exact Heq].
Qed.

Lemma burst_collocation_size :
  JSMap.size (add_bigrams JSMap.empty burst_words) = 2001%nat.
Proof.
  unfold burst_words.
  rewrite (add_bigrams_burst 2001 0 JSMap.empty).
  - reflexivity.
  - intros key [].
Qed.

Lemma burst_words_length : length burst_words = 2002%nat.
Proof. unfold burst_words. rewrite length_map, length_seq. reflexivity. Qed.

Lemma burst_words_nonempty : burst_words <> [].
Proof.
  intros Heq. apply (f_equal (@length _)) in Heq.
  rewrite burst_words_length in Heq. discriminate Heq.
Qed.

Lemma burst_text_nonempty : burst_text <> [].
Proof.
  intros Heq. apply (f_equal tokenize) in Heq.
  rewrite tokenize_burst_text in Heq. exact (burst_words_nonempty Heq).
Qed.

(** C2 fails on the code for the collocation table.  A new field that
    analyses a text of 2002 distinct words records 2001 bigrams in one
    call: the size of the table is tested once, before the loop that adds
    the bigrams, and not again. *)
Theorem collocation_burst_exceeds_cap :
  let sf := analyzeSemanticStructure SemanticField.new burst_text in
  JSMap.size (collocationMatrix sf) = 2001%nat
  /\ maxCollocationSize sf = 2000%nat.
Proof.
  cbv zeta. split.
  - rewrite analyzeSemanticStructure_collocation.
    + rewrite tokenize_burst_text, detectCollocationPatterns_new.
      * exact burst_collocation_size.
      * rewrite burst_words_length. lia.
    + exact burst_text_nonempty.
    + rewrite tokenize_burst_text. exact burst_words_nonempty.
    + cbn [SemanticField.new cleanupCounter]. lia.
  - rewrite maxCollocationSize_analyzeSemanticStructure. reflexivity.
Qed.
End SemanticFieldClaims.

(** ** The growth engine *)

Module OrganicLayoutFacts.
Import JSMath JSMathFacts JSMapFacts OrganicLayout Scenarios.
Import SpatialIndexFacts.
Open Scope R_scope.

Lemma eqb_true {K} `{EqDec K} (a b : K) : eqb a b = true <-> a = b.
Proof. unfold eqb. destruct (eq_dec a b); split; intros; auto; discriminate. Qed.

Lemma eqb_false {K} `{EqDec K} (a b : K) : eqb a b = false <-> a <> b.
Proof.
  unfold eqb. destruct (eq_dec a b); split; intros; auto;
    try discriminate; contradiction.
Qed.

(** *** The conflict test *)

Lemma checkIntersection_true c nearbyNodes :
  checkIntersection c nearbyNodes = true
  <-> exists m, In m nearbyNodes /\ id m <> id c
  /\ getDistance (position c) (position m) < 15.
Proof.
  unfold checkIntersection. rewrite existsb_exists. split.
  - intros (m & Hin & Hm). apply andb_prop in Hm. destruct Hm as [Hid Hd].
    exists m. split; [exact Hin|]. split.
    + apply eqb_false. apply negb_true_iff. exact Hid.
    + apply ltb_true. exact Hd.
  - intros (m & Hin & Hid & Hd). exists m. split; [exact Hin|].
    apply andb_true_intro. split.
    + apply negb_true_iff. apply eqb_false. exact Hid.
    + apply ltb_true. exact Hd.
Qed.

Lemma checkSemanticIntersection_true sf c nearbyNodes :
  checkSemanticIntersection sf c nearbyNodes = true
  <-> conflicts sf c nearbyNodes.
Proof.
  unfold checkSemanticIntersection, conflicts.
  destruct (checkIntersection c nearbyNodes) eqn:Hphys.
  - split; [intros _|intros _; reflexivity].
    left. apply checkIntersection_true. exact Hphys.
  - assert (Hno : ~ exists m, In m nearbyNodes /\ id m <> id c
            /\ getDistance (position c) (position m) < 15).
    { intros Hex. apply checkIntersection_true in Hex. congruence. }
    destruct (char c) as [|ch rest] eqn:Hc.
    + split; [discriminate|]. intros [Hex|[Hne _]]; [contradiction|congruence].
    + rewrite existsb_exists. split.
      * intros (m & Hin & Hm). right. split; [discriminate|].
        exists m. split; [exact Hin|].
        destruct (char m) as [|ch' rest'] eqn:Hcm; [discriminate|].
        apply andb_prop in Hm. destruct Hm as [Hs Hd].
        split; [discriminate|]. split; apply ltb_true; assumption.
      * intros [Hex|[_ (m & Hin & Hcm & Hs & Hd)]]; [contradiction|].
        exists m. split; [exact Hin|].
        destruct (char m) as [|ch' rest'] eqn:Hcm'; [congruence|].
        apply andb_true_intro. split; apply ltb_true; assumption.
Qed.

Lemma checkSemanticIntersection_false sf c nearbyNodes :
  checkSemanticIntersection sf c nearbyNodes = false
  <-> ~ conflicts sf c nearbyNodes.
Proof.
  rewrite <- checkSemanticIntersection_true.
  destruct (checkSemanticIntersection sf c nearbyNodes); split; intros Hx;
    try congruence; try discriminate.
Qed.

(** The semantic distance reads the association graph only. *)
Lemma getSemanticDistance_same_graph sf sf' w1 w2 :
  SemanticField.semanticGraph sf = SemanticField.semanticGraph sf' ->
  SemanticField.getSemanticDistance sf w1 w2
    = SemanticField.getSemanticDistance sf' w1 w2.
Proof.
  intros Hg. unfold SemanticField.getSemanticDistance. rewrite Hg. reflexivity.
Qed.

Lemma conflicts_same_graph sf sf' c nearbyNodes :
  SemanticField.semanticGraph sf = SemanticField.semanticGraph sf' ->
  conflicts sf c nearbyNodes -> conflicts sf' c nearbyNodes.
Proof.
  intros Hg [Hp|[Hc (m & Hin & Hcm & Hs & Hd)]]; [left; exact Hp|].
  right. split; [exact Hc|]. exists m. repeat split; auto.
  rewrite <- (getSemanticDistance_same_graph sf sf' _ _ Hg). exact Hs.
Qed.

(** *** What one queue entry creates *)

Lemma calculateEnergyDecay_bounds e n nearbyNodes :
  0.1 <= calculateEnergyDecay e n nearbyNodes <= 1.
Proof. unfold calculateEnergyDecay. apply Rmax_Rmin_bounds. lra. Qed.

Lemma nodes_addConnection e c : nodes (addConnection e c) = nodes e.
Proof.
  unfold addConnection. destruct (conn_from c); [reflexivity|].
  destruct (conn_to c); [reflexivity|]. destruct (existsb _ _); reflexivity.
Qed.

Lemma field_addConnection e c :
  semanticField (addConnection e c) = semanticField e.
Proof.
  unfold addConnection. destruct (conn_from c); [reflexivity|].
  destruct (conn_to c); [reflexivity|]. destruct (existsb _ _); reflexivity.
Qed.

Lemma nodes_read_node e n : nodes (read_node e n) = nodes e.
Proof. reflexivity. Qed.

Lemma graph_read_node e n :
  SemanticField.semanticGraph (semanticField (read_node e n))
    = SemanticField.semanticGraph (semanticField e).
Proof.
  unfold read_node, simulate, SemanticField.simulateReadingBody.
  destruct (char n); reflexivity.
Qed.

(** A branch that [createSemanticBranch] makes is appended to the nodes
    with the next id, after it passed the conflict test. *)
Lemma createSemanticBranch_spec e p nearbyNodes :
  match createSemanticBranch e p nearbyNodes with
  | (e', Some b) =>
      nodes e' = nodes e ++ [b]
      /\ semanticField e' = semanticField e
      /\ id b = node_id (length (nodes e))
      /\ parent b = Some (id p)
      /\ is_semantic_branch p b
      /\ checkSemanticIntersection (semanticField e) b nearbyNodes = false
  | (e', None) => e' = e
  end.
Proof.
  unfold createSemanticBranch.
  destruct (best_direction (semanticField e) p nearbyNodes) as [[dir|] interest];
    [|reflexivity].
  destruct (leb interest 0); [reflexivity|].
  destruct (checkSemanticIntersection _ _ _) eqn:Hcheck; [reflexivity|].
  rewrite nodes_addConnection, field_addConnection. simpl.
  split; [reflexivity|]. split; [reflexivity|]. split; [reflexivity|].
  split; [reflexivity|]. split; [|exact Hcheck].
  exists e, dir. reflexivity.
Qed.

Lemma createSemanticAvoidanceBranch_spec e p nearbyNodes :
  match createSemanticAvoidanceBranch e p nearbyNodes with
  | (e', Some b) =>
      nodes e' = nodes e ++ [b]
      /\ semanticField e' = semanticField e
      /\ id b = node_id (length (nodes e))
      /\ parent b = Some (id p)
      /\ is_semantic_branch p b
      /\ checkSemanticIntersection (semanticField e) b nearbyNodes = false
  | (e', None) => e' = e
  end.
Proof.
  unfold createSemanticAvoidanceBranch.
  destruct (char p); [reflexivity|].
  destruct (fold_left _ _ _) as [[angle|] freedom]; [|reflexivity].
  destruct (ltb 0.3 freedom); [|reflexivity].
  apply createSemanticBranch_spec.
Qed.

Ltac nothing_created :=
  exists []; simpl; rewrite ?app_nil_r;
  split; [solve [auto]|];
  split; [intros [|?] ? Hnth; discriminate Hnth|];
  split; intros ? [].

(** What one queue entry adds to the nodes. *)
Lemma grow_node_created rnd e q n :
  exists created,
    nodes (fst (grow_node rnd (e, q) n)) = nodes e ++ created
    /\ (forall i c, nth_error created i = Some c ->
        id c = node_id (length (nodes e) + i))
    /\ (forall c, In c created -> In c (snd (grow_node rnd (e, q) n)))
    /\ forall c, In c created ->
       parent c = Some (id n)
       /\ 0 < energy n
       /\ checkSemanticIntersection (semanticField (read_node e n)) c
         (neighbours e n) = false
       /\ (is_successor n c \/ is_semantic_branch n c).
Proof.
  unfold grow_node.
  destruct (leb (energy n) 0 || _) eqn:Hguard.
  { nothing_created. }
  apply orb_false_elim in Hguard. destruct Hguard as [Hen _].
  apply leb_false in Hen.
  set (nb := neighbours e n).
  set (e1 := read_node (with_index e (index_after_query e n)) n).
  assert (Hn1 : nodes e1 = nodes e).
  { subst e1. rewrite nodes_read_node. reflexivity. }
  assert (Hf1 : semanticField e1 = semanticField (read_node e n)).
  { reflexivity. }
  set (S := successor_candidate e1 _ n nb).
  destruct (checkSemanticIntersection (semanticField e1) S nb) eqn:Hcheck.
  - (* the successor is rejected: avoidance branch *)
    assert (Hspec := createSemanticAvoidanceBranch_spec e1 n nb).
    destruct (createSemanticAvoidanceBranch e1 n nb) as [e' [b|]].
    + destruct Hspec as (Hn & Hf & Hid & Hp & Hkind & Hc).
      exists [b]. cbn [fst snd]. rewrite Hn, Hn1. split; [reflexivity|].
      split.
      { intros i c Hi. destruct i as [|[|i]]; try discriminate.
        injection Hi as <-. rewrite Hid, Hn1. f_equal. lia. }
      split.
      { intros c [<-|[]]. apply in_or_app. right. left. reflexivity. }
      intros c [<-|[]]. split; [exact Hp|]. split; [exact Hen|].
      split; [rewrite <- Hf1; exact Hc|]. right. exact Hkind.
    + subst e'. nothing_created.
  - (* the successor is accepted *)
    set (e2 := addConnection _ _).
    assert (Hn2 : nodes e2 = nodes e ++ [S]).
    { subst e2. rewrite nodes_addConnection. cbn [nodes with_nodes].
      rewrite Hn1. reflexivity. }
    assert (Hf2 : semanticField e2 = semanticField e1).
    { subst e2. rewrite field_addConnection. reflexivity. }
    assert (HS : parent S = Some (id n)
            /\ 0 < energy n
            /\ checkSemanticIntersection (semanticField (read_node e n)) S nb
            = false
            /\ (is_successor n S \/ is_semantic_branch n S)).
    { split; [reflexivity|]. split; [exact Hen|].
      split; [rewrite <- Hf1; exact Hcheck|]. left.
      eexists e1, _, nb. reflexivity. }
    assert (HSid : id S = node_id (length (nodes e) + 0)).
    { subst S. cbn [id successor_candidate]. rewrite Hn1. f_equal. lia. }
    destruct (ltb (branchDraw rnd) _ && ltb 50 (energy n)).
    + assert (Hspec := createSemanticBranch_spec e2 n nb).
      destruct (createSemanticBranch e2 n nb) as [e' [b|]].
      * destruct Hspec as (Hn & Hf & Hid & Hp & Hkind & Hc).
        exists [S; b]. cbn [fst snd]. rewrite Hn, Hn2, <- app_assoc.
        split; [reflexivity|].
        split.
        { intros i c Hi. destruct i as [|[|[|i]]]; try discriminate.
          - injection Hi as <-. exact HSid.
          - injection Hi as <-. rewrite Hid, Hn2, length_app. reflexivity. }
        split.
        { intros c [<-|[<-|[]]]; apply in_or_app.
          - left. apply in_or_app. right. left. reflexivity.
          - right. left. reflexivity. }
        intros c [<-|[<-|[]]]; [exact HS|].
        split; [exact Hp|]. split; [exact Hen|].
        split; [rewrite <- Hf1, <- Hf2; exact Hc|]. right. exact Hkind.
      * subst e'. exists [S]. cbn [fst snd]. split; [exact Hn2|].
        split.
        { intros i c Hi. destruct i as [|[|i]]; try discriminate.
          injection Hi as <-. exact HSid. }
        split.
        { intros c [<-|[]]. apply in_or_app. right. left. reflexivity. }
        intros c [<-|[]]. exact HS.
    + exists [S]. cbn [fst snd]. split; [exact Hn2|].
      split.
      { intros i c Hi. destruct i as [|[|i]]; try discriminate.
        injection Hi as <-. exact HSid. }
      split.
      { intros c [<-|[]]. apply in_or_app. right. left. reflexivity. }
      intros c [<-|[]]. exact HS.
Qed.

(** *** What one tick creates *)

(** The energy that each way of making a node gives it. *)
Lemma successor_energy p c :
  is_successor p c ->
  exists decay, 0.1 <= decay <= 1 /\ energy c = Rmax 0 (energy p - decay).
Proof.
  intros (e & rnd & nb & ->). exists (calculateEnergyDecay e p nb).
  split; [apply calculateEnergyDecay_bounds|reflexivity].
Qed.

Lemma semantic_branch_energy p c :
  is_semantic_branch p c -> energy c = Rmax 0 (energy p * 0.8).
Proof. intros (e & dir & ->). reflexivity. Qed.

Lemma physical_branch_energy p c :
  is_physical_branch p c -> energy c = Rmax 0 (energy p * 0.7).
Proof. intros (e & rnd & ->). reflexivity. Qed.

Lemma child_energy_of_kind p c :
  is_successor p c \/ is_semantic_branch p c \/ is_physical_branch p c ->
  child_energy p c.
Proof.
  intros [Hs|[Hb|Hb]].
  - left. apply successor_energy. exact Hs.
  - right. left. apply semantic_branch_energy. exact Hb.
  - right. right. apply physical_branch_energy. exact Hb.
Qed.

Lemma child_energy_bounds p c :
  0 < energy p -> child_energy p c -> 0 <= energy c <= energy p.
Proof.
  intros Hp [(decay & Hd & ->)|[->| ->]]; unfold Rmax;
    destruct (Rle_dec _ _); split; lra.
Qed.

Lemma grow_fold_created env (entries : list (nat * node)) :
  forall e q,
    exists created,
      nodes (fst (fold_left
        (fun acc (entry : nat * node) =>
          grow_node (draws_of env (fst entry)) acc (snd entry))
          entries (e, q)))
        = nodes e ++ created
      /\ forall c, In c created ->
         exists p, In p (map snd entries) /\ parent c = Some (id p)
         /\ 0 < energy p
         /\ (is_successor p c \/ is_semantic_branch p c).
Proof.
  induction entries as [|[k n] entries IH]; intros e q; cbn [fold_left fst snd].
  - exists []. rewrite app_nil_r. split; [reflexivity|intros c []].
  - destruct (grow_node_created (draws_of env k) e q n)
      as (created1 & Hn1 & _ & _ & Hc1).
    destruct (grow_node (draws_of env k) (e, q) n) as [e' q'].
    simpl in Hn1.
    destruct (IH e' q') as (created2 & Hn2 & Hc2).
    exists (created1 ++ created2). rewrite Hn2, Hn1, app_assoc.
    split; [reflexivity|].
    intros c Hin. apply in_app_or in Hin. destruct Hin as [Hin|Hin].
    + destruct (Hc1 c Hin) as (Hp & Hen & _ & He).
      exists n. split; [left; reflexivity|]. split; [exact Hp|].
      split; [exact Hen|exact He].
    + destruct (Hc2 c Hin) as (p & Hpin & Hrest).
      exists p. split; [right; exact Hpin|exact Hrest].
Qed.

Lemma queue_performMemoryCleanup e :
  growthQueue (performMemoryCleanup e) = growthQueue e.
Proof.
  unfold performMemoryCleanup.
  destruct (maxNodes e <? _)%nat; simpl;
    match goal with |- context [if ?b then _ else _] => destruct b end;
    reflexivity.
Qed.

Lemma nodes_performMemoryCleanup e :
  nodes (performMemoryCleanup e)
    = if (maxNodes e <? length (nodes e))%nat
      then skipn (length (nodes e) - SemanticField.keepCount (maxNodes e))
          (nodes e)
      else nodes e.
Proof.
  unfold performMemoryCleanup.
  destruct (maxNodes e <? _)%nat; simpl;
    match goal with |- context [if ?b then _ else _] => destruct b end;
    reflexivity.
Qed.

Lemma grow_created env e :
  exists kept created,
    nodes (grow env e) = kept ++ created
    /\ (kept = nodes e \/ kept = nodes (performMemoryCleanup e))
    /\ forall c, In c created ->
       exists p, In p (growthQueue e) /\ parent c = Some (id p)
       /\ 0 < energy p
       /\ (is_successor p c \/ is_semantic_branch p c).
Proof.
  unfold grow.
  destruct (negb (isGrowing e) || _).
  { exists (nodes e), []. rewrite app_nil_r.
    split; [reflexivity|]. split; [left; reflexivity|intros c []]. }
  set (e1 := if (maxNodes e <=? _)%nat then performMemoryCleanup e else e).
  assert (Hq : growthQueue e1 = growthQueue e).
  { subst e1. destruct (_ <=? _)%nat; [apply queue_performMemoryCleanup|reflexivity]. }
  assert (Hk : nodes e1 = nodes e \/ nodes e1 = nodes (performMemoryCleanup e)).
  { subst e1. destruct (_ <=? _)%nat; auto. }
  destruct (grow_fold_created env
            (combine (seq 0 (length (growthQueue e1))) (growthQueue e1)) e1 [])
    as (created & Hn & Hc).
  destruct (fold_left _ _ (e1, [])) as [e2 newQueue]. simpl in Hn.
  exists (nodes e1), created.
  split.
  { destruct (_ =? 0)%nat; [destruct (observed env)|]; simpl; exact Hn. }
  split; [exact Hk|].
  intros c Hin. destruct (Hc c Hin) as (p & Hp & Hrest).
  exists p. split; [|exact Hrest].
  rewrite <- Hq. apply in_map_iff in Hp. destruct Hp as ([k p'] & <- & Hp).
  apply in_combine_r in Hp. exact Hp.
Qed.

(** *** The direction of a branch without neighbours *)

Lemma atan2_sin_cos (a : R) :
  - (PI / 2) < a < PI / 2 -> atan2 (sin a) (cos a) = a.
Proof.
  intros Ha. unfold atan2.
  assert (Hc : 0 < cos a) by (apply cos_gt_0; lra).
  destruct (Rlt_dec 0 (cos a)) as [_|Hn]; [|contradiction].
  change (sin a / cos a) with (tan a). apply atan_tan. exact Ha.
Qed.

(** The interest of a direction when there is no neighbour. *)
Lemma interest_no_neighbours sf p a :
  char p <> [] -> - (PI / 2) < a < PI / 2 ->
  calculateSemanticInterest sf p (cos a, sin a) [] = Rmax 0 (sin (a * 3) * 0.3).
Proof.
  intros Hc Ha. unfold calculateSemanticInterest.
  destruct (char p); [contradiction Hc; reflexivity|].
  cbn [fold_left fst snd]. rewrite (atan2_sin_cos a Ha). f_equal. ring.
Qed.

Lemma interest_le sf p dir :
  calculateSemanticInterest sf p dir [] <= 0.3.
Proof.
  unfold calculateSemanticInterest. destruct (char p); [lra|].
  cbn [fold_left].
  assert (Hs := SIN_bound (atan2 (snd dir) (fst dir) * 3)).
  unfold Rmax. destruct (Rle_dec _ _); lra.
Qed.

Lemma best_direction_stays sf p (l : list R) dir :
  fold_left (fun acc angle =>
    let testDir := (cos angle, sin angle) in
    let interest := calculateSemanticInterest sf p testDir [] in
    if ltb (snd acc) interest then (Some testDir, interest) else acc)
    l (Some dir, 0.3) = (Some dir, 0.3).
Proof.
  induction l as [|a l IH]; cbn [fold_left]; [reflexivity|].
  cbv zeta. cbn [snd].
  assert (Hle := interest_le sf p (cos a, sin a)).
  apply ltb_false in Hle. rewrite Hle. exact IH.
Qed.

Lemma sin_PI4_lt_1 : 0 < sin (PI / 4) < 1.
Proof.
  rewrite sin_PI4.
  assert (H2 : 1 < sqrt 2).
  { rewrite <- sqrt_1 at 1. apply sqrt_lt_1; lra. }
  split.
  - apply Rdiv_lt_0_compat; lra.
  - apply (Rmult_lt_reg_r (sqrt 2)); [lra|]. field_simplify; lra.
Qed.

Lemma scan_angles_12 :
  scan_angles 12
    = 0 :: PI / 12 :: PI / 6
        :: map (fun k => INR k * (PI / INR 12)) (seq 3 21).
Proof.
  unfold scan_angles.
  replace (seq 0 (2 * 12)) with (0 :: 1 :: 2 :: seq 3 21)%nat by reflexivity.
  rewrite !map_cons. f_equal; [|f_equal; [|f_equal]].
  - rewrite Rmult_0_l. reflexivity.
  - rewrite (INR_IZR_INZ 12), (INR_IZR_INZ 1).
    change (Z.of_nat 12) with 12%Z. change (Z.of_nat 1) with 1%Z. field.
  - rewrite (INR_IZR_INZ 12), (INR_IZR_INZ 2).
    change (Z.of_nat 12) with 12%Z. change (Z.of_nat 2) with 2%Z. field.
Qed.

(** One step of the search for the best direction. *)
Lemma best_direction_take sf p nb (acc : option (R * R) * R) a :
  ltb (snd acc) (calculateSemanticInterest sf p (cos a, sin a) nb) = true ->
  (let testDir := (cos a, sin a) in
   let interest := calculateSemanticInterest sf p testDir nb in
   if ltb (snd acc) interest then (Some testDir, interest) else acc)
    = (Some (cos a, sin a), calculateSemanticInterest sf p (cos a, sin a) nb).
Proof. intros E. cbv zeta. rewrite E. reflexivity. Qed.

Lemma best_direction_keep sf p nb (acc : option (R * R) * R) a :
  ltb (snd acc) (calculateSemanticInterest sf p (cos a, sin a) nb) = false ->
  (let testDir := (cos a, sin a) in
   let interest := calculateSemanticInterest sf p testDir nb in
   if ltb (snd acc) interest then (Some testDir, interest) else acc)
    = acc.
Proof. intros E. cbv zeta. rewrite E. reflexivity. Qed.

Lemma fold_left_step {A B} (f : A -> B -> A) (x : B) (l : list B) (a : A) :
  fold_left f (x :: l) a = fold_left f l (f a x).
Proof. reflexivity. Qed.

Lemma interest_0 sf p : char p <> [] ->
calculateSemanticInterest sf p (cos 0, sin 0) [] = 0.
Proof.
  intros Hc. assert (Hpi := PI_RGT_0).
  rewrite interest_no_neighbours by (auto; lra).
  rewrite Rmult_0_l, sin_0, Rmult_0_l. apply Rmax_left. lra.
Qed.

Lemma interest_PI12 sf p : char p <> [] ->
calculateSemanticInterest sf p (cos (PI / 12), sin (PI / 12)) []
  = sin (PI / 4) * 0.3.
Proof.
  intros Hc. assert (Hpi := PI_RGT_0).
  rewrite interest_no_neighbours by (auto; lra).
  replace (PI / 12 * 3) with (PI / 4) by field.
  apply Rmax_right. destruct sin_PI4_lt_1. lra.
Qed.

Lemma interest_PI6 sf p : char p <> [] ->
calculateSemanticInterest sf p (cos (PI / 6), sin (PI / 6)) [] = 0.3.
Proof.
  intros Hc. assert (Hpi := PI_RGT_0).
  rewrite interest_no_neighbours by (auto; lra).
  replace (PI / 6 * 3) with (PI / 2) by field.
  rewrite sin_PI2, Rmult_1_l. apply Rmax_right. lra.
Qed.

Lemma best_direction_no_neighbours sf p :
  char p <> [] ->
  best_direction sf p [] = (Some (cos (PI / 6), sin (PI / 6)), 0.3).
Proof.
  intros Hc. unfold best_direction. rewrite scan_angles_12.
  destruct sin_PI4_lt_1 as [Hs0 Hs1].
  rewrite fold_left_step, best_direction_keep.
  2:{ rewrite (interest_0 sf p Hc). apply ltb_false. simpl. lra. }
  rewrite fold_left_step, best_direction_take.
  2:{ rewrite (interest_PI12 sf p Hc). apply ltb_true. simpl. lra. }
  rewrite fold_left_step, best_direction_take.
  2:{ rewrite (interest_PI6 sf p Hc), (interest_PI12 sf p Hc).
      apply ltb_true. simpl. lra. }
  rewrite (interest_PI6 sf p Hc).
  apply best_direction_stays.
Qed.

(** *** The first tick of the engine with one seed *)

Lemma field_of_abcdef :
  SemanticField.analyzeSemanticStructure SemanticField.new text_abcdef
    = SemanticField.mk [] [] [] 500 1000 2000 1.
Proof. reflexivity. Qed.

Lemma new_engine_abcdef :
  OrganicLayout.new text_abcdef (Num 800) (Num 600)
    = OrganicLayout.mk text_abcdef 800 600 [] [] [] 0 false 1000 2000
        (SpatialIndex.mk 800 600 50 16 12 [] 0 [] 100 [])
        (SemanticField.mk [] [] [] 500 1000 2000 1) default_params.
Proof.
  unfold OrganicLayout.new.
  rewrite !num_or_nonzero by lra.
  rewrite !Rmax_right by lra.
  rewrite new_index_800_600.
  change (match text_abcdef with [] => default_text | _ :: _ => text_abcdef end)
    with text_abcdef.
  rewrite field_of_abcdef. reflexivity.
Qed.

Lemma seed_count_abcdef :
  floor (sqrt (INR (length text_abcdef)) / 5) = 0%Z.
Proof.
  apply floor_unique.
  assert (H6 : INR (length text_abcdef) = 6) by (simpl; lra).
  rewrite H6.
  assert (H0 : 0 <= sqrt 6) by apply sqrt_pos.
  assert (Hs : sqrt 6 * sqrt 6 = 6) by (apply sqrt_sqrt; lra).
  simpl. split; [lra|nra].
Qed.

Lemma engine_one_seed_reached :
  engine_one_seed
    = start (initialize (fun _ => mk_seed_draws 0 0.5 0.5)
             (OrganicLayout.new text_abcdef (Num 800) (Num 600))).
Proof.
  rewrite new_engine_abcdef. unfold initialize.
  cbn [text]. change (match text_abcdef with [] => _ | _ :: _ => ?x end) with x.
  rewrite seed_count_abcdef.
  change (Z.to_nat (Z.max 1 (Z.min 10 0))) with 1%nat.
  cbn [seq fold_left]. unfold add_seed.
  cbn [canvasWidth canvasHeight text nodes parameters initialEnergy
       default_params radiusDraw dxDraw dyDraw length spatialIndex].
  assert (Ha : INR 0 / INR 1 * PI * 2 = 0) by (simpl; lra).
  rewrite Ha.
  replace (0 + (0.5 - 0.5) * 0.5) with 0 by lra.
  rewrite cos_0, sin_0.
  replace (800 / 2 + 1 * (100 + 0 * 50)) with 500 by lra.
  replace (600 / 2 + 0 * (100 + 0 * 50)) with 300 by lra.
  change (Nat.min (0 * (length text_abcdef / 1)) (length text_abcdef - 1))
    with 0%nat.
  change (match char_at text_abcdef 0 with
          | [] => char_at text_abcdef 0
          | z :: l => z :: l
          end) with [97%Z].
  fold seed_0.
  unfold SpatialIndex.insert.
  cbn [item_position node_Indexable position seed_0 fst snd item_id id
       truthy_id node_id app].
  unfold SpatialIndex.findItemById.
  cbn [truthy_id SpatialIndex.grid JSMap.values map concat find].
  unfold SpatialIndex.getGridKey.
  cbn [SpatialIndex.cellSize SpatialIndex.gridWidth SpatialIndex.gridHeight].
  rewrite (floor_unique (500 / 50) 10) by (simpl; lra).
  rewrite (floor_unique (300 / 50) 6) by (simpl; lra).
  reflexivity.
Qed.

Lemma filter_all_false {A} (f : A -> bool) (l : list A) :
  (forall a, In a l -> f a = false) -> filter f l = [].
Proof.
  induction l as [|a l IH]; intros Hf; simpl; [reflexivity|].
  rewrite (Hf a) by (left; reflexivity). apply IH.
  intros b Hb. apply Hf. right. exact Hb.
Qed.

Lemma neighbours_one_seed : neighbours engine_one_seed seed_0 = [].
Proof.
  unfold neighbours. apply filter_all_false. intros m Hm.
  change (fst (position seed_0)) with 500 in Hm.
  change (snd (position seed_0)) with 300 in Hm.
  rewrite (query_miss (spatialIndex engine_one_seed) 500 300 50) in Hm
    by (lra || reflexivity).
  simpl fst in Hm. apply performQuery_sound in Hm. destruct Hm as [Hin _].
  destruct Hin as [<-|[]].
  apply negb_false_iff. apply eqb_true. reflexivity.
Qed.

Lemma checkSemanticIntersection_no_neighbours sf c :
  checkSemanticIntersection sf c [] = false.
Proof.
  unfold checkSemanticIntersection, checkIntersection. simpl.
  destruct (char c); reflexivity.
Qed.

Lemma getSemanticComplexity_nonneg sf w :
  0 <= SemanticField.getSemanticComplexity sf w.
Proof.
  unfold SemanticField.getSemanticComplexity.
  destruct w; [lra|]. destruct (JSMap.get _ _) as [connections|]; [|lra].
  assert (Hn := pos_INR (JSMap.size connections)).
  unfold Rmin. destruct (Rle_dec _ _); lra.
Qed.

Lemma branch_probability_no_neighbours e n :
  branchProbability (parameters e) = 0.15 ->
  0 < calculateSemanticBranchProbability e n [].
Proof.
  intros Hp. unfold calculateSemanticBranchProbability. rewrite Hp.
  destruct (char n); [lra|]. cbn [fold_left].
  assert (Hc := getSemanticComplexity_nonneg (semanticField e) (z :: j)).
  set (c := SemanticField.getSemanticComplexity _ _) in *.
  set (d := Rmin 1 _).
  assert (Hm : 0 <= Rmin 0.3 (c / 10)).
  { unfold Rmin. destruct (Rle_dec _ _); lra. }
  set (m := Rmin 0.3 (c / 10)) in *.
  replace (0 * d) with 0 by ring.
  unfold Rmax, Rmin.
  destruct (Rle_dec 0.8 _); destruct (Rle_dec 0 _); lra.
Qed.

(** The nodes that the loop of a tick adds take the numbers that follow
    the number of nodes at its start. *)
Lemma grow_fold_ids env (entries : list (nat * node)) :
  forall e q,
    exists created,
      nodes (fst (fold_left
        (fun acc (entry : nat * node) =>
          grow_node (draws_of env (fst entry)) acc (snd entry))
          entries (e, q)))
        = nodes e ++ created
      /\ forall i c, nth_error created i = Some c ->
         id c = node_id (length (nodes e) + i).
Proof.
  induction entries as [|[k n] entries IH]; intros e q; cbn [fold_left fst snd].
  - exists []. rewrite app_nil_r. split; [reflexivity|].
    intros [|i] c Hc; discriminate Hc.
  - destruct (grow_node_created (draws_of env k) e q n)
      as (created1 & Hn1 & Hid1 & _).
    destruct (grow_node (draws_of env k) (e, q) n) as [e' q'].
    cbn [fst] in Hn1.
    destruct (IH e' q') as (created2 & Hn2 & Hid2).
    exists (created1 ++ created2). rewrite Hn2, Hn1, app_assoc.
    split; [reflexivity|].
    intros i c Hc.
    destruct (Nat.lt_ge_cases i (length created1)) as [Hlt|Hge].
    + rewrite nth_error_app1 in Hc by exact Hlt. exact (Hid1 i c Hc).
    + rewrite nth_error_app2 in Hc by exact Hge.
      rewrite (Hid2 _ c Hc), Hn1, length_app. f_equal. lia.
Qed.

Lemma grow_created_ids env e :
  isGrowing e = true -> growthQueue e <> [] ->
  exists created,
    nodes (grow env e) = nodes (tick_start e) ++ created
    /\ forall i c, nth_error created i = Some c ->
       id c = node_id (length (nodes (tick_start e)) + i).
Proof.
  intros Hg Hq. unfold grow. rewrite Hg.
  destruct (growthQueue e) as [|n0 queue] eqn:Eq; [contradiction Hq; reflexivity|].
  cbn [negb length Nat.eqb orb]. fold (tick_start e).
  destruct (grow_fold_ids env
            (combine (seq 0 (length (growthQueue (tick_start e))))
             (growthQueue (tick_start e)))
            (tick_start e) [])
    as (created & Hn & Hid).
  destruct (fold_left _ _ (tick_start e, [])) as [e2 newQueue].
  cbn [fst] in Hn. exists created. split; [|exact Hid].
  destruct (_ =? 0)%nat; [destruct (observed env)|]; exact Hn.
Qed.

(** A tick on a queue of one entry: the nodes are those that the loop
    body leaves. *)
Lemma grow_single env e n :
  isGrowing e = true -> growthQueue e = [n] ->
  nodes (grow env e)
    = nodes (fst (grow_node (draws_of env 0) (tick_start e, []) n)).
Proof.
  intros Hg Hq. unfold grow. rewrite Hg, Hq.
  cbn [negb length Nat.eqb orb]. fold (tick_start e).
  assert (Hq1 : growthQueue (tick_start e) = [n]).
  { unfold tick_start. destruct (_ <=? _)%nat; [|exact Hq].
    rewrite queue_performMemoryCleanup. exact Hq. }
  rewrite Hq1. cbn [length seq combine fold_left fst snd].
  destruct (grow_node (draws_of env 0) (tick_start e, []) n) as [e2 q2].
  cbn [fst]. destruct (generation_count e2 mod 10 =? 0)%nat; [|reflexivity].
  destruct (observed env); reflexivity.
Qed.

Lemma parameters_read_node e n : parameters (read_node e n) = parameters e.
Proof. reflexivity. Qed.

Lemma text_read_node e n : text (read_node e n) = text e.
Proof. reflexivity. Qed.

Lemma parameters_addConnection e c : parameters (addConnection e c) = parameters e.
Proof.
  unfold addConnection. destruct (conn_from c); [reflexivity|].
  destruct (conn_to c); [reflexivity|].
  destruct (existsb _ _); reflexivity.
Qed.

Lemma curved_direction_with_index e idx n nearbyNodes draw :
  curved_direction (with_index e idx) n nearbyNodes draw
    = curved_direction e n nearbyNodes draw.
Proof. reflexivity. Qed.

(** The loop body of [grow] on an entry without neighbours whose
    branching test passes: the successor, in the curved direction, and a
    branch towards [PI / 6] are both created. *)
Lemma grow_node_no_neighbours rnd e q n :
  leb (energy n) 0 = false ->
  (length (text e) - 1 <=? textIndex n)%nat = false ->
  neighbours e n = [] ->
  char n <> [] ->
  branchProbability (parameters e) = 0.15 ->
  branchDraw rnd = 0 ->
  ltb 50 (energy n) = true ->
  exists s b,
    nodes (fst (grow_node rnd (e, q) n)) = nodes e ++ [s; b]
    /\ position s
      = (fst (position n)
         + fst (curved_direction e n [] (curveDraw rnd))
         * characterSpacing (parameters e),
         snd (position n)
           + snd (curved_direction e n [] (curveDraw rnd))
           * characterSpacing (parameters e))
    /\ position b
      = (fst (position n) + cos (PI / 6) * characterSpacing (parameters e),
         snd (position n) + sin (PI / 6) * characterSpacing (parameters e))
    /\ parent s = Some (id n) /\ parent b = Some (id n)
    /\ is_successor n s /\ is_semantic_branch n b.
Proof.
  intros Hen Htxt Hnb Hc Hp Hdraw H50. unfold grow_node.
  rewrite Hen, Htxt, Hnb, curved_direction_with_index. cbn [orb].
  set (e1 := read_node _ n).
  assert (Hp1 : parameters e1 = parameters e).
  { subst e1. rewrite parameters_read_node. reflexivity. }
  assert (Hn1 : nodes e1 = nodes e).
  { subst e1. rewrite nodes_read_node. reflexivity. }
  rewrite checkSemanticIntersection_no_neighbours.
  set (s := successor_candidate e1 _ n []).
  set (e2 := addConnection _ _).
  assert (Hp2 : parameters e2 = parameters e).
  { subst e2. rewrite parameters_addConnection. exact Hp1. }
  assert (Hn2 : nodes e2 = nodes e ++ [s]).
  { subst e2. rewrite nodes_addConnection. cbn [nodes with_nodes].
    rewrite Hn1. reflexivity. }
  assert (Hprob : ltb (branchDraw rnd)
          (calculateSemanticBranchProbability e2 n []) = true).
  { rewrite Hdraw. apply ltb_true. apply branch_probability_no_neighbours.
    rewrite Hp2. exact Hp. }
  rewrite Hprob, H50. cbn [andb].
  unfold createSemanticBranch.
  rewrite best_direction_no_neighbours by exact Hc.
  replace (leb 0.3 0) with false by (symmetry; apply leb_false; lra).
  rewrite checkSemanticIntersection_no_neighbours.
  set (b := branch_candidate e2 n _).
  exists s, b. split.
  { cbn [fst]. rewrite nodes_addConnection. cbn [nodes with_nodes].
    rewrite Hn2, <- app_assoc. reflexivity. }
  split.
  { subst s. unfold successor_candidate. cbn [position fst snd].
    rewrite Hp1. reflexivity. }
  split.
  { subst b. unfold branch_candidate. cbn [position fst snd].
    rewrite Hp2. reflexivity. }
  split; [reflexivity|]. split; [reflexivity|]. split.
  - unfold is_successor. eexists e1, _, _. reflexivity.
  - unfold is_semantic_branch. eexists e2, _. reflexivity.
Qed.

Lemma sqrt3_bounds : 1.73 < sqrt 3 < 1.74.
Proof.
  assert (H0 : 0 <= sqrt 3) by apply sqrt_pos.
  assert (Hs : sqrt 3 * sqrt 3 = 3) by (apply sqrt_sqrt; lra).
  split; nra.
Qed.

(** *** The direction of the first successor *)

Lemma normalizeVector_scaled (k x y : R) :
  0 < k -> x * x + y * y = 1 -> normalizeVector (k * x, k * y) = (x, y).
Proof.
  intros Hk Hxy. unfold normalizeVector. cbn [fst snd].
  replace (k * x * (k * x) + k * y * (k * y)) with (k * k) by nra.
  rewrite sqrt_square by lra.
  assert (E : ltb 0 k = true) by (apply ltb_true; exact Hk).
  rewrite E. f_equal; field; lra.
Qed.

(** Without neighbours the growth direction is the velocity of the
    node, here the unit vector along the x axis. *)
Lemma growth_direction_seed_0 :
  calculateSemanticGrowthDirection engine_one_seed seed_0 [] = (1, 0).
Proof.
  unfold calculateSemanticGrowthDirection, calculateGrowthDirection.
  cbn [fold_left velocity seed_0 fst snd].
  replace (1 * 1 + 0 * 0) with 1 by ring. rewrite sqrt_1.
  assert (E : ltb 0 1 = true) by (apply ltb_true; lra).
  rewrite E. cbn [fst snd].
  cbn [parameters engine_one_seed semanticGravity default_params].
  replace (1 / 1 * (1 - 0.6) + 0) with (0.4 * 1) by lra.
  replace (0 / 1 * (1 - 0.6) + 0) with (0.4 * 0) by lra.
  apply normalizeVector_scaled; lra.
Qed.

Lemma cognitive_load_seed_0 :
  SemanticField.calculateCognitiveLoad (semanticField engine_one_seed) [97%Z]
    = 2 / 3.
Proof.
  unfold SemanticField.calculateCognitiveLoad,
    SemanticField.getSemanticComplexity, SemanticField.getContextualLoad.
  cbn [semanticField engine_one_seed SemanticField.semanticGraph
       SemanticField.readingHistory JSMap.get length INR].
  rewrite Rmult_0_l. rewrite (Rmin_right 1 0) by lra.
  replace ((1 + 1 + 0) / 3) with (2 / 3) by field.
  apply clamp_fixed. lra.
Qed.

(** The embodied direction of the first reading: the attention vector is
    [(1, 1)], the node seeing itself only, and the gesture vector has
    components within 0.3 of zero. *)
Lemma embodied_direction_seed_0 :
  exists ex ey,
    embodied_direction engine_one_seed seed_0 = (ex, ey)
    /\ 0.32 <= ex <= 0.48 /\ 0.32 <= ey <= 0.48.
Proof.
  unfold embodied_direction, simulate, SemanticField.simulateReadingBody.
  cbn [char seed_0 id position nodes engine_one_seed map fst].
  rewrite cognitive_load_seed_0.
  assert (Hfocus : SemanticField.calculateAttentionFocus (500, 300) [(500, 300)]
          = [(500, 300)]).
  { unfold SemanticField.calculateAttentionFocus. cbn [filter fst snd].
    replace ((500 - 500) * (500 - 500) + (300 - 300) * (300 - 300))
      with 0 by ring.
    rewrite sqrt_0.
    assert (E : ltb 0 120 = true) by (apply ltb_true; lra).
    rewrite E. reflexivity. }
  rewrite Hfocus.
  unfold SemanticField.calculateEmbodiedDirection,
    SemanticField.calculateAttentionVector, SemanticField.calculateGestureVector.
  cbn [fold_left length INR fst snd].
  rewrite (clamp_above (-1) 1 ((0 + 500) / 1 * 0.01)) by lra.
  rewrite (clamp_above (-1) 1 ((0 + 300) / 1 * 0.01)) by lra.
  rewrite or_default_0.
  rewrite (clamp_fixed 0.1 1 (1 - 2 / 3 * 0.5)) by lra.
  set (h := IZR (SemanticField.simpleHash [97%Z])).
  assert (Hc := COS_bound h). assert (Hs := SIN_bound h).
  rewrite (clamp_fixed (-1) 1 (cos h * 0.3)) by lra.
  rewrite (clamp_fixed (-1) 1 (sin h * 0.3)) by lra.
  rewrite (clamp_fixed (-1) 1
           ((1 * 0.6 + cos h * 0.3 * 0.4) * (1 - 2 / 3 * 0.5))) by nra.
  rewrite (clamp_fixed (-1) 1
           ((1 * 0.6 + sin h * 0.3 * 0.4) * (1 - 2 / 3 * 0.5))) by nra.
  eexists _, _. split; [reflexivity|]. split; nra.
Qed.

Lemma getSemanticComplexity_read_node e n w :
  SemanticField.getSemanticComplexity (semanticField (read_node e n)) w
    = SemanticField.getSemanticComplexity (semanticField e) w.
Proof.
  unfold SemanticField.getSemanticComplexity. rewrite graph_read_node.
  reflexivity.
Qed.

Lemma curvature_seed_0 :
  calculateSemanticCurvature (read_node engine_one_seed seed_0) seed_0 []
    = 0.02.
Proof.
  unfold calculateSemanticCurvature.
  rewrite getSemanticComplexity_read_node, parameters_read_node.
  cbn [parameters engine_one_seed initialEnergy default_params energy seed_0
       char fold_left].
  unfold SemanticField.getSemanticComplexity.
  cbn [semanticField engine_one_seed SemanticField.semanticGraph JSMap.get].
  replace ((100 - 100) / 100) with 0 by lra.
  rewrite (Rmax_left 0 0) by lra.
  rewrite (Rmin_right 1 (1 / 10)) by lra.
  replace (0 + 0 * 0.3 + 1 / 10 * 0.2) with 0.02 by lra.
  apply clamp_fixed. lra.
Qed.

(** [applyCurvature] with the draw 0.5 keeps the angle of a direction in
    the right half-plane. *)
Lemma applyCurvature_unbent (x y curvature : R) :
  0 < x ->
  applyCurvature (x, y) curvature 0.5 = (cos (atan (y / x)), sin (atan (y / x))).
Proof.
  intros Hx. unfold applyCurvature, atan2. cbn [fst snd].
  destruct (Rlt_dec 0 x) as [_|Hn]; [|contradiction].
  replace (atan (y / x) + (0.5 - 0.5) * Rmax 0 (Rmin 1 (or_default curvature 0)) * PI)
    with (atan (y / x)) by ring.
  reflexivity.
Qed.

Lemma atan_between (t : R) :
  1 / sqrt 3 <= t <= sqrt 3 -> PI / 6 <= atan t <= PI / 3.
Proof.
  intros [Hlo Hhi]. assert (Hpi := PI_RGT_0).
  assert (H6 : atan (1 / sqrt 3) = PI / 6).
  { rewrite <- tan_PI6. apply atan_tan. split; lra. }
  assert (H3 : atan (sqrt 3) = PI / 3).
  { rewrite <- tan_PI3. apply atan_tan. split; lra. }
  split.
  - rewrite <- H6. destruct Hlo as [Hlt| ->]; [|lra].
    left. apply atan_increasing. exact Hlt.
  - rewrite <- H3. destruct Hhi as [Hlt| ->]; [|lra].
    left. apply atan_increasing. exact Hlt.
Qed.

(** The first successor of [seed_0] is placed at an angle between
    [PI / 6] and [PI / 3]. *)
Lemma curved_direction_seed_0 :
  exists a,
    PI / 6 <= a <= PI / 3
    /\ curved_direction engine_one_seed seed_0 [] 0.5 = (cos a, sin a).
Proof.
  unfold curved_direction.
  rewrite growth_direction_seed_0, curvature_seed_0.
  destruct embodied_direction_seed_0 as (ex & ey & -> & Hex & Hey).
  unfold applyInterferencePattern.
  cbn [parameters read_node with_field engine_one_seed interferenceAmplitude
       embodimentFactor default_params generation textIndex seed_0 INR
       fst snd].
  replace (0 * 0.1 + 0 * 0.05) with 0 by ring.
  rewrite (Rmult_0_l 1.3), sin_0, cos_0.
  set (rx := 1 * (1 - 0.7) + ex * 0.7 + 0 * 0.4).
  set (ry := 0 * (1 - 0.7) + ey * 0.7 + 1 * 0.4).
  assert (Hrx : 0.524 <= rx <= 0.636) by (subst rx; lra).
  assert (Hry : 0.624 <= ry <= 0.736) by (subst ry; lra).
  unfold normalizeVector. cbn [fst snd].
  set (m := sqrt (rx * rx + ry * ry)).
  assert (Hm : 0 < m).
  { subst m. apply sqrt_lt_R0. nra. }
  assert (E : ltb 0 m = true) by (apply ltb_true; exact Hm).
  rewrite E.
  rewrite applyCurvature_unbent by (apply Rdiv_lt_0_compat; lra).
  replace (ry / m / (rx / m)) with (ry / rx) by (field; lra).
  exists (atan (ry / rx)). split; [|reflexivity].
  apply atan_between.
  assert (H3 := sqrt3_bounds).
  assert (Hinv : 1 / sqrt 3 <= 0.6).
  { apply (Rmult_le_reg_r (sqrt 3)); [lra|]. field_simplify; lra. }
  split.
  - apply (Rle_trans _ 0.6); [exact Hinv|].
    apply (Rmult_le_reg_r rx); [lra|]. field_simplify; lra.
  - apply (Rmult_le_reg_r rx); [lra|]. field_simplify; nra.
Qed.

Lemma sibling_positions :
  exists a s b,
    PI / 6 <= a <= PI / 3
    /\ nodes (grow first_tick engine_one_seed) = [seed_0; s; b]
    /\ position s = (500 + cos a * 18, 300 + sin a * 18)
    /\ position b = (500 + cos (PI / 6) * 18, 300 + sin (PI / 6) * 18)
    /\ parent s = Some (id seed_0) /\ parent b = Some (id seed_0)
    /\ is_successor seed_0 s /\ is_semantic_branch seed_0 b.
Proof.
  destruct curved_direction_seed_0 as (a & Ha & Hdir).
  rewrite (grow_single first_tick engine_one_seed seed_0) by reflexivity.
  change (tick_start engine_one_seed) with engine_one_seed.
  destruct (grow_node_no_neighbours (draws_of first_tick 0)
            engine_one_seed [] seed_0)
    as (s & b & Hn & Hs & Hb & Hp).
  - apply leb_false. cbn [energy seed_0]. lra.
  - reflexivity.
  - exact neighbours_one_seed.
  - discriminate.
  - reflexivity.
  - reflexivity.
  - apply ltb_true. cbn [energy seed_0]. lra.
  - exists a, s, b. split; [exact Ha|]. split; [exact Hn|].
    split; [|split; [exact Hb|exact Hp]].
    rewrite Hs. cbn [draws_of first_tick curveDraw]. rewrite Hdir.
    reflexivity.
Qed.


(** A successor placed at an angle between [PI / 6] and [PI / 3] is less
    than 15 units from a branch placed at [PI / 6], for the spacing 18. *)
Lemma sibling_distance (x y a : R) :
  PI / 6 <= a <= PI / 3 ->
  getDistance (x + cos a * 18, y + sin a * 18)
    (x + cos (PI / 6) * 18, y + sin (PI / 6) * 18) < 15.
Proof.
  intros [Hlo Hhi]. assert (Hpi := PI_RGT_0).
  assert (Hcos : cos (PI / 6) <= cos (a - PI / 6)).
  { apply cos_decr_1; lra. }
  rewrite cos_minus in Hcos.
  assert (Ha := sin2_cos2 a). unfold Rsqr in Ha.
  assert (H3 := sqrt3_bounds).
  assert (Hs3 : sqrt 3 * sqrt 3 = 3) by (apply sqrt_sqrt; lra).
  unfold getDistance. cbn [fst snd].
  rewrite cos_PI6 in *. rewrite sin_PI6 in *.
  set (c := cos a) in *. set (s := sin a) in *. set (r3 := sqrt 3) in *.
  set (d2 := (x + c * 18 - (x + r3 / 2 * 18)) * (x + c * 18 - (x + r3 / 2 * 18))
       + (y + s * 18 - (y + 1 / 2 * 18)) * (y + s * 18 - (y + 1 / 2 * 18))).
  assert (Hnn : 0 <= d2).
  { subst d2. apply Rplus_le_le_0_compat; apply Rle_0_sqr. }
  assert (Hd2 : d2 = 324 * (2 - (r3 * c + s)) + 324 * (s * s + c * c - 1)
          + 81 * (r3 * r3 - 3)) by (subst d2; field).
  rewrite Ha, Hs3 in Hd2.
  apply sqrt_lt_iff; [exact Hnn|lra|nra].
Qed.

(** *** Sequential ids *)

Lemma map_id_seq (l : list node) :
  forall k,
    (forall i c, nth_error l i = Some c -> id c = node_id (k + i)) ->
    map id l = map node_id (seq k (length l)).
Proof.
  induction l as [|a l IH]; intros k Hid; cbn [map length seq]; [reflexivity|].
  f_equal.
  - rewrite (Hid 0%nat a eq_refl). f_equal. lia.
  - apply IH. intros i c Hi. rewrite (Hid (S i) c Hi). f_equal. lia.
Qed.

Lemma ids_sequential_nodes e e' :
  nodes e' = nodes e -> ids_sequential e -> ids_sequential e'.
Proof. unfold ids_sequential. intros ->. auto. Qed.

(** New nodes that take the next free numbers keep the ids sequential. *)
Lemma ids_sequential_app e e' created :
  ids_sequential e ->
  nodes e' = nodes e ++ created ->
  (forall i c, nth_error created i = Some c ->
   id c = node_id (length (nodes e) + i)) ->
  ids_sequential e'.
Proof.
  unfold ids_sequential. intros Hseq -> Hid.
  rewrite map_app, length_app, seq_app, map_app, Hseq. f_equal.
  apply map_id_seq. exact Hid.
Qed.

Lemma ids_sequential_new txt w h : ids_sequential (OrganicLayout.new txt w h).
Proof. reflexivity. Qed.

Lemma ids_sequential_add_seed seedCount rnd e i :
  ids_sequential e -> ids_sequential (add_seed seedCount rnd e i).
Proof.
  intros Hseq.
  assert (Hadd : exists seed,
          nodes (add_seed seedCount rnd e i) = nodes e ++ [seed]
          /\ id seed = node_id (length (nodes e))).
  { unfold add_seed. cbn [nodes with_queue with_nodes].
    eexists. split; reflexivity. }
  destruct Hadd as (seed & Hn & Hid).
  apply (ids_sequential_app e _ [seed] Hseq Hn).
  intros [|j] c Hc; [|destruct j; discriminate Hc].
  injection Hc as <-. rewrite Hid. f_equal. lia.
Qed.

Lemma ids_sequential_initialize rnd e :
  ids_sequential e -> ids_sequential (initialize rnd e).
Proof.
  intros Hseq. unfold initialize. destruct (text e); [exact Hseq|].
  set (seedCount := Z.to_nat _).
  generalize (seq 0 seedCount). intros l. revert e Hseq.
  induction l as [|i l IH]; intros e Hseq; cbn [fold_left]; [exact Hseq|].
  apply IH. apply ids_sequential_add_seed. exact Hseq.
Qed.

Lemma ids_sequential_grow_node rnd e q n :
  ids_sequential e -> ids_sequential (fst (grow_node rnd (e, q) n)).
Proof.
  intros Hseq.
  destruct (grow_node_created rnd e q n) as (created & Hn & Hid & _).
  exact (ids_sequential_app e _ created Hseq Hn Hid).
Qed.

Lemma ids_sequential_grow_fold env (entries : list (nat * node)) :
  forall e q,
    ids_sequential e ->
    ids_sequential (fst (fold_left
      (fun acc (entry : nat * node) =>
        grow_node (draws_of env (fst entry)) acc (snd entry))
        entries (e, q))).
Proof.
  induction entries as [|[k n] entries IH]; intros e q Hseq;
    cbn [fold_left fst snd]; [exact Hseq|].
  assert (Hstep := ids_sequential_grow_node (draws_of env k) e q n Hseq).
  destruct (grow_node (draws_of env k) (e, q) n) as [e' q'].
  apply IH. exact Hstep.
Qed.

(** Until a tick starts above the cap, the ids are [node_0], [node_1],
    ... in order. *)
Lemma ids_sequential_grow env e :
  (length (nodes e) <= maxNodes e)%nat ->
  ids_sequential e -> ids_sequential (grow env e).
Proof.
  intros Hlen Hseq. unfold grow.
  destruct (negb (isGrowing e) || _); [exact Hseq|].
  set (e1 := if (maxNodes e <=? _)%nat then performMemoryCleanup e else e).
  assert (H1 : ids_sequential e1).
  { apply (ids_sequential_nodes e); [|exact Hseq].
    subst e1. destruct (_ <=? _)%nat; [|reflexivity].
    rewrite nodes_performMemoryCleanup.
    destruct (maxNodes e <? length (nodes e))%nat eqn:E; [|reflexivity].
    apply Nat.ltb_lt in E. lia. }
  assert (H2 := ids_sequential_grow_fold env
          (combine (seq 0 (length (growthQueue e1))) (growthQueue e1))
          e1 [] H1).
  destruct (fold_left _ _ (e1, [])) as [e2 newQueue]. cbn [fst] in H2.
  apply (ids_sequential_nodes e2); [|exact H2].
  destruct (_ =? 0)%nat; [destruct (observed env)|]; reflexivity.
Qed.

(** *** A tick after the cleanup *)

Lemma text_performMemoryCleanup e : text (performMemoryCleanup e) = text e.
Proof.
  unfold performMemoryCleanup.
  destruct (maxNodes e <? _)%nat; simpl;
    match goal with |- context [if ?b then _ else _] => destruct b end;
    reflexivity.
Qed.

Lemma In_skipn {A} (k : nat) (l : list A) (a : A) :
  In a (skipn k l) -> In a l.
Proof.
  intros Hin. rewrite <- (firstn_skipn k l). apply in_or_app. right. exact Hin.
Qed.

Lemma spatialIndex_performMemoryCleanup e :
  (maxNodes e <? length (nodes e))%nat = true ->
  spatialIndex (performMemoryCleanup e)
    = fold_left (fun idx n => snd (SpatialIndex.insert idx n))
        (skipn (length (nodes e) - SemanticField.keepCount (maxNodes e))
         (nodes e))
        (SpatialIndex.clear (spatialIndex e)).
Proof.
  intros Hlt. unfold performMemoryCleanup. rewrite Hlt.
  match goal with |- context [if ?b then _ else _] => destruct b end;
    reflexivity.
Qed.

(** A queue entry without neighbours that may grow has its successor
    created. *)
Lemma grow_node_adds_successor rnd e q n :
  leb (energy n) 0 = false ->
  (length (text e) - 1 <=? textIndex n)%nat = false ->
  neighbours e n = [] ->
  (length (nodes e) < length (nodes (fst (grow_node rnd (e, q) n))))%nat.
Proof.
  intros Hen Htxt Hnb. unfold grow_node.
  rewrite Hen, Htxt, Hnb. cbn [orb].
  set (e1 := read_node _ n).
  assert (Hn1 : nodes e1 = nodes e).
  { subst e1. rewrite nodes_read_node. reflexivity. }
  rewrite checkSemanticIntersection_no_neighbours.
  set (s := successor_candidate e1 _ n []).
  set (e2 := addConnection _ _).
  assert (Hn2 : nodes e2 = nodes e ++ [s]).
  { subst e2. rewrite nodes_addConnection. cbn [nodes with_nodes].
    rewrite Hn1. reflexivity. }
  destruct (ltb (branchDraw rnd) _ && ltb 50 (energy n)).
  - assert (Hspec := createSemanticBranch_spec e2 n []).
    destruct (createSemanticBranch e2 n []) as [e' [b|]].
    + destruct Hspec as (Hn & _). cbn [fst].
      rewrite Hn, Hn2, !length_app. cbn [length]. lia.
    + subst e'. cbn [fst]. rewrite Hn2, length_app. cbn [length]. lia.
  - cbn [fst]. rewrite Hn2, length_app. cbn [length]. lia.
Qed.

Lemma engine_crowded_length : length (nodes engine_crowded) = 1001%nat.
Proof.
  unfold engine_crowded. cbn [nodes].
  rewrite length_app, length_map, length_seq. reflexivity.
Qed.

Lemma tick_start_engine_crowded :
  tick_start engine_crowded = performMemoryCleanup engine_crowded.
Proof. unfold tick_start. rewrite engine_crowded_length. reflexivity. Qed.

(** After the cleanup of [engine_crowded] the index holds the kept nodes:
    those at the origin are far from [crowded_last], which is its own
    and only neighbour. *)
Lemma neighbours_crowded :
  neighbours (performMemoryCleanup engine_crowded) crowded_last = [].
Proof.
  unfold neighbours. apply filter_all_false. intros m Hm.
  change (fst (position crowded_last)) with 500 in Hm.
  change (snd (position crowded_last)) with 300 in Hm.
  rewrite spatialIndex_performMemoryCleanup in Hm
    by (rewrite engine_crowded_length; reflexivity).
  apply query_uncached_sound in Hm; [|apply fold_insert_cache; reflexivity].
  destruct Hm as [Hin (ix & iy & Hpos & Hdist)].
  apply fold_insert_all_items in Hin. destruct Hin as [[]|Hin].
  apply In_skipn in Hin. unfold engine_crowded in Hin. cbn [nodes] in Hin.
  apply in_app_or in Hin. destruct Hin as [Hin|[<-|[]]].
  - exfalso. apply in_map_iff in Hin. destruct Hin as (i & <- & _).
    injection Hpos as <- <-.
    apply sqrt_le_iff in Hdist; nra.
  - apply negb_false_iff. apply eqb_true. reflexivity.
Qed.

(** The tick of [engine_crowded] adds a node to the 800 that the cleanup
    keeps. *)
Lemma engine_crowded_grows :
  (length (nodes (performMemoryCleanup engine_crowded))
   < length (nodes (grow first_tick engine_crowded)))%nat.
Proof.
  rewrite (grow_single first_tick engine_crowded crowded_last)
    by reflexivity.
  rewrite tick_start_engine_crowded.
  apply grow_node_adds_successor.
  - apply leb_false. cbn [energy crowded_last]. lra.
  - rewrite text_performMemoryCleanup. reflexivity.
  - exact neighbours_crowded.
Qed.
End OrganicLayoutFacts.


(** ** Claims about the growth engine *)

Module OrganicLayoutClaims.
Import JSMath JSMathFacts JSMapFacts OrganicLayout OrganicLayoutFacts Scenarios.
Open Scope R_scope.

(** *** C8 *)

(** C8.  A successor has the energy of its parent less a decay between
    0.1 and 1, a branch has 0.8 times ([createSemanticBranch]) or 0.7
    times ([createBranch]) the energy of its parent, each floored at 0.
    Every node that a tick of [grow] adds is the successor or the branch
    of a node of the growth queue of that tick, which is its parent, and
    its energy is not negative and not above the parent's; the same holds
    for the node that [createBranch] adds.  So energy never increases
    from parent to child and is never negative. *)
Theorem energy_nonincreasing_along_lineage (env : tick_env) (e : OrganicLayout.t) :
  (forall p c, is_successor p c ->
   exists decay,
     0.1 <= decay <= 1 /\ energy c = Rmax 0 (energy p - decay))
  /\ (forall p c, is_semantic_branch p c ->
      energy c = Rmax 0 (energy p * 0.8))
  /\ (forall p c, is_physical_branch p c ->
      energy c = Rmax 0 (energy p * 0.7))
  /\ (exists kept created,
      nodes (grow env e) = kept ++ created
      /\ (kept = nodes e \/ kept = nodes (performMemoryCleanup e))
      /\ forall c, In c created ->
         exists p,
           In p (growthQueue e) /\ parent c = Some (id p)
           /\ (is_successor p c \/ is_semantic_branch p c)
           /\ 0 <= energy c <= energy p)
  /\ forall rnd p nearbyNodes,
     match createBranch e rnd p nearbyNodes with
     | (e', Some b) =>
         nodes e' = nodes e ++ [b] /\ parent b = Some (id p)
         /\ is_physical_branch p b
         /\ 0 <= energy b /\ (0 <= energy p -> energy b <= energy p)
     | (e', None) => e' = e
     end.
Proof.
  split; [exact successor_energy|].
  split; [exact semantic_branch_energy|].
  split; [exact physical_branch_energy|].
  split.
  - destruct (grow_created env e) as (kept & created & Hn & Hk & Hc).
    exists kept, created. split; [exact Hn|]. split; [exact Hk|].
    intros c Hin. destruct (Hc c Hin) as (p & Hp & Hpar & Hen & Hkind).
    exists p. split; [exact Hp|]. split; [exact Hpar|]. split; [exact Hkind|].
    apply child_energy_bounds; [exact Hen|].
    apply child_energy_of_kind. tauto.
  - intros rnd p nearbyNodes. unfold createBranch.
    destruct (checkIntersection _ _); [reflexivity|].
    rewrite nodes_addConnection. cbn [nodes with_nodes].
    split; [reflexivity|]. split; [reflexivity|].
    split; [exists e, rnd; reflexivity|].
    cbn [energy physical_branch_candidate].
    unfold Rmax. destruct (Rle_dec 0 (energy p * 0.7)); split; intros; lra.
Qed.

(** *** C7 *)

(** What the code does keep of the spacing.  The conflict test rejects a
    candidate exactly when it is closer than 15 units to a neighbour with
    another id, or some neighbour is at semantic distance below 0.3 and
    closer than 25 units.  Every node that the loop body of [grow]
    creates for a queue entry, the successor and the branch alike, has
    passed this test against the neighbours of the entry (what the index
    returned within 50 units of it, before the body created anything);
    it is at least 15 units from each of them that has another id. *)
Lemma created_nodes_passed_conflict_check
  (rnd : node_draws) (e : OrganicLayout.t) (q : list node) (n : node) :
  (forall sf c nearbyNodes,
   checkSemanticIntersection sf c nearbyNodes = true
   <-> conflicts sf c nearbyNodes)
  /\ exists created,
     nodes (fst (grow_node rnd (e, q) n)) = nodes e ++ created
     /\ forall c, In c created ->
        ~ conflicts (semanticField e) c (neighbours e n)
        /\ forall m, In m (neighbours e n) -> id m <> id c ->
           15 <= getDistance (position c) (position m).
Proof.
  split; [apply checkSemanticIntersection_true|].
  destruct (grow_node_created rnd e q n) as (created & Hn & _ & _ & Hc).
  exists created. split; [exact Hn|].
  intros c Hin. destruct (Hc c Hin) as (_ & _ & Hcheck & _).
  apply checkSemanticIntersection_false in Hcheck.
  assert (Hno : ~ conflicts (semanticField e) c (neighbours e n)).
  { intros Hconf. apply Hcheck.
    apply (conflicts_same_graph (semanticField e)); [|exact Hconf].
    symmetry. apply graph_read_node. }
  split; [exact Hno|].
  intros m Hm Hid.
  destruct (Rle_dec 15 (getDistance (position c) (position m))) as [Hle|Hlt];
    [exact Hle|].
  exfalso. apply Hno. left. exists m. repeat split; auto. lra.
Qed.

(** C7 fails on the code, between a successor and its sibling branch.
    The body of the loop of [grow] asks the index for the neighbours of
    a queue entry once, before it creates anything, and hands the same
    list to [createSemanticBranch] after it has pushed the successor: the
    branch of the ordinary branching step is never tested against the
    successor.  The engine of the text [abcdef] with its one seed at
    [(500, 300)] ([engine_one_seed_reached]), which has no neighbour,
    grows the successor of the seed at an angle between [PI / 6] and
    [PI / 3] when the draw of [applyCurvature] is 0.5, and then places the
    branch of [createSemanticBranch] in the most interesting of the 24
    directions, [PI / 6]: the two new nodes, neither of them made on the
    avoidance path, are less than 15 units apart. *)
Theorem sibling_branch_closer_than_15 :
  exists s b,
    nodes (grow first_tick engine_one_seed) = [seed_0; s; b]
    /\ neighbours engine_one_seed seed_0 = []
    /\ is_successor seed_0 s /\ is_semantic_branch seed_0 b
    /\ parent s = Some (id seed_0) /\ parent b = Some (id seed_0)
    /\ getDistance (position s) (position b) < 15.
Proof.
  destruct sibling_positions
    as (a & s & b & Ha & Hn & Hs & Hb & Hps & Hpb & Hks & Hkb).
  exists s, b. split; [exact Hn|]. split; [exact neighbours_one_seed|].
  split; [exact Hks|]. split; [exact Hkb|].
  split; [exact Hps|]. split; [exact Hpb|].
  rewrite Hs, Hb. apply sibling_distance. exact Ha.
Qed.

(** *** C4 *)

Lemma skipn_map_seq {A} (f : nat -> A) (k len : nat) :
  skipn k (map f (seq 0 len)) = map f (seq k (len - k)).
Proof.
  rewrite skipn_map. f_equal. rewrite skipn_seq. reflexivity.
Qed.

(** C4 fails on the code.  An id is [node_] followed by the number of
    nodes at the time of creation.  Once the nodes, so far [node_0] to
    [node_(n-1)], exceed the cap of 1000, the cleanup at the start of the
    next tick keeps the last 800 of them: the number of nodes is 800
    again, [node_800] is still among them, and the first node that the
    tick creates is given that id a second time. *)
Theorem node_id_reused_after_cleanup (env : tick_env) (e : OrganicLayout.t) :
  ids_sequential e ->
  maxNodes e = 1000%nat ->
  (1000 < length (nodes e) <= 1600)%nat ->
  isGrowing e = true ->
  growthQueue e <> [] ->
  exists created,
    nodes (grow env e) = nodes (performMemoryCleanup e) ++ created
    /\ length (nodes (performMemoryCleanup e)) = 800%nat
    /\ In (node_id 800) (map id (nodes (performMemoryCleanup e)))
    /\ (created <> [] -> ~ NoDup (map id (nodes (grow env e)))).
Proof.
  intros Hseq Hmax Hlen Hg Hq.
  set (e' := performMemoryCleanup e).
  assert (Hstart : tick_start e = e').
  { unfold tick_start. rewrite Hmax.
    replace (1000 <=? length (nodes e))%nat with true
      by (symmetry; apply Nat.leb_le; lia).
    reflexivity. }
  assert (Hnodes : nodes e' = skipn (length (nodes e) - 800) (nodes e)).
  { subst e'. rewrite nodes_performMemoryCleanup, Hmax.
    replace (1000 <? length (nodes e))%nat with true
      by (symmetry; apply Nat.ltb_lt; lia).
    reflexivity. }
  assert (Hids : map id (nodes e')
          = map node_id (seq (length (nodes e) - 800) 800)).
  { rewrite Hnodes, <- skipn_map, Hseq, skipn_map_seq. f_equal. f_equal. lia. }
  assert (H800 : In (node_id 800) (map id (nodes e'))).
  { rewrite Hids. apply in_map. apply in_seq. lia. }
  assert (Hl : length (nodes e') = 800%nat).
  { rewrite <- (length_map id), Hids, length_map, length_seq. reflexivity. }
  destruct (grow_created_ids env e Hg Hq) as (created & Hn & Hid).
  rewrite Hstart in Hn, Hid.
  exists created. split; [exact Hn|]. split; [exact Hl|]. split; [exact H800|].
  intros Hne Hnd. rewrite Hn in Hnd.
  destruct created as [|c created]; [contradiction Hne; reflexivity|].
  specialize (Hid 0%nat c eq_refl). rewrite Hl, Nat.add_0_r in Hid.
  rewrite map_app in Hnd. cbn [map] in Hnd.
  apply NoDup_remove_2 in Hnd. apply Hnd.
  apply in_or_app. left. rewrite Hid. exact H800.
Qed.

Lemma engine_crowded_sequential : ids_sequential engine_crowded.
Proof.
  unfold ids_sequential. rewrite engine_crowded_length.
  unfold engine_crowded. cbn [nodes].
  rewrite map_app, map_map. cbn [map id crowded_last].
  rewrite (seq_S 1000 0), map_app. reflexivity.
Qed.

Lemma node_id_reused_after_cleanup_witness :
  ~ NoDup (map id (nodes (grow first_tick engine_crowded))).
Proof.
  destruct (node_id_reused_after_cleanup first_tick engine_crowded)
    as (created & Hn & Hl & _ & Hdup).
  - exact engine_crowded_sequential.
  - reflexivity.
  - rewrite engine_crowded_length. lia.
  - reflexivity.
  - discriminate.
  - apply Hdup. intros ->. rewrite app_nil_r in Hn.
    assert (Hgrows := engine_crowded_grows).
    rewrite Hn in Hgrows. lia.
Defined.
End OrganicLayoutClaims.

(* ================================================================== *)
(** * Part III. Further properties of the three classes                *)
(* ================================================================== *)

(** ** Lists, numbers and maps *)

Module ListLaws.
Import JSMath JSMathFacts.
Open Scope R_scope.

Lemma filter_negb_all {A} (f : A -> bool) (l : list A) :
  filter f l = [] -> filter (fun a => negb (f a)) l = l.
Proof.
  induction l as [|a l IH]; simpl; [reflexivity|].
  destruct (f a); simpl; [discriminate|]. intros Hf. f_equal. auto.
Qed.

Lemma filter_filter_negb {A} (f : A -> bool) (l : list A) :
  filter f (filter (fun a => negb (f a)) l) = [].
Proof.
  induction l as [|a l IH]; simpl; [reflexivity|].
  destruct (f a) eqn:E; simpl; [exact IH|]. rewrite E. exact IH.
Qed.

Lemma filter_idem {A} (f : A -> bool) (l : list A) :
  filter f (filter f l) = filter f l.
Proof.
  induction l as [|a l IH]; simpl; [reflexivity|].
  destruct (f a) eqn:E; simpl; [|exact IH]. rewrite E, IH. reflexivity.
Qed.

(** *** [cleanup] and [clear] *)

Lemma filter_all_true {A} (f : A -> bool) (l : list A) :
  (forall a, In a l -> f a = true) -> filter f l = l.
Proof.
  induction l as [|a l IH]; intros Hf; simpl; [reflexivity|].
  rewrite (Hf a) by (left; reflexivity). f_equal.
  apply IH. intros b Hb. apply Hf. right. exact Hb.
Qed.

Lemma NoDup_snoc {A} (l : list A) a : NoDup l -> ~ In a l -> NoDup (l ++ [a]).
Proof.
  intros Hnd Hni. apply NoDup_app; [exact Hnd|repeat constructor; intros []|].
  intros x Hx [<-|[]]. contradiction.
Qed.

(** *** [getItemsInBounds] *)

Lemma floor_mono (a b : R) : a <= b -> (floor a <= floor b)%Z.
Proof.
  intros Hab. apply floor_ge. destruct (floor_spec a) as [Ha _]. lra.
Qed.

Lemma div_le_div (a b cs : R) : 0 < cs -> a <= b -> a / cs <= b / cs.
Proof.
  intros Hcs Hab.
  assert (Hinv : 0 < / cs) by (apply Rinv_0_lt_compat; exact Hcs).
  unfold Rdiv. nra.
Qed.

Lemma NoDup_firstn {A} (n : nat) (l : list A) : NoDup l -> NoDup (firstn n l).
Proof.
  intros Hnd. rewrite <- (firstn_skipn n l) in Hnd.
  apply NoDup_app_remove_r in Hnd. exact Hnd.
Qed.


Lemma StronglySorted_firstn {A} (R : A -> A -> Prop) (n : nat) (l : list A) :
  StronglySorted R l -> StronglySorted R (firstn n l).
Proof.
  intros Hs. revert n. induction Hs as [|a l Hs IH Hall]; intros n.
  - rewrite firstn_nil. constructor.
  - destruct n as [|n]; simpl; constructor; [apply IH|].
    apply Forall_forall. intros b Hb. rewrite Forall_forall in Hall.
    apply Hall. rewrite <- (firstn_skipn n l). apply in_or_app. left. exact Hb.
Qed.
End ListLaws.

Module JSMapLaws.
Import JSMapFacts ListLaws.

(** *** No cell is empty *)

Lemma set_set {K V} `{EqDec K} (m : JSMap.t K V) k v v' :
  JSMap.set (JSMap.set m k v) k v' = JSMap.set m k v'.
Proof.
  induction m as [|[k0 v0] m IH]; simpl.
  - destruct (eq_dec k k); [reflexivity|congruence].
  - destruct (eq_dec k k0) as [->|Hn]; simpl.
    + destruct (eq_dec k0 k0); [reflexivity|congruence].
    + destruct (eq_dec k k0); [congruence|]. rewrite IH. reflexivity.
Qed.

(** *** The cache while [cleanup] is not called *)

Lemma get_None_keys {K V} `{EqDec K} (m : JSMap.t K V) k :
  JSMap.get m k = None -> ~ In k (JSMap.keys m).
Proof.
  induction m as [|[k0 v0] m IH]; simpl; [auto|].
  destruct (eq_dec k k0) as [->|Hn]; [discriminate|].
  intros Hg [Heq|Hin]; [congruence|]. exact (IH Hg Hin).
Qed.

Lemma get_Some_keys {K V} `{EqDec K} (m : JSMap.t K V) k v :
  JSMap.get m k = Some v -> In k (JSMap.keys m).
Proof.
  intros Hg. apply get_In in Hg. apply (in_map fst) in Hg. exact Hg.
Qed.

Lemma In_keys_delete {K V} `{EqDec K} (m : JSMap.t K V) k k' :
  In k' (JSMap.keys (JSMap.delete m k)) <-> k' <> k /\ In k' (JSMap.keys m).
Proof.
  induction m as [|[k0 v0] m IH]; simpl; [tauto|].
  destruct (eq_dec k k0) as [->|Hn]; simpl.
  - rewrite IH. split; [tauto|]. intros [Hne [Heq|Hin]]; [congruence|tauto].
  - rewrite IH. split.
    + intros [<-|[Hne Hin]]; [split; [congruence|tauto]|tauto].
    + tauto.
Qed.

Lemma NoDup_keys_delete {K V} `{EqDec K} (m : JSMap.t K V) k :
  NoDup (JSMap.keys m) -> NoDup (JSMap.keys (JSMap.delete m k)).
Proof.
  induction m as [|[k0 v0] m IH]; simpl; intros Hnd; [constructor|].
  inversion Hnd as [|? ? Hni Hnd']; subst.
  destruct (eq_dec k k0); simpl; [auto|].
  constructor; [|auto]. rewrite In_keys_delete. tauto.
Qed.

Lemma size_delete {K V} `{EqDec K} (m : JSMap.t K V) k :
  NoDup (JSMap.keys m) -> In k (JSMap.keys m) ->
  S (JSMap.size (JSMap.delete m k)) = JSMap.size m.
Proof.
  unfold JSMap.size.
  induction m as [|[k0 v0] m IH]; simpl; intros Hnd Hin; [destruct Hin|].
  inversion Hnd as [|? ? Hni Hnd']; subst.
  destruct (eq_dec k k0) as [->|Hn]; simpl.
  - f_equal. clear IH Hnd Hnd' Hin.
    induction m as [|[k1 v1] m IHm]; simpl; [reflexivity|].
    destruct (eq_dec k0 k1) as [->|Hn1].
    + exfalso. apply Hni. left. reflexivity.
    + simpl. f_equal. apply IHm. intros Hin. apply Hni. right. exact Hin.
  - f_equal. apply IH; [exact Hnd'|].
    destruct Hin as [Heq|Hin]; [congruence|exact Hin].
Qed.

(** *** The capacity of the association graph *)

Lemma size_fold_set {K V} `{EqDec K} (l : list (K * V)) :
  forall g : JSMap.t K V,
    (JSMap.size (fold_left (fun g e => JSMap.set g (fst e) (snd e)) l g)
     <= JSMap.size g + length l)%nat.
Proof.
  induction l as [|e l IH]; intros g; simpl; [lia|].
  specialize (IH (JSMap.set g (fst e) (snd e))).
  assert (Hs := size_set_le g (fst e) (snd e)). lia.
Qed.

(** *** The cleanup of the collocation table *)

Lemma set_fresh {K V} `{EqDec K} (m : JSMap.t K V) k v :
  ~ In k (JSMap.keys m) -> JSMap.set m k v = m ++ [(k, v)].
Proof.
  induction m as [|[k0 v0] m IH]; simpl; intros Hni; [reflexivity|].
  destruct (eq_dec k k0) as [->|Hn]; [exfalso; auto|].
  rewrite IH by tauto. reflexivity.
Qed.

Lemma fold_set_NoDup {K V} `{EqDec K} (l : list (K * V)) :
  forall g : JSMap.t K V,
    NoDup (JSMap.keys g ++ map fst l) ->
    fold_left (fun g e => JSMap.set g (fst e) (snd e)) l g = g ++ l.
Proof.
  induction l as [|[k v] l IH]; intros g Hnd; simpl.
  - rewrite app_nil_r. reflexivity.
  - simpl in Hnd.
    rewrite set_fresh.
    + rewrite IH; [rewrite <- app_assoc; reflexivity|].
      unfold JSMap.keys in *. rewrite map_app, <- app_assoc. exact Hnd.
    + apply NoDup_remove_2 in Hnd. intros Hin. apply Hnd.
      apply in_or_app. left. exact Hin.
Qed.
End JSMapLaws.

(** ** Stable sorting *)

Module StableSortLaws.
Import OrganicLayoutFacts.

Section SortFacts.
Context {A : Type} (before : A -> A -> bool) (le : A -> A -> Prop).
Hypothesis before_true : forall x y, before x y = true -> le x y.
Hypothesis before_false : forall x y, before x y = false -> le y x.
Hypothesis le_trans : forall x y z, le x y -> le y z -> le x z.

Lemma insert_sorted_perm x l : Permutation (insert_sorted before x l) (x :: l).
Proof.
  induction l as [|y l IH]; simpl; [reflexivity|].
  destruct (before x y); [reflexivity|].
  rewrite IH. apply perm_swap.
Qed.

Lemma fold_insert_perm l :
  forall acc,
    Permutation (fold_left (fun acc x => insert_sorted before x acc) l acc)
      (l ++ acc).
Proof.
  induction l as [|x l IH]; intros acc; simpl; [reflexivity|].
  rewrite IH, insert_sorted_perm. symmetry. apply Permutation_middle.
Qed.

Lemma stable_sort_perm l : Permutation (stable_sort before l) l.
Proof.
  unfold stable_sort. rewrite fold_insert_perm, app_nil_r. reflexivity.
Qed.

Lemma insert_sorted_sorted x l :
  StronglySorted le l -> StronglySorted le (insert_sorted before x l).
Proof.
  induction 1 as [|y l Hs IH Hall]; simpl.
  - constructor; constructor.
  - destruct (before x y) eqn:E.
    + constructor; [constructor; assumption|].
      constructor; [apply before_true; exact E|].
      apply Forall_forall. intros z Hz.
      apply le_trans with y; [apply before_true; exact E|].
      rewrite Forall_forall in Hall. auto.
    + constructor; [exact IH|].
      apply Forall_forall. intros z Hz.
      apply (Permutation_in _ (insert_sorted_perm x l)) in Hz.
      destruct Hz as [<-|Hz]; [apply before_false; exact E|].
      rewrite Forall_forall in Hall. auto.
Qed.

Lemma stable_sort_sorted l : StronglySorted le (stable_sort before l).
Proof.
  unfold stable_sort.
  assert (H : forall acc, StronglySorted le acc ->
            StronglySorted le
              (fold_left (fun acc x => insert_sorted before x acc) l acc)).
  { induction l as [|x l IH]; intros acc Hacc; simpl; [exact Hacc|].
    apply IH, insert_sorted_sorted, Hacc. }
  apply H. constructor.
Qed.

(** In a sorted list the elements of a prefix go before those of the
    rest. *)
Lemma sorted_firstn_skipn n l a b :
  StronglySorted le l -> In a (firstn n l) -> In b (skipn n l) -> le a b.
Proof.
  intros Hs. revert n. induction Hs as [|y l Hs IH Hall]; intros n.
  - rewrite firstn_nil. intros [].
  - destruct n as [|n]; simpl; [intros []|].
    intros [<-|Ha] Hb.
    + rewrite Forall_forall in Hall. apply Hall.
      apply (In_skipn n). exact Hb.
    + exact (IH n Ha Hb).
Qed.
End SortFacts.
End StableSortLaws.

(** ** The spatial index *)

Module SpatialIndexLaws.
Import JSMath JSMathFacts JSMapFacts SpatialIndex SpatialIndexFacts.
Import SpatialIndexClaims Scenarios ListLaws JSMapLaws.
Open Scope R_scope.

Section Laws.
Context {T : Type} `{Indexable T}.
Implicit Types (st : SpatialIndex.t T) (it : T).

(** *** Fields that stay as constructed *)

Lemma geometry_remove st id : geometry (snd (remove st id)) = geometry st.
Proof.
  unfold remove. destruct id as [s|]; [|reflexivity].
  destruct (truthy_id (Some s)); [|reflexivity].
  destruct (0 <? _)%nat; reflexivity.
Qed.

Lemma geometry_insert st item : geometry (snd (insert st item)) = geometry st.
Proof.
  unfold insert.
  destruct (item_position item) as [[[|x] [|y]]|]; try reflexivity.
  set (st1 := if truthy_id (item_id item) then _ else st).
  assert (H1 : geometry st1 = geometry st).
  { subst st1. destruct (truthy_id (item_id item)); [|reflexivity].
    destruct (findItemById st (item_id item)); [|reflexivity].
    apply geometry_remove. }
  clearbody st1. rewrite <- H1.
  destruct (JSMap.get _ _); reflexivity.
Qed.

Lemma geometry_update st item : geometry (snd (update st item)) = geometry st.
Proof.
  unfold update. destruct (truthy_id (item_id item)); [|reflexivity].
  rewrite geometry_insert. apply geometry_remove.
Qed.

Lemma geometry_addToCache st k v : geometry (addToCache st k v) = geometry st.
Proof.
  unfold addToCache. destruct (_ <=? _)%nat; [|reflexivity].
  destruct (cacheAccessOrder st); reflexivity.
Qed.

Lemma geometry_query st p r : geometry (snd (query st p r)) = geometry st.
Proof.
  unfold query. destruct p as [[[|x] [|y]]|]; try reflexivity.
  destruct r as [|r]; [reflexivity|].
  destruct (ltb r 0); [reflexivity|].
  destruct (JSMap.get _ _); [reflexivity|].
  apply geometry_addToCache.
Qed.

Lemma geometry_findNearest_loop radii :
  forall st x y nearest minDistance,
    geometry (snd (findNearest_loop st x y radii nearest minDistance))
    = geometry st.
Proof.
  induction radii as [|radius rest IH]; intros st x y nearest minDistance;
    cbn [findNearest_loop]; [reflexivity|].
  destruct (ltb minDistance radius); [reflexivity|].
  assert (Hq := geometry_query st (Some (x, y)) (Num radius)).
  destruct (query st (Some (x, y)) (Num radius)) as [candidates st'].
  destruct (fold_left (nearest_step x y) candidates (nearest, minDistance))
    as [[found|] minDistance']; [exact Hq|].
  rewrite IH. exact Hq.
Qed.

Lemma geometry_findNearest st p m :
  geometry (snd (findNearest st p m)) = geometry st.
Proof.
  unfold findNearest. destruct p as [[x y]|]; [|reflexivity].
  apply geometry_findNearest_loop.
Qed.

Lemma geometry_cleanup st : geometry (cleanup st) = geometry st.
Proof. unfold cleanup. destruct (_ <? _)%nat; reflexivity. Qed.

Lemma reachable_geometry st :
  reachable st -> exists w h cs, geometry st = geometry (new (T:=T) w h cs).
Proof.
  induction 1 as [w h cs|st item _ IH|st id _ IH|st item _ IH|st p r _ IH
                 |st p m _ IH|st _ IH|st _ IH].
  - exists w, h, cs. reflexivity.
  - rewrite geometry_insert. exact IH.
  - rewrite geometry_remove. exact IH.
  - rewrite geometry_update. exact IH.
  - rewrite geometry_query. exact IH.
  - rewrite geometry_findNearest. exact IH.
  - exact IH.
  - rewrite geometry_cleanup. exact IH.
Qed.

(** The grid after [insert] has put [item] into the cell [key]. *)
Lemma insert_grid (g : JSMap.t cell (list T)) key item :
  match JSMap.get
          (if JSMap.has g key then g else JSMap.set g key []) key with
  | Some items =>
      JSMap.set (if JSMap.has g key then g else JSMap.set g key [])
        key (items ++ [item])
  | None => if JSMap.has g key then g else JSMap.set g key []
  end
  = JSMap.set g key (items_at g key ++ [item]).
Proof.
  unfold JSMap.has, items_at.
  destruct (JSMap.get g key) as [items|] eqn:Hg.
  - rewrite Hg. reflexivity.
  - rewrite get_set_eq, set_set. reflexivity.
Qed.

Lemma remove_cells_nonempty id (g : JSMap.t cell (list T)) :
  (forall k items, In (k, items) g -> items <> []) ->
  forall k items, In (k, items) (remove_cells id g) -> items <> [].
Proof.
  induction g as [|[k0 items0] g IH]; intros Hg k items; simpl; [intros []|].
  assert (Hg' : forall k items, In (k, items) g -> items <> []).
  { intros k' items' Hin. apply (Hg k'). right. exact Hin. }
  destruct (_ <? _)%nat.
  - destruct (filter _ items0) as [|a l] eqn:Hf.
    + apply IH. exact Hg'.
    + intros [[= <- <-]|Hin]; [discriminate|]. exact (IH Hg' _ _ Hin).
  - intros [[= <- <-]|Hin]; [|exact (IH Hg' _ _ Hin)].
    apply (Hg k0). left. reflexivity.
Qed.

Lemma nonempty_remove st id :
  cells_nonempty st -> cells_nonempty (snd (remove st id)).
Proof.
  intros Hne. unfold remove. destruct id as [s|]; [|exact Hne].
  destruct (truthy_id (Some s)); [|exact Hne].
  destruct (0 <? _)%nat; intros k items Hin; cbn in Hin;
    exact (remove_cells_nonempty s (grid st) Hne k items Hin).
Qed.

(** The state on which [insert] works after it has dropped an item of
    the same id. *)
Lemma insert_eq st item x y :
  item_position item = Some (Num x, Num y) ->
  exists st1,
    st1 = (if truthy_id (item_id item) then
             match findItemById st (item_id item) with
             | Some _ => snd (remove st (item_id item))
             | None => st
             end
           else st)
    /\ insert st item
       = (true,
          clearQueryCache
            (with_grid st1
               (JSMap.set (grid st1) (getGridKey st1 (Num x) (Num y))
                  (items_at (grid st1) (getGridKey st1 (Num x) (Num y))
                   ++ [item]))
               (itemCount st1 + 1)%Z)).
Proof.
  intros Hp. eexists. split; [reflexivity|].
  unfold insert. rewrite Hp. cbv zeta.
  rewrite insert_grid. reflexivity.
Qed.

Lemma nonempty_insert st item :
  cells_nonempty st -> cells_nonempty (snd (insert st item)).
Proof.
  intros Hne.
  destruct (item_position item) as [[[|x] [|y]]|] eqn:Hp.
  1-3,5: unfold insert; rewrite Hp; exact Hne.
  destruct (insert_eq st item x y Hp) as (st1 & Hst1 & ->).
  assert (H1 : cells_nonempty st1).
  { subst st1. destruct (truthy_id (item_id item)); [|exact Hne].
    destruct (findItemById st (item_id item)); [|exact Hne].
    apply nonempty_remove. exact Hne. }
  intros k its Hin. cbn in Hin. apply In_set in Hin.
  destruct Hin as [[_ ->]|Hin]; [|exact (H1 k its Hin)].
  destruct (items_at _ _); discriminate.
Qed.

Lemma grid_addToCache st k v :
  grid (addToCache st k v) = grid st
  /\ itemCount (addToCache st k v) = itemCount st.
Proof.
  unfold addToCache. destruct (_ <=? _)%nat; [|split; reflexivity].
  destruct (cacheAccessOrder st); split; reflexivity.
Qed.

(** A query leaves the cells and the item count as they are. *)
Lemma grid_query st p r :
  grid (snd (query st p r)) = grid st
  /\ itemCount (snd (query st p r)) = itemCount st.
Proof.
  unfold query. destruct p as [[[|x] [|y]]|]; try (split; reflexivity).
  destruct r as [|r]; [split; reflexivity|].
  destruct (ltb r 0); [split; reflexivity|].
  destruct (JSMap.get _ _); [split; reflexivity|].
  apply grid_addToCache.
Qed.

Lemma grid_findNearest_loop radii :
  forall st x y nearest minDistance,
    grid (snd (findNearest_loop st x y radii nearest minDistance)) = grid st
    /\ itemCount (snd (findNearest_loop st x y radii nearest minDistance))
       = itemCount st.
Proof.
  induction radii as [|radius rest IH]; intros st x y nearest minDistance;
    cbn [findNearest_loop]; [split; reflexivity|].
  destruct (ltb minDistance radius); [split; reflexivity|].
  assert (Hq := grid_query st (Some (x, y)) (Num radius)).
  destruct (query st (Some (x, y)) (Num radius)) as [candidates st'].
  destruct (fold_left (nearest_step x y) candidates (nearest, minDistance))
    as [[found|] minDistance']; [exact Hq|].
  cbn [snd] in Hq. destruct Hq as [Hg Hc].
  destruct (IH st' x y None minDistance') as [Hg' Hc'].
  split; congruence.
Qed.

Lemma grid_findNearest st p m :
  grid (snd (findNearest st p m)) = grid st
  /\ itemCount (snd (findNearest st p m)) = itemCount st.
Proof.
  unfold findNearest. destruct p as [[x y]|]; [|split; reflexivity].
  apply grid_findNearest_loop.
Qed.

Lemma nonempty_same_grid st st' :
  grid st' = grid st -> cells_nonempty st -> cells_nonempty st'.
Proof. unfold cells_nonempty. intros ->. auto. Qed.

Lemma nonempty_cleanup st : cells_nonempty st -> cells_nonempty (cleanup st).
Proof.
  intros Hne. unfold cleanup.
  assert (Hf : forall k items,
            In (k, items)
              (filter (fun kv : cell * list T =>
                       negb (Nat.eqb (length (snd kv)) 0)) (grid st)) ->
            items <> []).
  { intros k items Hin. apply filter_In in Hin. exact (Hne k items (proj1 Hin)). }
  destruct (_ <? _)%nat; exact Hf.
Qed.

Lemma reachable_nonempty st : reachable st -> cells_nonempty st.
Proof.
  induction 1 as [w h cs|st item _ IH|st id _ IH|st item _ IH|st p r _ IH
                 |st p m _ IH|st _ IH|st _ IH].
  - intros k items [].
  - apply nonempty_insert. exact IH.
  - apply nonempty_remove. exact IH.
  - unfold update. destruct (truthy_id (item_id item)); [|exact IH].
    apply nonempty_insert, nonempty_remove. exact IH.
  - apply (nonempty_same_grid st); [apply grid_query|exact IH].
  - apply (nonempty_same_grid st); [apply grid_findNearest|exact IH].
  - intros k items [].
  - apply nonempty_cleanup. exact IH.
Qed.

(** *** The consistency of reachable states *)

(** X1.  In every state that the public methods reach, [itemCount] is
    the number of stored items, no cell key occurs twice, no cell is
    empty, and every stored item has numeric coordinates and sits in the
    cell that [getGridKey] computes for them. *)
Theorem reachable_index_consistent st :
  reachable st ->
  itemCount st = Z.of_nat (length (all_items st))
  /\ NoDup (JSMap.keys (grid st))
  /\ forall k items, In (k, items) (grid st) ->
       items <> []
       /\ forall it, In it items ->
            exists x y,
              item_position it = Some (Num x, Num y)
              /\ getGridKey st (Num x) (Num y) = k.
Proof.
  intros Hr. destruct (reachable_wf st Hr) as (_ & Hn & Hc & Hk & _).
  split; [exact Hk|]. split; [exact Hn|].
  intros k items Hin. split; [exact (reachable_nonempty st Hr k items Hin)|].
  exact (Hc k items Hin).
Qed.

(** *** [insert] and [query] *)

Lemma insert_In st item x y :
  item_position item = Some (Num x, Num y) ->
  In item (all_items (snd (insert st item))).
Proof.
  intros Hp. destruct (insert_eq st item x y Hp) as (st1 & _ & ->).
  apply In_all_items. eexists _, _. split.
  - cbn. apply get_In. apply get_set_eq.
  - apply in_or_app. right. left. reflexivity.
Qed.

Lemma width_height_insert st item :
  width (snd (insert st item)) = width st
  /\ height (snd (insert st item)) = height st.
Proof.
  assert (Hg := geometry_insert st item). unfold geometry in Hg.
  injection Hg as Hw Hh _ _ _ _. split; assumption.
Qed.

(** X2.  An item with numeric coordinates on the canvas that [insert]
    has accepted is returned by every following [query] whose circle
    contains it. *)
Theorem insert_then_query_finds st item (x y qx qy r : R) :
  reachable st ->
  item_position item = Some (Num x, Num y) ->
  0 <= x < width st -> 0 <= y < height st ->
  sqrt ((x - qx) * (x - qx) + (y - qy) * (y - qy)) <= r ->
  fst (insert st item) = true
  /\ In item
       (fst (query (snd (insert st item)) (Some (Num qx, Num qy)) (Num r))).
Proof.
  intros Hr Hp Hx Hy Hd.
  destruct (insert_valid st item x y Hp) as (Ht & Hq & _).
  split; [exact Ht|].
  assert (Hr0 : 0 <= r).
  { apply Rle_trans with (2 := Hd). apply sqrt_pos. }
  rewrite query_miss; [|exact Hr0|rewrite Hq; reflexivity].
  cbn [fst]. apply performQuery_complete.
  - apply wf_insert, reachable_wf, Hr.
  - exact (insert_In st item x y Hp).
  - destruct (width_height_insert st item) as [Hw Hh].
    exists x, y. rewrite Hw, Hh. auto.
  - exists x, y. auto.
Qed.

Lemma filter_has_id_nil s (l : list T) :
  find (has_id s) l = None -> filter (has_id s) l = [].
Proof.
  induction l as [|a l IH]; simpl; [reflexivity|].
  destruct (has_id s a); [discriminate|exact IH].
Qed.

(** The items of a grid in which one cell got one more item. *)
Lemma filter_items_set (f : T -> bool) (g : JSMap.t cell (list T)) key item :
  filter f (concat (JSMap.values (JSMap.set g key (items_at g key ++ [item]))))
  = if f item
    then match JSMap.get g key with
         | Some _ =>
             filter f
               (concat (JSMap.values
                          (JSMap.set g key (items_at g key ++ [item]))))
         | None => filter f (concat (JSMap.values g)) ++ [item]
         end
    else filter f (concat (JSMap.values g)).
Proof.
  unfold items_at.
  induction g as [|[k0 items0] g IH]; simpl.
  - destruct (f item); reflexivity.
  - destruct (eq_dec key k0) as [->|Hn]; simpl.
    + rewrite !filter_app. simpl. destruct (f item); [reflexivity|].
      rewrite app_nil_r. reflexivity.
    + rewrite !filter_app, IH.
      destruct (f item); [|reflexivity].
      destruct (JSMap.get g key); [reflexivity|].
      rewrite app_assoc. reflexivity.
Qed.

Lemma filter_items_set_fresh (f : T -> bool) (g : JSMap.t cell (list T))
  key item :
  f item = true -> filter f (concat (JSMap.values g)) = [] ->
  filter f (concat (JSMap.values (JSMap.set g key (items_at g key ++ [item]))))
  = [item].
Proof.
  intros Hf Hnil. unfold items_at.
  induction g as [|[k0 items0] g IH]; simpl.
  - rewrite Hf. reflexivity.
  - simpl in Hnil. rewrite filter_app in Hnil.
    apply app_eq_nil in Hnil. destruct Hnil as [H0 Hg].
    destruct (eq_dec key k0) as [->|Hn]; simpl.
    + rewrite !filter_app, H0, Hg. simpl. rewrite Hf. reflexivity.
    + rewrite filter_app, H0, (IH Hg). reflexivity.
Qed.

(** X3.  [insert] of an item with a non-empty id replaces what the index
    held under that id: afterwards the item is the only one with the id,
    it is what [findItemById] returns, and the items with other ids are
    as before, in the same order. *)
Theorem insert_replaces_same_id st item s (x y : R) :
  item_id item = Some s -> s <> [] ->
  item_position item = Some (Num x, Num y) ->
  let st' := snd (insert st item) in
  filter (has_id s) (all_items st') = [item]
  /\ findItemById st' (Some s) = Some item
  /\ filter (fun it => negb (has_id s it)) (all_items st')
     = filter (fun it => negb (has_id s it)) (all_items st).
Proof.
  intros Hid Hs Hp st'.
  assert (Hitem : has_id s item = true) by (apply has_id_true; exact Hid).
  destruct (insert_eq st item x y Hp) as (st1 & Hst1 & Heq).
  subst st'. rewrite Heq. clear Heq. unfold all_items. cbn [snd grid
    clearQueryCache with_cache with_grid].
  assert (H1 : filter (has_id s) (all_items st1) = []
          /\ filter (fun it => negb (has_id s it)) (all_items st1)
             = filter (fun it => negb (has_id s it)) (all_items st)).
  { subst st1. rewrite Hid.
    destruct s as [|c s]; [contradiction Hs; reflexivity|].
    cbn [truthy_id].
    destruct (findItemById st _) eqn:Hf.
    - rewrite remove_all_items. cbn [truthy_id].
      split; [apply filter_filter_negb|apply filter_idem].
    - split; [|reflexivity]. apply filter_has_id_nil. exact Hf. }
  destruct H1 as [Hnone Hothers]. unfold all_items in Hnone, Hothers.
  assert (Hone := filter_items_set_fresh (has_id s) (grid st1)
                    (getGridKey st1 (Num x) (Num y)) item Hitem Hnone).
  split; [exact Hone|]. split.
  - unfold findItemById. destruct s as [|c s]; [contradiction Hs; reflexivity|].
    cbn [truthy_id grid clearQueryCache with_cache with_grid].
    revert Hone. generalize (concat (JSMap.values
      (JSMap.set (grid st1) (getGridKey st1 (Num x) (Num y))
         (items_at (grid st1) (getGridKey st1 (Num x) (Num y)) ++ [item])))).
    intros l. induction l as [|a l IH]; simpl; [discriminate|].
    destruct (has_id (c :: s) a); [congruence|auto].
  - rewrite filter_items_set, Hitem. cbn [negb]. exact Hothers.
Qed.

(** *** [remove] *)

(** X4.  [remove] of a non-empty id takes every item with that id out of
    the index and leaves the others in their order: the id is no longer
    found, [itemCount] drops by the number of items taken out, and the
    result is [true] exactly when there was one. *)
Theorem remove_forgets_id st s :
  reachable st -> s <> [] ->
  let st' := snd (remove st (Some s)) in
  all_items st' = filter (fun it => negb (has_id s it)) (all_items st)
  /\ findItemById st' (Some s) = None
  /\ itemCount st'
     = (itemCount st
        - Z.of_nat (length (filter (has_id s) (all_items st))))%Z
  /\ (fst (remove st (Some s)) = true
      <-> exists it, In it (all_items st) /\ item_id it = Some s).
Proof.
  intros Hr Hs st'.
  assert (Hwf := reachable_wf st Hr).
  assert (Hwf' : wf st') by (apply wf_remove; exact Hwf).
  assert (Hall : all_items st'
                 = filter (fun it => negb (has_id s it)) (all_items st)).
  { subst st'. rewrite remove_all_items.
    destruct s; [contradiction Hs; reflexivity|reflexivity]. }
  split; [exact Hall|]. split; [|split].
  - unfold findItemById. destruct s as [|c s]; [reflexivity|].
    cbn [truthy_id]. fold (all_items st'). rewrite Hall.
    apply find_filter_negb.
  - destruct Hwf as (_ & _ & _ & Hk & _).
    destruct Hwf' as (_ & _ & _ & Hk' & _).
    unfold count_ok in Hk, Hk'. rewrite Hk', Hk, Hall.
    assert (Hp := filter_partition_length (has_id s) (all_items st)). lia.
  - unfold remove. destruct s as [|c s]; [contradiction Hs; reflexivity|].
    cbn [truthy_id]. unfold removed_count. fold (all_items st).
    destruct (0 <? _)%nat eqn:Hpos; cbn [fst].
    + split; [intros _|reflexivity].
      apply Nat.ltb_lt in Hpos.
      destruct (filter (has_id (c :: s)) (all_items st)) as [|it l] eqn:Hf;
        [simpl in Hpos; lia|].
      assert (Hin : In it (filter (has_id (c :: s)) (all_items st))).
      { rewrite Hf. left. reflexivity. }
      apply filter_In in Hin. exists it. split; [tauto|].
      apply has_id_true. tauto.
    + split; [discriminate|]. intros (it & Hin & Hid).
      apply Nat.ltb_ge in Hpos.
      assert (Hin' : In it (filter (has_id (c :: s)) (all_items st))).
      { apply filter_In. split; [exact Hin|]. apply has_id_true. exact Hid. }
      destruct (filter (has_id (c :: s)) (all_items st));
        [destruct Hin'|simpl in Hpos; lia].
Qed.

(** X5.  [remove] of an id that the index does not hold, or of a missing
    or empty id, returns [false] and changes nothing, the query cache
    included. *)
Theorem remove_unknown_id_is_noop st id :
  findItemById st id = None -> remove st id = (false, st).
Proof.
  intros Hf. unfold remove. destruct id as [s|]; [|reflexivity].
  destruct s as [|c s]; [reflexivity|]. cbn [truthy_id].
  unfold findItemById in Hf. cbn [truthy_id] in Hf.
  assert (Hz : removed_count (c :: s) (grid st) = 0%nat).
  { unfold removed_count. rewrite (filter_has_id_nil _ _ Hf). reflexivity. }
  rewrite Hz, (remove_cells_none _ _ Hz). cbn [Nat.ltb Nat.leb Nat.iter nat_rect].
  rewrite with_same. reflexivity.
Qed.

(** *** [query] *)

(** X6.  A query only reads the items: it leaves the cells and
    [itemCount] as they are, and the same query asked again at once
    returns the same list. *)
Theorem query_repeatable st p r :
  grid (snd (query st p r)) = grid st
  /\ itemCount (snd (query st p r)) = itemCount st
  /\ fst (query (snd (query st p r)) p r) = fst (query st p r).
Proof.
  destruct (grid_query st p r) as [Hg Hc].
  split; [exact Hg|]. split; [exact Hc|].
  unfold query. destruct p as [[[|x] [|y]]|]; try reflexivity.
  destruct r as [|r]; [reflexivity|].
  destruct (ltb r 0) eqn:Hneg; cbn [snd fst]; [reflexivity|].
  destruct (JSMap.get (queryCache st) (cacheKey x y r)) as [cached|] eqn:Hget;
    cbn [snd fst].
  - cbn [queryCache updateCacheAccess with_cache]. rewrite Hget. reflexivity.
  - rewrite addToCache_get. reflexivity.
Qed.

(** X7.  When every indexed item lies on the canvas, [getItemsInBounds]
    returns exactly the indexed items whose coordinates lie in the
    rectangle, borders included. *)
Theorem getItemsInBounds_exact st (minX minY maxX maxY : R) :
  reachable st ->
  (forall it, In it (all_items st) -> on_canvas st it) ->
  forall it,
    In it (getItemsInBounds st minX minY maxX maxY)
    <-> In it (all_items st) /\ in_bounds minX minY maxX maxY it.
Proof.
  intros Hr Hcanvas it.
  destruct (reachable_wf st Hr) as ((Hcs & Hgw & Hgh) & Hn & Hc & _ & _).
  unfold getItemsInBounds. split.
  - intros Hin.
    apply in_flat_map in Hin. destruct Hin as (gx & _ & Hin).
    apply in_flat_map in Hin. destruct Hin as (gy & _ & Hin).
    destruct (JSMap.get (grid st) (gx, gy)) as [items|] eqn:Hg; [|destruct Hin].
    apply filter_In in Hin. destruct Hin as [Hit Hb].
    split.
    + apply In_all_items. exists (gx, gy), items. split; [|exact Hit].
      apply get_In. exact Hg.
    + destruct (item_position it) as [[[|ix] [|iy]]|] eqn:Hp;
        try discriminate Hb.
      apply andb_prop in Hb. destruct Hb as [Hb H4].
      apply andb_prop in Hb. destruct Hb as [Hb H3].
      apply andb_prop in Hb. destruct Hb as [H1 H2].
      apply leb_true in H1, H2, H3, H4.
      exists ix, iy. auto.
  - intros [Hin (ix & iy & Hp & Hx & Hy)].
    assert (Hon := Hcanvas it Hin).
    destruct Hon as (ix' & iy' & Hp' & Hcx & Hcy).
    rewrite Hp in Hp'. injection Hp' as <- <-.
    apply In_all_items in Hin. destruct Hin as (k & items & Hk & Hit).
    destruct (Hc k items Hk it Hit) as (ix' & iy' & Hp' & Hkey).
    rewrite Hp in Hp'. injection Hp' as <- <-.
    assert (Hbx := cell_on_canvas _ _ _ Hcs Hcx). rewrite <- Hgw in Hbx.
    assert (Hby := cell_on_canvas _ _ _ Hcs Hcy). rewrite <- Hgh in Hby.
    unfold getGridKey in Hkey.
    replace (Z.max 0 (Z.min (gridWidth st - 1) (floor (ix / cellSize st))))
      with (floor (ix / cellSize st)) in Hkey by lia.
    replace (Z.max 0 (Z.min (gridHeight st - 1) (floor (iy / cellSize st))))
      with (floor (iy / cellSize st)) in Hkey by lia.
    assert (Hx1 := floor_mono _ _ (div_le_div _ _ _ Hcs (proj1 Hx))).
    assert (Hx2 := floor_mono _ _ (div_le_div _ _ _ Hcs (proj2 Hx))).
    assert (Hy1 := floor_mono _ _ (div_le_div _ _ _ Hcs (proj1 Hy))).
    assert (Hy2 := floor_mono _ _ (div_le_div _ _ _ Hcs (proj2 Hy))).
    apply in_flat_map. exists (floor (ix / cellSize st)). split.
    { apply In_zrange. lia. }
    apply in_flat_map. exists (floor (iy / cellSize st)). split.
    { apply In_zrange. lia. }
    rewrite Hkey, (In_get _ _ _ Hn Hk).
    apply filter_In. split; [exact Hit|].
    rewrite Hp.
    rewrite !(proj2 (leb_true _ _)) by tauto. reflexivity.
Qed.

(** *** [findNearest] *)

(** What a query returns is indexed, also when it comes from the
    cache. *)
Lemma query_indexed st p r it :
  wf st -> In it (fst (query st p r)) -> In it (all_items st).
Proof.
  intros Hwf. unfold query.
  destruct p as [[[|x] [|y]]|]; try (intros []).
  destruct r as [|r]; [intros []|].
  destruct (ltb r 0); [intros []|].
  destruct (JSMap.get (queryCache st) (cacheKey x y r)) as [cached|] eqn:Hg;
    cbn [fst]; intros Hin.
  - destruct Hwf as (_ & _ & _ & _ & Hq).
    destruct (Hq _ _ Hg) as (x' & y' & r' & _ & _ & ->).
    apply performQuery_sound in Hin. tauto.
  - apply performQuery_sound in Hin. tauto.
Qed.

(** The pass of [findNearest] over the candidates of one radius, begun
    with no item and the limit [m0]: it ends without an item and with
    the limit untouched, or with a candidate that is closer than
    [m0]. *)
Lemma nearest_fold (x y m0 : R) (L : list T) (candidates : list T) :
  incl candidates L ->
  forall acc,
    match fst acc with
    | None => snd acc = m0
    | Some it => In it L /\ distance_to x y it (snd acc) /\ snd acc < m0
    end ->
    match fst (fold_left (nearest_step (Num x) (Num y)) candidates acc) with
    | None =>
        snd (fold_left (nearest_step (Num x) (Num y)) candidates acc) = m0
    | Some it =>
        In it L
        /\ distance_to x y it
             (snd (fold_left (nearest_step (Num x) (Num y)) candidates acc))
        /\ snd (fold_left (nearest_step (Num x) (Num y)) candidates acc) < m0
    end.
Proof.
  induction candidates as [|c l IH]; intros Hincl acc Hacc; [exact Hacc|].
  cbn [fold_left]. apply IH.
  { intros a Ha. apply Hincl. right. exact Ha. }
  unfold nearest_step.
  destruct (item_position c) as [[[|ix] [|iy]]|] eqn:Hp; try exact Hacc.
  destruct (ltb _ (snd acc)) eqn:Hlt; [|exact Hacc].
  apply ltb_true in Hlt. cbn [fst snd].
  split; [apply Hincl; left; reflexivity|]. split.
  - exists ix, iy. split; [exact Hp|reflexivity].
  - destruct (fst acc); [lra|]. rewrite <- Hacc. exact Hlt.
Qed.

Lemma findNearest_loop_sound (x y m0 : R) radii :
  forall st it,
    wf st ->
    fst (findNearest_loop st (Num x) (Num y) radii None m0) = Some it ->
    In it (all_items st)
    /\ exists d, distance_to x y it d /\ d < m0.
Proof.
  induction radii as [|radius rest IH]; intros st it Hwf;
    cbn [findNearest_loop]; [discriminate|].
  destruct (ltb m0 radius); [discriminate|].
  assert (Hq := wf_query st (Some (Num x, Num y)) (Num radius) Hwf).
  assert (Hg := grid_query st (Some (Num x, Num y)) (Num radius)).
  assert (Hi := fun c => query_indexed st (Some (Num x, Num y)) (Num radius)
                          c Hwf).
  destruct (query st (Some (Num x, Num y)) (Num radius)) as [candidates st'].
  cbn [fst snd] in Hq, Hg, Hi.
  assert (Hf := nearest_fold x y m0 (all_items st) candidates Hi
                  (None, m0) eq_refl).
  destruct (fold_left (nearest_step (Num x) (Num y)) candidates (None, m0))
    as [[found|] m'] eqn:Hfold; cbn [fst snd] in Hf |- *.
  - intros [= <-]. destruct Hf as (Hin & Hd & Hlt).
    split; [exact Hin|]. exists m'. auto.
  - subst m'. intros Hres.
    destruct (IH st' it Hq Hres) as [Hin Hd]. split; [|exact Hd].
    unfold all_items in *. rewrite (proj1 Hg) in Hin. exact Hin.
Qed.

(** X8.  What [findNearest] returns is an indexed item with numeric
    coordinates, strictly closer to the position than the limit of the
    search, the smaller of [maxDistance] and 1000. *)
Theorem findNearest_sound st (x y : R) (maxDistance : option R) it :
  reachable st ->
  fst (findNearest st (Some (Num x, Num y)) maxDistance) = Some it ->
  In it (all_items st)
  /\ exists d,
       distance_to x y it d
       /\ d < match maxDistance with
              | None => 1000
              | Some m => Rmin m 1000
              end.
Proof.
  intros Hr Hres. unfold findNearest in Hres.
  apply (findNearest_loop_sound x y _ _ st it (reachable_wf st Hr) Hres).
Qed.

(** X9.  In a reachable state [cleanup] finds no empty cell to drop: the
    cells and [itemCount] stay as they are.  The query cache is left
    alone while it holds at most half of [maxCacheSize] entries, and is
    emptied otherwise, with the last [maxCacheSize / 2] keys kept in the
    access order. *)
Theorem cleanup_keeps_cells st :
  reachable st ->
  grid (cleanup st) = grid st
  /\ itemCount (cleanup st) = itemCount st
  /\ if (maxCacheSize st <? 2 * JSMap.size (queryCache st))%nat
     then queryCache (cleanup st) = []
          /\ cacheAccessOrder (cleanup st)
             = slice_last (maxCacheSize st / 2) (cacheAccessOrder st)
     else queryCache (cleanup st) = queryCache st
          /\ cacheAccessOrder (cleanup st) = cacheAccessOrder st.
Proof.
  intros Hr. assert (Hne := reachable_nonempty st Hr).
  assert (Hf : filter (fun kv : cell * list T =>
                       negb (Nat.eqb (length (snd kv)) 0)) (grid st)
               = grid st).
  { apply filter_all_true. intros [k items] Hin. cbn [snd].
    specialize (Hne k items Hin). destruct items; [contradiction|reflexivity]. }
  unfold cleanup. rewrite Hf.
  cbn [maxCacheSize queryCache cacheAccessOrder with_grid].
  destruct (_ <? _)%nat; cbn; auto.
Qed.

(** X10.  [clear()] takes a reachable index back to the state in which
    its constructor left it. *)
Theorem clear_is_new st :
  reachable st -> exists w h cs, clear st = new w h cs.
Proof.
  intros Hr. destruct (reachable_geometry st Hr) as (w & h & cs & Hg).
  exists w, h, cs. unfold geometry in Hg. injection Hg as Hw Hh Hc Hgw Hgh Hm.
  unfold clear, clearQueryCache, with_cache, with_grid. cbn.
  rewrite Hw, Hh, Hc, Hgw, Hgh, Hm. reflexivity.
Qed.

(** *** [getStats] *)

Lemma length_zrange lo hi : length (zrange lo hi) = Z.to_nat (hi - lo + 1).
Proof. unfold zrange. rewrite length_map, length_seq. reflexivity. Qed.

Lemma total_ge_cells (g : JSMap.t cell (list T)) :
  (forall k items, In (k, items) g -> items <> []) ->
  (JSMap.size g <= total g)%nat.
Proof.
  unfold JSMap.size, total.
  induction g as [|[k items] g IH]; intros Hne; simpl; [lia|].
  rewrite length_app.
  assert (Hi : items <> []) by (apply (Hne k); left; reflexivity).
  assert (Hg : (length g <= length (concat (JSMap.values g)))%nat).
  { apply IH. intros k' items' Hin. apply (Hne k'). right. exact Hin. }
  destruct items; [contradiction|]. simpl. lia.
Qed.

Lemma reachable_grid_size st :
  reachable st -> (1 <= gridWidth st)%Z /\ (1 <= gridHeight st)%Z.
Proof.
  intros Hr. destruct (reachable_geometry st Hr) as (w & h & cs & Hg).
  unfold geometry in Hg. injection Hg as _ _ _ Hgw Hgh _.
  rewrite Hgw, Hgh. cbn [gridWidth gridHeight new].
  assert (Hpos : forall a b : R, 1 <= a -> 1 <= b -> (1 <= ceil (a / b))%Z).
  { intros a b Ha Hb. destruct (ceil_spec (a / b)) as [_ Hc].
    assert (Hinv : 0 < / b) by (apply Rinv_0_lt_compat; lra).
    assert (Hq : 0 < a / b) by (unfold Rdiv; nra).
    assert (Hz : 0 < IZR (ceil (a / b))) by lra.
    apply lt_IZR in Hz. lia. }
  split; apply Hpos; apply Rmax_l.
Qed.

(** X11.  In a reachable state [getStats] reports the number of stored
    items, a number of cells that is at most the size of the grid, and an
    average per cell that is 0 for an index without cells and at least 1
    otherwise; the memory estimate is 200 per item, 100 per cell and 50
    per cache entry. *)
Theorem getStats_consistent st :
  reachable st ->
  stats_itemCount (getStats st) = Z.of_nat (length (all_items st))
  /\ (Z.of_nat (stats_cellCount (getStats st)) <= stats_gridSize (getStats st))%Z
  /\ (stats_cellCount (getStats st) = 0%nat ->
      stats_itemCount (getStats st) = 0%Z
      /\ stats_averageItemsPerCell (getStats st) = 0)
  /\ ((0 < stats_cellCount (getStats st))%nat ->
      1 <= stats_averageItemsPerCell (getStats st))
  /\ mem_total (stats_memoryUsage (getStats st))
     = (200 * stats_itemCount (getStats st)
        + 100 * Z.of_nat (stats_cellCount (getStats st))
        + 50 * Z.of_nat (stats_cacheSize (getStats st)))%Z.
Proof.
  intros Hr.
  destruct (reachable_wf st Hr) as (_ & Hn & Hc & Hk & _).
  assert (Hne := reachable_nonempty st Hr).
  destruct (reachable_grid_size st Hr) as [Hgw Hgh].
  assert (Hcells := total_ge_cells (grid st) Hne).
  unfold total in Hcells. fold (all_items st) in Hcells.
  unfold count_ok in Hk.
  cbn [getStats stats_itemCount stats_cellCount stats_gridSize
       stats_cacheSize stats_averageItemsPerCell stats_memoryUsage
       estimateMemoryUsage mem_total].
  split; [exact Hk|]. split; [|split; [|split]].
  - assert (Hincl : incl (JSMap.keys (grid st))
                      (list_prod (zrange 0 (gridWidth st - 1))
                                 (zrange 0 (gridHeight st - 1)))).
    { intros k Hin. unfold JSMap.keys in Hin. apply in_map_iff in Hin.
      destruct Hin as ([k' items] & <- & Hin). cbn [fst].
      assert (Hi := Hne k' items Hin).
      destruct items as [|it items]; [contradiction|].
      destruct (Hc k' (it :: items) Hin it (or_introl eq_refl))
        as (x & y & _ & <-).
      unfold getGridKey. apply in_prod; apply In_zrange; lia. }
    assert (Hlen := NoDup_incl_length Hn Hincl).
    unfold cell in Hlen. rewrite length_prod, !length_zrange in Hlen.
    unfold JSMap.keys in Hlen. rewrite length_map in Hlen.
    replace (gridWidth st - 1 - 0 + 1)%Z with (gridWidth st) in Hlen by lia.
    replace (gridHeight st - 1 - 0 + 1)%Z with (gridHeight st) in Hlen by lia.
    apply Nat2Z.inj_le in Hlen.
    rewrite Nat2Z.inj_mul, !Z2Nat.id in Hlen by lia.
    exact Hlen.
  - intros Hz. unfold JSMap.size in *. rewrite Hz. cbn [Nat.ltb Nat.leb].
    split; [|reflexivity].
    destruct (grid st) as [|kv g] eqn:Hg; [|discriminate Hz].
    rewrite Hk. unfold all_items. rewrite Hg. reflexivity.
  - intros Hpos. rewrite (proj2 (Nat.ltb_lt _ _) Hpos).
    rewrite Hk, <- INR_IZR_INZ.
    assert (Hs : 0 < INR (JSMap.size (grid st))) by (apply lt_0_INR; exact Hpos).
    apply le_INR in Hcells.
    apply Rmult_le_reg_r with (1 := Hs).
    unfold Rdiv. rewrite Rmult_assoc, Rinv_l by lra. lra.
  - lia.
Qed.

Lemma In_remove_first k (l : list cache_key) k' :
  NoDup l -> (In k' (remove_first k l) <-> k' <> k /\ In k' l).
Proof.
  induction l as [|k0 l IH]; simpl; intros Hnd; [tauto|].
  inversion Hnd as [|? ? Hni Hnd']; subst.
  destruct (eq_dec k k0) as [->|Hn].
  - split.
    + intros Hin. split; [|tauto]. intros ->. contradiction.
    + intros [Hne [Heq|Hin]]; [congruence|exact Hin].
  - simpl. rewrite (IH Hnd'). split.
    + intros [<-|[Hne Hin]]; [split; [congruence|tauto]|tauto].
    + tauto.
Qed.

Lemma NoDup_remove_first k (l : list cache_key) :
  NoDup l -> NoDup (remove_first k l).
Proof.
  induction l as [|k0 l IH]; simpl; intros Hnd; [constructor|].
  inversion Hnd as [|? ? Hni Hnd']; subst.
  destruct (eq_dec k k0); [exact Hnd'|].
  constructor; [|auto]. rewrite (In_remove_first _ _ _ Hnd'). tauto.
Qed.

Lemma max_of_geometry st st' :
  geometry st' = geometry st -> maxCacheSize st' = maxCacheSize st.
Proof. unfold geometry. intros [= _ _ _ _ _ Hm]. exact Hm. Qed.

Lemma in_step_empty st :
  queryCache st = [] -> cacheAccessOrder st = [] -> cache_in_step st.
Proof.
  intros Hq Ho. unfold cache_in_step. rewrite Hq, Ho.
  split; [constructor|]. split; [constructor|].
  split; [tauto|]. simpl. lia.
Qed.

Lemma in_step_same st st' :
  queryCache st' = queryCache st ->
  cacheAccessOrder st' = cacheAccessOrder st ->
  maxCacheSize st' = maxCacheSize st ->
  cache_in_step st -> cache_in_step st'.
Proof. unfold cache_in_step. intros -> -> ->. auto. Qed.

Lemma in_step_remove st id :
  cache_in_step st -> cache_in_step (snd (remove st id)).
Proof.
  intros Hs. unfold remove. destruct id as [s|]; [|exact Hs].
  destruct (truthy_id (Some s)); [|exact Hs].
  destruct (0 <? _)%nat; cbn [snd].
  - apply in_step_empty; reflexivity.
  - apply (in_step_same st); [reflexivity..|exact Hs].
Qed.

Lemma in_step_insert st item :
  cache_in_step st -> cache_in_step (snd (insert st item)).
Proof.
  intros Hs.
  destruct (item_position item) as [[[|x] [|y]]|] eqn:Hp.
  1-3,5: unfold insert; rewrite Hp; exact Hs.
  destruct (insert_valid st item x y Hp) as (_ & Hq & Ho).
  apply in_step_empty; assumption.
Qed.

Lemma in_step_addToCache st k v :
  (1 <= maxCacheSize st)%nat ->
  JSMap.get (queryCache st) k = None ->
  cache_in_step st -> cache_in_step (addToCache st k v).
Proof.
  intros Hmax Hg (Ho & Hk & Hsync & Hsize).
  assert (Hnk := get_None_keys _ _ Hg).
  unfold addToCache.
  destruct (maxCacheSize st <=? JSMap.size (queryCache st))%nat eqn:Hfull.
  - apply Nat.leb_le in Hfull.
    destruct (cacheAccessOrder st) as [|oldest rest] eqn:Horder.
    + exfalso. destruct (queryCache st) as [|[k0 v0] q] eqn:Hq;
        [simpl in Hfull; lia|].
      apply (proj2 (Hsync k0)). left. reflexivity.
    + inversion Ho as [|? ? Hni Ho']; subst.
      assert (Hin : In oldest (JSMap.keys (queryCache st))).
      { apply Hsync. left. reflexivity. }
      assert (Hne : k <> oldest) by (intros ->; contradiction).
      assert (Hd := size_delete _ _ Hk Hin).
      assert (Hg' : JSMap.get (JSMap.delete (queryCache st) oldest) k = None).
      { apply get_None_not_In. rewrite In_keys_delete. tauto. }
      unfold cache_in_step.
      cbn [queryCache cacheAccessOrder maxCacheSize with_cache].
      split; [|split; [|split]].
      * apply NoDup_snoc; [exact Ho'|].
        intros Hin'. apply Hnk, Hsync. right. exact Hin'.
      * apply NoDup_keys_set, NoDup_keys_delete, Hk.
      * intros k'. rewrite in_app_iff, In_keys_set, In_keys_delete.
        specialize (Hsync k'). simpl in Hsync |- *.
        split.
        -- intros [Hr|[<-|[]]]; [|tauto]. right. split; [|tauto].
           intros ->. contradiction.
        -- intros [->|[Hne' Hin']]; [tauto|].
           apply Hsync in Hin'. destruct Hin' as [Heq|Hin']; [congruence|tauto].
      * rewrite (size_set_new _ _ _ Hg'). lia.
  - apply Nat.leb_gt in Hfull.
    unfold cache_in_step.
    cbn [queryCache cacheAccessOrder maxCacheSize with_cache].
    split; [|split; [|split]].
    + apply NoDup_snoc; [exact Ho|]. intros Hin. apply Hnk, Hsync, Hin.
    + apply NoDup_keys_set, Hk.
    + intros k'. rewrite in_app_iff, In_keys_set. specialize (Hsync k').
      simpl. intuition congruence.
    + rewrite (size_set_new _ _ _ Hg). lia.
Qed.

Lemma in_step_query st p r :
  (1 <= maxCacheSize st)%nat ->
  cache_in_step st -> cache_in_step (snd (query st p r)).
Proof.
  intros Hmax Hs. unfold query.
  destruct p as [[[|x] [|y]]|]; try exact Hs.
  destruct r as [|r]; [exact Hs|].
  destruct (ltb r 0); [exact Hs|].
  destruct (JSMap.get (queryCache st) (cacheKey x y r)) as [cached|] eqn:Hg;
    cbn [snd].
  - destruct Hs as (Ho & Hk & Hsync & Hsize).
    assert (Hin := get_Some_keys _ _ _ Hg).
    unfold cache_in_step.
    cbn [queryCache cacheAccessOrder maxCacheSize updateCacheAccess with_cache].
    split; [|split; [exact Hk|split; [|exact Hsize]]].
    + apply NoDup_snoc; [apply NoDup_remove_first; exact Ho|].
      rewrite (In_remove_first _ _ _ Ho). tauto.
    + intros k'. rewrite in_app_iff, (In_remove_first _ _ _ Ho).
      specialize (Hsync k'). simpl.
      destruct (eq_dec k' (cacheKey x y r)) as [->|Hne]; [tauto|].
      split; [intros [[_ Hk']|[Heq|[]]]; [tauto|congruence]|tauto].
  - apply in_step_addToCache; assumption.
Qed.

Lemma in_step_findNearest_loop radii :
  forall st x y nearest minDistance,
    (1 <= maxCacheSize st)%nat -> cache_in_step st ->
    cache_in_step (snd (findNearest_loop st x y radii nearest minDistance)).
Proof.
  induction radii as [|radius rest IH]; intros st x y nearest minDistance
    Hmax Hs; cbn [findNearest_loop]; [exact Hs|].
  destruct (ltb minDistance radius); [exact Hs|].
  assert (Hq := in_step_query st (Some (x, y)) (Num radius) Hmax Hs).
  assert (Hm := max_of_geometry _ _
                  (geometry_query st (Some (x, y)) (Num radius))).
  destruct (query st (Some (x, y)) (Num radius)) as [candidates st'].
  destruct (fold_left (nearest_step x y) candidates (nearest, minDistance))
    as [[found|] minDistance']; [exact Hq|].
  cbn [snd] in Hq, Hm. apply IH; [lia|exact Hq].
Qed.

Lemma in_step_findNearest st p m :
  (1 <= maxCacheSize st)%nat -> cache_in_step st ->
  cache_in_step (snd (findNearest st p m)).
Proof.
  intros Hmax Hs. unfold findNearest. destruct p as [[x y]|]; [|exact Hs].
  apply in_step_findNearest_loop; assumption.
Qed.

Lemma without_cleanup_reachable st :
  reachable_without_cleanup st -> reachable st.
Proof.
  induction 1; [apply reach_new|apply reach_insert|apply reach_remove
               |apply reach_update|apply reach_query|apply reach_findNearest
               |apply reach_clear]; assumption.
Qed.

Lemma reachable_maxCacheSize st : reachable st -> maxCacheSize st = 100%nat.
Proof.
  intros Hr. destruct (reachable_geometry st Hr) as (w & h & cs & Hg).
  rewrite (max_of_geometry _ _ Hg). reflexivity.
Qed.

(** X12.  As long as [cleanup()] is not called, the query cache holds at
    most [maxCacheSize], 100, entries, and [cacheAccessOrder] lists
    exactly the cached keys, each of them once. *)
Theorem cache_bounded_without_cleanup st :
  reachable_without_cleanup st ->
  (JSMap.size (queryCache st) <= 100)%nat
  /\ NoDup (cacheAccessOrder st)
  /\ NoDup (JSMap.keys (queryCache st))
  /\ forall k, In k (cacheAccessOrder st) <-> JSMap.has (queryCache st) k = true.
Proof.
  intros Hr.
  assert (Hs : cache_in_step st).
  { induction Hr as [w h cs|st item Hr IH|st id Hr IH|st item Hr IH
                    |st p r Hr IH|st p m Hr IH|st Hr IH].
    - apply in_step_empty; reflexivity.
    - apply in_step_insert, IH.
    - apply in_step_remove, IH.
    - unfold update. destruct (truthy_id (item_id item)); [|exact IH].
      apply in_step_insert, in_step_remove, IH.
    - apply in_step_query; [|exact IH].
      rewrite (reachable_maxCacheSize st (without_cleanup_reachable st Hr)). lia.
    - apply in_step_findNearest; [|exact IH].
      rewrite (reachable_maxCacheSize st (without_cleanup_reachable st Hr)). lia.
    - apply in_step_empty; reflexivity. }
  destruct Hs as (Ho & Hk & Hsync & Hsize).
  rewrite (reachable_maxCacheSize st (without_cleanup_reachable st Hr)) in Hsize.
  split; [exact Hsize|]. split; [exact Ho|]. split; [exact Hk|].
  intros k. rewrite Hsync. unfold JSMap.has.
  destruct (JSMap.get (queryCache st) k) as [v|] eqn:Hg.
  - split; [reflexivity|]. intros _. exact (get_Some_keys _ _ _ Hg).
  - split; [|discriminate]. intros Hin. exfalso.
    exact (get_None_keys _ _ Hg Hin).
Qed.
End Laws.

(** *** The properties on the example indexes *)

Lemma canvas_reachable : reachable canvas.
Proof. apply reach_new. Qed.

Lemma reachable_index_consistent_witness :
  itemCount canvas_a = Z.of_nat (length (all_items canvas_a))
  /\ NoDup (JSMap.keys (grid canvas_a))
  /\ forall k items, In (k, items) (grid canvas_a) ->
       items <> []
       /\ forall it, In it items ->
            exists x y,
              item_position it = Some (Num x, Num y)
              /\ getGridKey canvas_a (Num x) (Num y) = k.
Proof.
  apply (reachable_index_consistent canvas_a). exact canvas_a_reachable.
Defined.

Lemma insert_then_query_finds_witness :
  fst (insert canvas item_a) = true
  /\ In item_a
       (fst (query (snd (insert canvas item_a)) (Some (Num 15, Num 10))
               (Num 1))).
Proof.
  apply (insert_then_query_finds canvas item_a 15.2 10 15 10 1).
  - exact canvas_reachable.
  - reflexivity.
  - rewrite canvas_eq. cbn [width]. lra.
  - rewrite canvas_eq. cbn [height]. lra.
  - apply sqrt_le_iff; nra.
Defined.

Lemma insert_replaces_same_id_witness :
  filter (has_id [97%Z]) (all_items (snd (insert canvas_a item_a))) = [item_a]
  /\ findItemById (snd (insert canvas_a item_a)) (Some [97%Z]) = Some item_a
  /\ filter (fun it => negb (has_id [97%Z] it))
       (all_items (snd (insert canvas_a item_a)))
     = filter (fun it => negb (has_id [97%Z] it)) (all_items canvas_a).
Proof.
  apply (insert_replaces_same_id canvas_a item_a [97%Z] 15.2 10).
  - reflexivity.
  - discriminate.
  - reflexivity.
Defined.

Lemma remove_forgets_id_witness :
  all_items (snd (remove canvas_a (Some [97%Z])))
  = filter (fun it => negb (has_id [97%Z] it)) (all_items canvas_a)
  /\ findItemById (snd (remove canvas_a (Some [97%Z]))) (Some [97%Z]) = None
  /\ itemCount (snd (remove canvas_a (Some [97%Z])))
     = (itemCount canvas_a
        - Z.of_nat (length (filter (has_id [97%Z]) (all_items canvas_a))))%Z
  /\ (fst (remove canvas_a (Some [97%Z])) = true
      <-> exists it, In it (all_items canvas_a) /\ item_id it = Some [97%Z]).
Proof.
  apply (remove_forgets_id canvas_a [97%Z]).
  - exact canvas_a_reachable.
  - discriminate.
Defined.

Lemma remove_unknown_id_is_noop_witness :
  remove canvas_a (Some [98%Z]) = (false, canvas_a).
Proof.
  apply (remove_unknown_id_is_noop canvas_a (Some [98%Z])).
  rewrite canvas_a_eq. reflexivity.
Defined.

Lemma getItemsInBounds_exact_witness :
  In item_a (getItemsInBounds canvas_a 0 0 100 100)
  <-> In item_a (all_items canvas_a) /\ in_bounds 0 0 100 100 item_a.
Proof.
  apply (getItemsInBounds_exact canvas_a 0 0 100 100).
  - exact canvas_a_reachable.
  - exact canvas_a_on_canvas.
Defined.

Lemma performQuery_canvas_a : performQuery canvas_a 15 10 50 = [item_a].
Proof.
  assert (Hw : within 15 10 50 item_a = true).
  { apply within_true. exists 15.2, 10. split; [reflexivity|].
    apply sqrt_le_iff; nra. }
  unfold performQuery. rewrite canvas_a_eq.
  cbn [cellSize gridWidth gridHeight grid].
  rewrite (ceil_unique (50 / 50) 1) by (simpl; lra).
  rewrite (floor_unique (15 / 50) 0) by (simpl; lra).
  rewrite (floor_unique (10 / 50) 0) by (simpl; lra).
  change (zrange (Z.max 0 (0 - 1)) (Z.min (16 - 1) (0 + 1))) with [0%Z; 1%Z].
  change (zrange (Z.max 0 (0 - 1)) (Z.min (12 - 1) (0 + 1))) with [0%Z; 1%Z].
  cbn [flat_map app].
  change (JSMap.get [((0, 0)%Z, [item_a])] (0, 0)%Z) with (Some [item_a]).
  change (JSMap.get [((0, 0)%Z, [item_a])] (0, 1)%Z) with (@None (list plain_item)).
  change (JSMap.get [((0, 0)%Z, [item_a])] (1, 0)%Z) with (@None (list plain_item)).
  change (JSMap.get [((0, 0)%Z, [item_a])] (1, 1)%Z) with (@None (list plain_item)).
  cbn [filter app]. rewrite Hw. reflexivity.
Qed.

Lemma findNearest_canvas_a :
  fst (findNearest canvas_a (Some (Num 15, Num 10)) None) = Some item_a.
Proof.
  unfold findNearest. cbn [findNearest_loop].
  rewrite (proj2 (ltb_false 1000 50)) by lra.
  rewrite (query_miss canvas_a 15 10 50);
    [|lra|rewrite canvas_a_eq; reflexivity].
  rewrite performQuery_canvas_a. cbn [fold_left].
  unfold nearest_step.
  cbn [item_position plain_Indexable plain_position item_a snd].
  rewrite (proj2 (ltb_true _ 1000)); [reflexivity|].
  apply sqrt_lt_iff; nra.
Qed.

Lemma findNearest_sound_witness :
  In item_a (all_items canvas_a)
  /\ exists d, distance_to 15 10 item_a d /\ d < 1000.
Proof.
  apply (findNearest_sound canvas_a 15 10 None item_a).
  - exact canvas_a_reachable.
  - exact findNearest_canvas_a.
Defined.

Lemma cleanup_keeps_cells_witness :
  grid (cleanup canvas_a) = grid canvas_a
  /\ itemCount (cleanup canvas_a) = itemCount canvas_a
  /\ if (maxCacheSize canvas_a <? 2 * JSMap.size (queryCache canvas_a))%nat
     then queryCache (cleanup canvas_a) = []
          /\ cacheAccessOrder (cleanup canvas_a)
             = slice_last (maxCacheSize canvas_a / 2)
                 (cacheAccessOrder canvas_a)
     else queryCache (cleanup canvas_a) = queryCache canvas_a
          /\ cacheAccessOrder (cleanup canvas_a) = cacheAccessOrder canvas_a.
Proof.
  apply (cleanup_keeps_cells canvas_a). exact canvas_a_reachable.
Defined.

Lemma clear_is_new_witness :
  exists w h cs, clear canvas_a = new w h cs.
Proof.
  apply (clear_is_new canvas_a). exact canvas_a_reachable.
Defined.

Lemma getStats_consistent_witness :
  stats_itemCount (getStats canvas_a) = Z.of_nat (length (all_items canvas_a))
  /\ (Z.of_nat (stats_cellCount (getStats canvas_a))
      <= stats_gridSize (getStats canvas_a))%Z
  /\ (stats_cellCount (getStats canvas_a) = 0%nat ->
      stats_itemCount (getStats canvas_a) = 0%Z
      /\ stats_averageItemsPerCell (getStats canvas_a) = 0)
  /\ ((0 < stats_cellCount (getStats canvas_a))%nat ->
      1 <= stats_averageItemsPerCell (getStats canvas_a))
  /\ mem_total (stats_memoryUsage (getStats canvas_a))
     = (200 * stats_itemCount (getStats canvas_a)
        + 100 * Z.of_nat (stats_cellCount (getStats canvas_a))
        + 50 * Z.of_nat (stats_cacheSize (getStats canvas_a)))%Z.
Proof.
  apply (getStats_consistent canvas_a). exact canvas_a_reachable.
Defined.

Lemma cache_bounded_without_cleanup_witness :
  let st := snd (query canvas_a (Some (Num 10.4, Num 10)) (Num 5)) in
  (JSMap.size (queryCache st) <= 100)%nat
  /\ NoDup (cacheAccessOrder st)
  /\ NoDup (JSMap.keys (queryCache st))
  /\ forall k,
       In k (cacheAccessOrder st) <-> JSMap.has (queryCache st) k = true.
Proof.
  cbv zeta.
  apply (cache_bounded_without_cleanup
           (snd (query canvas_a (Some (Num 10.4, Num 10)) (Num 5)))).
  apply rwc_query, rwc_insert, rwc_new.
Defined.
End SpatialIndexLaws.

(** ** The semantic field *)

Module SemanticFieldLaws.
Import JSMath JSMathFacts JSMapFacts SemanticField.
Import SemanticFieldClaims Scenarios ListLaws JSMapLaws StableSortLaws.
Open Scope R_scope.

(** *** [tokenize] *)

Lemma split_words_sound s :
  forall cur w,
    (forall c, In c cur -> is_separator c = false) ->
    In w (split_words s cur) ->
    w <> [] /\ forall c, In c w -> is_separator c = false.
Proof.
  assert (Hrev : forall cur : jsstring, cur <> [] ->
            (forall c, In c cur -> is_separator c = false) ->
            rev cur <> [] /\ forall c, In c (rev cur) -> is_separator c = false).
  { intros cur Hne Hcur. split.
    - intros Hnil. apply (f_equal (@rev Z)) in Hnil.
      rewrite rev_involutive in Hnil. exact (Hne Hnil).
    - intros c Hc. apply Hcur. apply in_rev. exact Hc. }
  induction s as [|c s IH]; intros cur w Hcur; cbn [split_words].
  - destruct cur as [|c0 cur]; [intros []|].
    intros [<-|[]]. apply Hrev; [discriminate|exact Hcur].
  - destruct (is_separator c) eqn:Hsep.
    + destruct cur as [|c0 cur].
      * apply IH. intros c' [].
      * intros [<-|Hin]; [apply Hrev; [discriminate|exact Hcur]|].
        revert Hin. apply IH. intros c' [].
    + apply IH. intros c' [<-|Hin]; [exact Hsep|exact (Hcur c' Hin)].
Qed.

Lemma split_words_app w :
  forall rest cur,
    (forall c, In c w -> is_separator c = false) ->
    split_words (w ++ rest) cur = split_words rest (rev w ++ cur).
Proof.
  induction w as [|c w IH]; intros rest cur Hw; [reflexivity|].
  cbn [app split_words]. rewrite (Hw c) by (left; reflexivity).
  rewrite IH by (intros c' Hc'; apply Hw; right; exact Hc').
  cbn [rev]. rewrite <- app_assoc. reflexivity.
Qed.

(** X13.  The words that [tokenize] returns are non-empty and hold no
    white space and none of the four punctuation marks; and words of that
    kind, written one after the other with a space after each, are
    returned as they are. *)
Theorem tokenize_words (text : jsstring) (words : list jsstring) :
  (forall w, In w (tokenize text) ->
   w <> [] /\ forall c, In c w -> is_separator c = false)
  /\ ((forall w, In w words ->
       w <> [] /\ forall c, In c w -> is_separator c = false) ->
      tokenize (flat_map (fun w => w ++ [32%Z]) words) = words).
Proof.
  split.
  - intros w. apply split_words_sound. intros c [].
  - unfold tokenize. induction words as [|w words IH]; intros Hw;
      [reflexivity|].
    cbn [flat_map]. rewrite <- !app_assoc.
    destruct (Hw w (or_introl eq_refl)) as [Hne Hsep].
    rewrite (split_words_app w _ [] Hsep), app_nil_r.
    cbn [app split_words].
    change (is_separator 32) with true. cbv iota.
    destruct (rev w) as [|c r] eqn:Hr.
    + exfalso. apply Hne. apply (f_equal (@rev Z)) in Hr.
      rewrite rev_involutive in Hr. exact Hr.
    + rewrite <- Hr, rev_involutive. f_equal.
      apply IH. intros w' Hw'. apply Hw. right. exact Hw'.
Qed.

(** *** [simpleHash] and [getWordEmbedding] *)

Lemma toInt32_range z : (- 2 ^ 31 <= toInt32 z < 2 ^ 31)%Z.
Proof.
  unfold toInt32.
  assert (H := Z.mod_pos_bound (z + 2 ^ 31) (2 ^ 32) eq_refl). lia.
Qed.

Lemma simpleHash_range s : (- 2 ^ 31 <= simpleHash s < 2 ^ 31)%Z.
Proof.
  unfold simpleHash.
  assert (H : forall h, (- 2 ^ 31 <= h < 2 ^ 31)%Z ->
            (- 2 ^ 31
             <= fold_left
                  (fun hash char =>
                   toInt32 (toInt32 (Z.shiftl hash 5) - hash + char)) s h
             < 2 ^ 31)%Z).
  { induction s as [|c s IH]; intros h Hh; simpl; [exact Hh|].
    apply IH. apply toInt32_range. }
  apply H. lia.
Qed.

(** X14.  [simpleHash] is a signed 32-bit integer.  [getWordEmbedding]
    gives [null] for the empty word and otherwise a vector of 50
    components, each between -1 and 1. *)
Theorem word_embedding_shape (word : jsstring) :
  (- 2 ^ 31 <= simpleHash word < 2 ^ 31)%Z
  /\ match getWordEmbedding word with
     | None => word = []
     | Some v =>
         word <> [] /\ length v = 50%nat
         /\ forall x, In x v -> -1 <= x <= 1
     end.
Proof.
  split; [apply simpleHash_range|].
  unfold getWordEmbedding. destruct word as [|c word]; [reflexivity|].
  split; [discriminate|]. split.
  - rewrite length_map, length_seq. reflexivity.
  - intros x Hx. apply in_map_iff in Hx. destruct Hx as (i & <- & _).
    set (h := IZR (simpleHash (c :: word))).
    assert (Hs := SIN_bound (h * (INR i + 1))).
    assert (Hc := COS_bound (h * (INR i + 2))).
    split; nra.
Qed.

(** *** [calculateSemanticSimilarity] *)

Lemma fold_sum_swap (f : R -> R -> R) (l1 l2 : list R) :
  forall a,
    fold_left (fun acc p => acc + f (fst p) (snd p)) (combine l1 l2) a
    = fold_left (fun acc p => acc + f (snd p) (fst p)) (combine l2 l1) a.
Proof.
  revert l2. induction l1 as [|x l1 IH]; intros [|y l2] a; simpl;
    try reflexivity.
  apply IH.
Qed.

Lemma fold_sum_ext {A} (f g : R -> A -> R) (l : list A) :
  (forall a x, f a x = g a x) ->
  forall a, fold_left f l a = fold_left g l a.
Proof.
  intros Hfg. induction l as [|x l IH]; intros a; simpl; [reflexivity|].
  rewrite Hfg. apply IH.
Qed.

Lemma fold_squares_nonneg (l : list (R * R)) (g : R * R -> R) :
  forall a, 0 <= a -> 0 <= fold_left (fun acc p => acc + g p * g p) l a.
Proof.
  induction l as [|p l IH]; intros a Ha; simpl; [exact Ha|].
  apply IH. nra.
Qed.

(** X15.  The similarity of two vectors lies between 0 and 1 and does
    not depend on their order. *)
Theorem similarity_symmetric_bounded (v1 v2 : list R) :
  0 <= calculateSemanticSimilarity v1 v2 <= 1
  /\ calculateSemanticSimilarity v1 v2 = calculateSemanticSimilarity v2 v1.
Proof.
  split.
  - unfold calculateSemanticSimilarity.
    destruct v1 as [|x1 v1]; [lra|]. destruct v2 as [|x2 v2]; [lra|].
    destruct (ltb 0 _); [|lra].
    apply Rmax_Rmin_bounds. lra.
  - unfold calculateSemanticSimilarity.
    destruct v1 as [|x1 v1]; destruct v2 as [|x2 v2]; try reflexivity.
    set (l1 := x1 :: v1). set (l2 := x2 :: v2).
    rewrite (fold_sum_swap (fun a b => or_default a 0 * or_default b 0) l1 l2).
    rewrite (fold_sum_swap (fun a b => or_default a 0 * or_default a 0) l1 l2).
    rewrite (fold_sum_swap (fun a b => or_default b 0 * or_default b 0) l1 l2).
    rewrite (fold_sum_ext
               (fun acc p => acc + or_default (snd p) 0 * or_default (fst p) 0)
               (fun acc p => acc + or_default (fst p) 0 * or_default (snd p) 0))
      by (intros; ring).
    rewrite (Rmult_comm (sqrt _) (sqrt _)). reflexivity.
Qed.

(** *** [addSemanticConnection] *)

(** X16.  After [addSemanticConnection(word1, word2, strength)] with two
    non-empty words the pair is recorded with the strength clamped to
    [0, 1], and [getSemanticDistance(word1, word2)] is one minus that. *)
Theorem connection_round_trip sf (word1 word2 : jsstring) (strength : R) :
  word1 <> [] -> word2 <> [] ->
  similarity_of (addSemanticConnection sf word1 word2 strength) word1 word2
  = Some (clamp 0 1 strength)
  /\ getSemanticDistance (addSemanticConnection sf word1 word2 strength)
       word1 word2
     = 1 - clamp 0 1 strength.
Proof.
  intros H1 H2.
  assert (Hsim : similarity_of (addSemanticConnection sf word1 word2 strength)
                   word1 word2 = Some (clamp 0 1 strength)).
  { unfold similarity_of, addSemanticConnection.
    destruct word1 as [|c1 w1]; [contradiction H1; reflexivity|].
    destruct word2 as [|c2 w2]; [contradiction H2; reflexivity|].
    set (sf1 := if (_ <=? _)%nat then _ else sf).
    set (g1 := if JSMap.has _ _ then _ else _).
    assert (Hg1 : exists connections, JSMap.get g1 (c1 :: w1) = Some connections).
    { subst g1. unfold JSMap.has.
      destruct (JSMap.get (semanticGraph sf1) (c1 :: w1)) as [cs|] eqn:Hg.
      - exists cs. exact Hg.
      - exists JSMap.empty. apply get_set_eq. }
    destruct Hg1 as (connections & ->).
    cbn [semanticGraph with_graph]. rewrite !get_set_eq. reflexivity. }
  split; [exact Hsim|].
  unfold similarity_of in Hsim. unfold getSemanticDistance.
  destruct word1 as [|c1 w1]; [contradiction H1; reflexivity|].
  destruct word2 as [|c2 w2]; [contradiction H2; reflexivity|].
  destruct (JSMap.get (semanticGraph _) (c1 :: w1)) as [connections|];
    [|discriminate].
  rewrite Hsim. apply Rmax_right.
  assert (Hb := Rmax_Rmin_bounds 0 1 strength). unfold clamp. lra.
Qed.

Lemma keepCount_lt (max : nat) : (0 < max)%nat -> (keepCount max < max)%nat.
Proof.
  intros Hm. unfold keepCount.
  apply Nat.Div0.div_lt_upper_bound. lia.
Qed.

Lemma size_cleanupSemanticGraph sf :
  (JSMap.size (semanticGraph (cleanupSemanticGraph sf))
   <= keepCount (maxSemanticGraphSize sf))%nat
  /\ maxSemanticGraphSize (cleanupSemanticGraph sf) = maxSemanticGraphSize sf.
Proof.
  unfold cleanupSemanticGraph. cbn [semanticGraph maxSemanticGraphSize with_graph].
  split; [|reflexivity].
  set (entries := stable_sort _ _).
  assert (Hs := size_fold_set
                  (firstn (keepCount (maxSemanticGraphSize sf)) entries)
                  JSMap.empty).
  assert (Hl := firstn_le_length (keepCount (maxSemanticGraphSize sf)) entries).
  cbn [JSMap.size JSMap.empty length] in Hs. unfold JSMap.size in *. lia.
Qed.

Lemma within_cap_addSemanticConnection sf w1 w2 s :
  graph_within_cap sf -> graph_within_cap (addSemanticConnection sf w1 w2 s).
Proof.
  intros [Hpos Hsize]. unfold addSemanticConnection.
  destruct w1 as [|c1 w1]; [split; assumption|].
  destruct w2 as [|c2 w2]; [split; assumption|].
  set (sf1 := if (_ <=? _)%nat then _ else sf).
  assert (H1 : maxSemanticGraphSize sf1 = maxSemanticGraphSize sf
          /\ (JSMap.size (semanticGraph sf1) < maxSemanticGraphSize sf)%nat).
  { subst sf1.
    destruct (maxSemanticGraphSize sf <=? JSMap.size (semanticGraph sf))%nat
      eqn:E.
    - destruct (size_cleanupSemanticGraph sf) as [Hs Hm].
      split; [exact Hm|]. assert (Hk := keepCount_lt _ Hpos). lia.
    - apply Nat.leb_gt in E. split; [reflexivity|exact E]. }
  clearbody sf1. destruct H1 as [Hm Hlt].
  set (g1 := if JSMap.has _ _ then _ else _).
  assert (Hg1 : (JSMap.size g1 <= maxSemanticGraphSize sf)%nat
          /\ JSMap.has g1 (c1 :: w1) = true).
  { subst g1. destruct (JSMap.has (semanticGraph sf1) (c1 :: w1)) eqn:Hh.
    - split; [lia|exact Hh].
    - split.
      + assert (Hs := size_set_le (semanticGraph sf1) (c1 :: w1)
                        (@JSMap.empty jsstring R)). lia.
      + unfold JSMap.has. rewrite get_set_eq. reflexivity. }
  clearbody g1. destruct Hg1 as [Hs1 Hh1].
  unfold graph_within_cap.
  destruct (JSMap.get g1 (c1 :: w1)) as [connections|] eqn:Hg;
    cbn [semanticGraph maxSemanticGraphSize with_graph]; rewrite Hm.
  - rewrite (size_set_has _ _ _ Hh1). split; assumption.
  - split; assumption.
Qed.

Lemma within_cap_fold {A} (f : SemanticField.t -> A -> SemanticField.t)
  (l : list A) :
  (forall sf a, graph_within_cap sf -> graph_within_cap (f sf a)) ->
  forall sf, graph_within_cap sf -> graph_within_cap (fold_left f l sf).
Proof.
  intros Hf. induction l as [|a l IH]; intros sf Hsf; simpl; [exact Hsf|].
  apply IH, Hf, Hsf.
Qed.

Lemma within_cap_same sf sf' :
  semanticGraph sf' = semanticGraph sf ->
  maxSemanticGraphSize sf' = maxSemanticGraphSize sf ->
  graph_within_cap sf -> graph_within_cap sf'.
Proof. unfold graph_within_cap. intros -> ->. auto. Qed.

Lemma within_cap_cleanupSemanticGraph sf :
  graph_within_cap sf -> graph_within_cap (cleanupSemanticGraph sf).
Proof.
  intros [Hpos _]. destruct (size_cleanupSemanticGraph sf) as [Hs Hm].
  unfold graph_within_cap. rewrite Hm. split; [exact Hpos|].
  assert (Hk := keepCount_lt _ Hpos). lia.
Qed.

Lemma within_cap_detect sf words :
  graph_within_cap sf -> graph_within_cap (detectCollocationPatterns sf words).
Proof.
  intros Hsf. unfold detectCollocationPatterns.
  destruct (_ <? 2)%nat; [exact Hsf|].
  apply (within_cap_same sf); [| |exact Hsf];
    destruct (_ <=? _)%nat; reflexivity.
Qed.

Lemma within_cap_cleanup sf :
  graph_within_cap sf -> graph_within_cap (SemanticField.cleanup sf).
Proof.
  intros Hsf. unfold SemanticField.cleanup.
  set (sf1 := with_history sf _).
  assert (H1 : graph_within_cap sf1).
  { apply (within_cap_same sf); [reflexivity|reflexivity|exact Hsf]. }
  clearbody sf1.
  set (sf2 := if (_ <? _)%nat then _ else sf1).
  assert (H2 : graph_within_cap sf2).
  { subst sf2. destruct (_ <? _)%nat; [|exact H1].
    apply within_cap_cleanupSemanticGraph. exact H1. }
  clearbody sf2.
  destruct (_ <? _)%nat; [|exact H2].
  apply (within_cap_same sf2); [reflexivity|reflexivity|exact H2].
Qed.

Lemma within_cap_performCleanupIfNeeded sf :
  graph_within_cap sf -> graph_within_cap (performCleanupIfNeeded sf).
Proof.
  intros Hsf. unfold performCleanupIfNeeded.
  assert (H1 : graph_within_cap (with_counter sf (S (cleanupCounter sf)))).
  { apply (within_cap_same sf); [reflexivity|reflexivity|exact Hsf]. }
  destruct (100 <=? _)%nat; [|exact H1].
  apply (within_cap_same (SemanticField.cleanup
                            (with_counter sf (S (cleanupCounter sf)))));
    [reflexivity|reflexivity|].
  apply within_cap_cleanup. exact H1.
Qed.

(** X17.  The association graph never outgrows its capacity: when
    [maxSemanticGraphSize] is positive and the graph holds at most that
    many root entries, so it does after [addSemanticConnection] and after
    [analyzeSemanticStructure] of any text, however many new words the
    text brings. *)
Theorem semantic_graph_within_cap sf :
  graph_within_cap sf ->
  (forall word1 word2 strength,
     graph_within_cap (addSemanticConnection sf word1 word2 strength))
  /\ forall text, graph_within_cap (analyzeSemanticStructure sf text).
Proof.
  intros Hsf. split.
  - intros w1 w2 s. apply within_cap_addSemanticConnection. exact Hsf.
  - intros text. unfold analyzeSemanticStructure.
    destruct text as [|c text]; [exact Hsf|].
    destruct (tokenize (c :: text)) as [|w ws]; [exact Hsf|].
    apply within_cap_performCleanupIfNeeded, within_cap_detect.
    apply within_cap_fold; [|exact Hsf].
    intros sf' i Hsf'. unfold connect_from.
    apply within_cap_fold; [|exact Hsf'].
    intros sf'' j Hsf''.
    destruct (nth_error _ i); [|exact Hsf''].
    destruct (nth_error _ j); [|exact Hsf''].
    destruct (ltb _ _); [|exact Hsf''].
    apply within_cap_addSemanticConnection. exact Hsf''.
Qed.

(** *** The reading history *)

Lemma length_trim_oldest {A} (max : nat) (l : list A) :
  (length (trim_oldest max l) <= max)%nat.
Proof.
  unfold trim_oldest. destruct (max <? length l)%nat eqn:E.
  - apply Nat.ltb_lt in E. rewrite length_skipn. lia.
  - apply Nat.ltb_ge in E. exact E.
Qed.

(** X18.  The reading history never exceeds [maxHistorySize]: after
    [addToReadingHistory], and so after [simulateReadingBody], it holds at
    most that many entries; with a positive capacity the entry just added
    is the last one, and what is dropped is dropped from the old end. *)
Theorem reading_history_within_cap sf (entry : history_entry)
  (nodeId char : jsstring) (pos : R * R) (textPositions : list (R * R)) :
  (length (readingHistory (addToReadingHistory sf entry))
   <= maxHistorySize sf)%nat
  /\ ((0 < maxHistorySize sf)%nat ->
      exists older,
        readingHistory (addToReadingHistory sf entry) = older ++ [entry]
        /\ exists dropped, readingHistory sf = dropped ++ older)
  /\ ((length (readingHistory sf) <= maxHistorySize sf)%nat ->
      (length (readingHistory
                 (snd (simulateReadingBody sf nodeId char pos textPositions)))
       <= maxHistorySize sf)%nat).
Proof.
  split; [|split].
  - apply length_trim_oldest.
  - intros Hm. cbn [readingHistory addToReadingHistory with_history].
    unfold trim_oldest. destruct (_ <? _)%nat.
    + rewrite length_app. cbn [length].
      exists (skipn (length (readingHistory sf) + 1 - maxHistorySize sf)
                (readingHistory sf)).
      split.
      * rewrite skipn_app.
        replace (length (readingHistory sf) + 1 - maxHistorySize sf
                 - length (readingHistory sf))%nat with 0%nat by lia.
        reflexivity.
      * exists (firstn (length (readingHistory sf) + 1 - maxHistorySize sf)
                  (readingHistory sf)).
        symmetry. apply firstn_skipn.
    + exists (readingHistory sf). split; [reflexivity|].
      exists []. reflexivity.
  - intros Hlen. unfold simulateReadingBody.
    destruct char as [|c char]; [exact Hlen|].
    cbn [snd]. apply length_trim_oldest.
Qed.

(** What the two cleanups keep: the first [n] entries in the sorted
    order. *)
Lemma rebuilt_table {K V} `{EqDec K} (before : K * V -> K * V -> bool)
  (n : nat) (m : JSMap.t K V) :
  NoDup (JSMap.keys m) ->
  fold_left (fun g e => JSMap.set g (fst e) (snd e))
    (firstn n (stable_sort before m)) JSMap.empty
  = firstn n (stable_sort before m).
Proof.
  intros Hnd. rewrite fold_set_NoDup; [reflexivity|].
  cbn [JSMap.keys JSMap.empty map app].
  rewrite <- firstn_map. apply NoDup_firstn.
  apply (Permutation_NoDup (l := JSMap.keys m)); [|exact Hnd].
  unfold JSMap.keys. apply Permutation_map. symmetry. apply stable_sort_perm.
Qed.

(** X19.  [cleanupCollocationMatrix] keeps the strongest entries: of a
    table without double keys it leaves [Math.floor(maxCollocationSize *
    0.8)] entries, or all when there are fewer; every entry left has the
    strength it had, and no entry that went was stronger than one that
    stayed. *)
Theorem cleanupCollocationMatrix_keeps_strongest sf :
  NoDup (JSMap.keys (collocationMatrix sf)) ->
  JSMap.size (collocationMatrix (cleanupCollocationMatrix sf))
  = Nat.min (keepCount (maxCollocationSize sf))
      (JSMap.size (collocationMatrix sf))
  /\ (forall key strength,
        JSMap.get (collocationMatrix (cleanupCollocationMatrix sf)) key
        = Some strength ->
        JSMap.get (collocationMatrix sf) key = Some strength)
  /\ forall key strength key' strength',
       JSMap.get (collocationMatrix (cleanupCollocationMatrix sf)) key
       = Some strength ->
       JSMap.get (collocationMatrix sf) key' = Some strength' ->
       JSMap.get (collocationMatrix (cleanupCollocationMatrix sf)) key' = None ->
       strength' <= strength.
Proof.
  intros Hnd. unfold cleanupCollocationMatrix.
  cbn [collocationMatrix with_collocation].
  set (before := fun a b : jsstring * R => ltb (snd b) (snd a)).
  rewrite (rebuilt_table before _ _ Hnd).
  set (n := keepCount (maxCollocationSize sf)).
  assert (Hperm := stable_sort_perm before (collocationMatrix sf)).
  assert (Hsorted :
            StronglySorted (fun a b : jsstring * R => snd b <= snd a)
              (stable_sort before (collocationMatrix sf))).
  { apply stable_sort_sorted.
    - intros x y Hb. apply ltb_true in Hb. lra.
    - intros x y Hb. apply ltb_false in Hb. exact Hb.
    - intros x y z Hxy Hyz. lra. }
  split; [|split].
  - unfold JSMap.size. rewrite length_firstn.
    rewrite (Permutation_length Hperm). reflexivity.
  - intros key strength Hg. apply get_In in Hg.
    apply In_get; [exact Hnd|].
    apply (Permutation_in _ Hperm).
    rewrite <- (firstn_skipn n). apply in_or_app. left. exact Hg.
  - intros key strength key' strength' Hg Hg' Hnone.
    apply get_In in Hg. apply get_In in Hg'.
    apply (Permutation_in _ (Permutation_sym Hperm)) in Hg'.
    rewrite <- (firstn_skipn n) in Hg'. apply in_app_or in Hg'.
    destruct Hg' as [Hin|Hin].
    + exfalso. apply (get_None_keys _ _ Hnone).
      apply (in_map fst) in Hin. exact Hin.
    + exact (sorted_firstn_skipn _ n _ _ _ Hsorted Hg Hin).
Qed.

(** *** Collocation strengths *)

(** The strength that [getCollocationStrength] reads under a key. *)
Lemma getCollocationStrength_eq sf w1 w2 :
  w1 <> [] -> w2 <> [] ->
  getCollocationStrength sf w1 w2
  = match JSMap.get (collocationMatrix sf) (bigram_key w1 w2) with
    | Some s => or_default s 0
    | None => 0
    end.
Proof.
  intros H1 H2. unfold getCollocationStrength.
  destruct w1; [contradiction H1; reflexivity|].
  destruct w2; [contradiction H2; reflexivity|]. reflexivity.
Qed.

Lemma Rmin_step (v : R) (n : nat) :
  Rmin 1 (Rmin 1 (v + 0.1) + 0.1 * INR (S n)) = Rmin 1 (v + 0.1 * INR (S (S n))).
Proof.
  rewrite (S_INR (S n)). assert (Hn := pos_INR (S n)).
  unfold Rmin.
  destruct (Rle_dec 1 (v + 0.1)); destruct (Rle_dec 1 _);
    destruct (Rle_dec 1 _); lra.
Qed.

Lemma bigram_count_cons key w1 w2 rest :
  bigram_count key (w1 :: w2 :: rest)
  = ((if eqb (bigram_key w1 w2) key then 1 else 0)
     + bigram_count key (w2 :: rest))%nat.
Proof. reflexivity. Qed.

Lemma add_bigrams_strength (key : jsstring) (words : list jsstring) :
  (forall w, In w words -> w <> []) ->
  forall c : JSMap.t jsstring R,
    match JSMap.get (add_bigrams c words) key with
    | Some s => or_default s 0
    | None => 0
    end
    = let v := match JSMap.get c key with
               | Some s => or_default s 0
               | None => 0
               end in
      match bigram_count key words with
      | O => v
      | S n => Rmin 1 (v + 0.1 * INR (S n))
      end.
Proof.
  induction words as [|w1 words IH]; intros Hne c; [reflexivity|].
  destruct words as [|w2 rest]; [reflexivity|].
  rewrite add_bigrams_cons by (apply Hne; simpl; auto).
  rewrite IH by (intros w Hw; apply Hne; right; exact Hw).
  rewrite bigram_count_cons. cbv zeta.
  set (n := bigram_count key (w2 :: rest)).
  set (v := match JSMap.get c key with
            | Some s => or_default s 0
            | None => 0
            end).
  unfold eqb. destruct (eq_dec (bigram_key w1 w2) key) as [Hk|Hk].
  - rewrite Hk, get_set_eq, or_default_0. fold v.
    destruct n as [|n].
    + cbn [Nat.add]. simpl INR. f_equal. lra.
    + cbn [Nat.add]. apply Rmin_step.
  - rewrite get_set_neq by exact Hk. fold v. reflexivity.
Qed.

(** X20.  The collocation strength counts bigrams: while no cleanup
    intervenes, each pair of neighbouring words of an analysed text whose
    key is [word1_word2] adds 0.1 to the strength of the pair, up to 1;
    the strength of a pair whose key does not occur stays as it was. *)
Theorem collocation_strength_counts_bigrams sf (text word1 word2 : jsstring) :
  (JSMap.size (collocationMatrix sf) < maxCollocationSize sf)%nat ->
  (S (cleanupCounter sf) < 100)%nat ->
  word1 <> [] -> word2 <> [] ->
  getCollocationStrength (analyzeSemanticStructure sf text) word1 word2
  = match bigram_count (bigram_key word1 word2) (tokenize text) with
    | O => getCollocationStrength sf word1 word2
    | S n => Rmin 1 (getCollocationStrength sf word1 word2 + 0.1 * INR (S n))
    end.
Proof.
  intros Hsize Hcount H1 H2.
  rewrite !getCollocationStrength_eq by assumption.
  destruct text as [|c text]; [reflexivity|].
  destruct (tokenize (c :: text)) as [|w ws] eqn:Hw.
  { unfold analyzeSemanticStructure. rewrite Hw. reflexivity. }
  rewrite analyzeSemanticStructure_collocation;
    [|discriminate|rewrite Hw; discriminate|exact Hcount].
  rewrite Hw. unfold detectCollocationPatterns.
  destruct (length (w :: ws) <? 2)%nat eqn:Hlen.
  - destruct ws as [|w' ws]; [reflexivity|discriminate Hlen].
  - rewrite (proj2 (Nat.leb_gt _ _) Hsize).
    cbn [collocationMatrix with_collocation].
    apply add_bigrams_strength.
    intros w0 Hw0. rewrite <- Hw in Hw0.
    apply (split_words_sound (c :: text) [] w0); [intros c' []|exact Hw0].
Qed.

(** *** [calculateAttentionFocus] *)

(** X21.  The attention focus of a node holds at most 7 positions, all
    of them positions of text nodes closer than 120 to the node, nearest
    first; a text node within 120 that is left out is no closer than any
    that is in. *)
Theorem attention_focus_nearest (pos : R * R) (allPositions : list (R * R)) :
  (length (calculateAttentionFocus pos allPositions) <= 7)%nat
  /\ (forall p, In p (calculateAttentionFocus pos allPositions) ->
      In p allPositions /\ OrganicLayout.getDistance p pos < 120)
  /\ StronglySorted
       (fun a b =>
          OrganicLayout.getDistance a pos <= OrganicLayout.getDistance b pos)
       (calculateAttentionFocus pos allPositions)
  /\ forall p q,
       In p (calculateAttentionFocus pos allPositions) ->
       In q allPositions -> OrganicLayout.getDistance q pos < 120 ->
       ~ In q (calculateAttentionFocus pos allPositions) ->
       OrganicLayout.getDistance p pos <= OrganicLayout.getDistance q pos.
Proof.
  unfold calculateAttentionFocus.
  change (fun p : R * R =>
            sqrt ((fst p - fst pos) * (fst p - fst pos)
                  + (snd p - snd pos) * (snd p - snd pos)))
    with (fun p : R * R => OrganicLayout.getDistance p pos).
  cbv zeta.
  set (dist := fun p : R * R => OrganicLayout.getDistance p pos).
  set (near := filter (fun p => ltb (dist p) 120) allPositions).
  set (before := fun a b : R * R => ltb (dist a) (dist b)).
  assert (Hperm := stable_sort_perm before near).
  assert (Hsorted : StronglySorted (fun a b => dist a <= dist b)
                      (stable_sort before near)).
  { apply stable_sort_sorted.
    - intros x y Hb. apply ltb_true in Hb. lra.
    - intros x y Hb. apply ltb_false in Hb. exact Hb.
    - intros x y z Hxy Hyz. lra. }
  split; [apply firstn_le_length|]. split; [|split].
  - intros p Hp.
    assert (Hin : In p near).
    { apply (Permutation_in _ Hperm).
      rewrite <- (firstn_skipn 7). apply in_or_app. left. exact Hp. }
    apply filter_In in Hin. destruct Hin as [Hin Hd].
    apply ltb_true in Hd. auto.
  - apply StronglySorted_firstn. exact Hsorted.
  - intros p q Hp Hq Hd Hout.
    assert (Hin : In q (stable_sort before near)).
    { apply (Permutation_in _ (Permutation_sym Hperm)).
      apply filter_In. split; [exact Hq|]. apply ltb_true. exact Hd. }
    rewrite <- (firstn_skipn 7) in Hin. apply in_app_or in Hin.
    destruct Hin as [Hin|Hin]; [contradiction|].
    exact (sorted_firstn_skipn _ 7 _ _ _ Hsorted Hp Hin).
Qed.

(** *** [generateSensationField] *)

Lemma sensation_point_ring (midpoint : R * R) (radius a : R) :
  0 <= radius ->
  0.6 * radius
  <= OrganicLayout.getDistance (sensation_point midpoint radius a) midpoint
  <= radius.
Proof.
  intros Hrad. unfold sensation_point. cbv zeta.
  set (r := radius * (0.8 + 0.2 * sin (a * 3))).
  assert (Hs := SIN_bound (a * 3)).
  assert (Hr : 0.6 * radius <= r <= radius) by (subst r; nra).
  assert (Hr0 : 0 <= r) by nra.
  unfold OrganicLayout.getDistance. cbn [fst snd].
  replace (fst midpoint + cos a * r - fst midpoint) with (cos a * r) by ring.
  replace (snd midpoint + sin a * r - snd midpoint) with (sin a * r) by ring.
  replace (cos a * r * (cos a * r) + sin a * r * (sin a * r)) with (r * r).
  2:{ assert (H1 := sin2_cos2 a). unfold Rsqr in H1.
      replace (cos a * r * (cos a * r) + sin a * r * (sin a * r))
        with ((sin a * sin a + cos a * cos a) * (r * r)) by ring.
      rewrite H1. ring. }
  rewrite sqrt_square by exact Hr0. exact Hr.
Qed.

(** X22.  The sensation field between two positions is a ring around
    their midpoint: with the radius 30 times the intensity clamped to
    [0, 1], the point that the loop computes at any angle, and so every
    point of the field, lies between 0.6 and 1 times the radius from the
    midpoint. *)
Theorem sensation_field_ring (pos1 pos2 : R * R) (intensity : R) :
  (forall angle,
     0.6 * (30 * clamp 0 1 intensity)
     <= OrganicLayout.getDistance
          (sensation_point
             ((fst pos1 + fst pos2) / 2, (snd pos1 + snd pos2) / 2)
             (clamp 0 1 intensity * 30) angle)
          ((fst pos1 + fst pos2) / 2, (snd pos1 + snd pos2) / 2)
     <= 30 * clamp 0 1 intensity)
  /\ forall p, In p (generateSensationField pos1 pos2 intensity) ->
       0.6 * (30 * clamp 0 1 intensity)
       <= OrganicLayout.getDistance p
            ((fst pos1 + fst pos2) / 2, (snd pos1 + snd pos2) / 2)
       <= 30 * clamp 0 1 intensity.
Proof.
  assert (Hc : 0 <= clamp 0 1 intensity <= 1)
    by (apply Rmax_Rmin_bounds; lra).
  assert (Hring : forall angle,
            0.6 * (30 * clamp 0 1 intensity)
            <= OrganicLayout.getDistance
                 (sensation_point
                    ((fst pos1 + fst pos2) / 2, (snd pos1 + snd pos2) / 2)
                    (clamp 0 1 intensity * 30) angle)
                 ((fst pos1 + fst pos2) / 2, (snd pos1 + snd pos2) / 2)
            <= 30 * clamp 0 1 intensity).
  { intros angle.
    assert (H0 : 0 <= clamp 0 1 intensity * 30) by lra.
    pose proof (sensation_point_ring
                  ((fst pos1 + fst pos2) / 2, (snd pos1 + snd pos2) / 2)
                  (clamp 0 1 intensity * 30) angle H0) as Hp.
    lra. }
  split; [exact Hring|].
  intros p Hp. unfold generateSensationField in Hp.
  rewrite or_default_0 in Hp. fold (clamp 0 1 intensity) in Hp.
  cbv zeta in Hp. apply in_map_iff in Hp. destruct Hp as (a & <- & _).
  apply Hring.
Qed.

(** *** The properties on examples *)

Lemma connection_round_trip_witness :
  similarity_of (addSemanticConnection SemanticField.new word_a word_a 1)
    word_a word_a
  = Some (clamp 0 1 1)
  /\ getSemanticDistance (addSemanticConnection SemanticField.new word_a word_a 1)
       word_a word_a
     = 1 - clamp 0 1 1.
Proof.
  apply (connection_round_trip SemanticField.new word_a word_a 1);
    discriminate.
Defined.

Lemma new_within_cap : graph_within_cap SemanticField.new.
Proof. split; cbn; lia. Qed.

Lemma semantic_graph_within_cap_witness :
  (forall word1 word2 strength,
     graph_within_cap
       (addSemanticConnection SemanticField.new word1 word2 strength))
  /\ forall text,
       graph_within_cap (analyzeSemanticStructure SemanticField.new text).
Proof.
  apply (semantic_graph_within_cap SemanticField.new). exact new_within_cap.
Defined.

Lemma cleanupCollocationMatrix_keeps_strongest_witness :
  JSMap.size (collocationMatrix (cleanupCollocationMatrix field_two_bigrams))
  = Nat.min (keepCount (maxCollocationSize field_two_bigrams))
      (JSMap.size (collocationMatrix field_two_bigrams))
  /\ (forall key strength,
        JSMap.get (collocationMatrix (cleanupCollocationMatrix field_two_bigrams))
          key = Some strength ->
        JSMap.get (collocationMatrix field_two_bigrams) key = Some strength)
  /\ forall key strength key' strength',
       JSMap.get (collocationMatrix (cleanupCollocationMatrix field_two_bigrams))
         key = Some strength ->
       JSMap.get (collocationMatrix field_two_bigrams) key' = Some strength' ->
       JSMap.get (collocationMatrix (cleanupCollocationMatrix field_two_bigrams))
         key' = None ->
       strength' <= strength.
Proof.
  apply (cleanupCollocationMatrix_keeps_strongest field_two_bigrams).
  repeat constructor; cbn; intuition discriminate.
Defined.

Lemma collocation_strength_counts_bigrams_witness :
  getCollocationStrength
    (analyzeSemanticStructure SemanticField.new [97; 32; 98; 32; 97; 32; 98]%Z)
    [97%Z] [98%Z]
  = match bigram_count (bigram_key [97%Z] [98%Z])
            (tokenize [97; 32; 98; 32; 97; 32; 98]%Z) with
    | O => getCollocationStrength SemanticField.new [97%Z] [98%Z]
    | S n =>
        Rmin 1 (getCollocationStrength SemanticField.new [97%Z] [98%Z]
                + 0.1 * INR (S n))
    end.
Proof.
  apply (collocation_strength_counts_bigrams SemanticField.new
           [97; 32; 98; 32; 97; 32; 98]%Z [97%Z] [98%Z]).
  - cbn. lia.
  - cbn. lia.
  - discriminate.
  - discriminate.
Defined.
End SemanticFieldLaws.

(** ** The growth engine *)

Module OrganicLayoutLaws.
Import JSMath JSMathFacts JSMapFacts OrganicLayout OrganicLayoutFacts.
Import SpatialIndexFacts Scenarios ListLaws JSMapLaws.
Open Scope R_scope.

(** *** What the loop body of a tick leaves alone *)

Lemma config_addConnection e c :
  config (addConnection e c) = config e
  /\ nodes (addConnection e c) = nodes e.
Proof.
  unfold addConnection. destruct (conn_from c); [split; reflexivity|].
  destruct (conn_to c); [split; reflexivity|].
  destruct (existsb _ _); split; reflexivity.
Qed.

(** In [addConnection] the pair [(from, to)] decides: no two
    connections of the list have the same pair. *)
Lemma pairs_addConnection e c :
  NoDup (map (fun c => (conn_from c, conn_to c)) (connections e)) ->
  NoDup (map (fun c => (conn_from c, conn_to c))
           (connections (addConnection e c))).
Proof.
  intros Hnd. unfold addConnection.
  destruct (conn_from c) as [|f0 f] eqn:Hf; [exact Hnd|].
  destruct (conn_to c) as [|t0 t] eqn:Ht; [exact Hnd|].
  destruct (existsb _ _) eqn:Hex; [exact Hnd|].
  cbn [connections with_connections]. rewrite map_app. cbn [map].
  apply NoDup_snoc; [exact Hnd|].
  intros Hin. apply in_map_iff in Hin. destruct Hin as (c' & Heq & Hin).
  injection Heq as Hf' Ht'.
  assert (Htrue : existsb
                    (fun conn => eqb (conn_from conn) (f0 :: f)
                                 && eqb (conn_to conn) (t0 :: t))
                    (connections e) = true).
  { apply existsb_exists. exists c'. split; [exact Hin|].
    apply andb_true_intro. split; apply eqb_true; congruence. }
  congruence.
Qed.

(** The direction that the search of [createSemanticBranch] finds is one
    of the scanned unit vectors. *)
Lemma best_direction_unit sf p nearbyNodes :
  match fst (best_direction sf p nearbyNodes) with
  | Some d => exists a, d = (cos a, sin a)
  | None => True
  end.
Proof.
  unfold best_direction.
  generalize (scan_angles 12). intros angles.
  assert (H : forall acc : option (R * R) * R,
            match fst acc with
            | Some d => exists a, d = (cos a, sin a)
            | None => True
            end ->
            match
              fst (fold_left
                     (fun acc angle =>
                        let testDir := (cos angle, sin angle) in
                        let interest :=
                          calculateSemanticInterest sf p testDir nearbyNodes in
                        if ltb (snd acc) interest
                        then (Some testDir, interest) else acc)
                     angles acc)
            with
            | Some d => exists a, d = (cos a, sin a)
            | None => True
            end).
  { induction angles as [|a angles IH]; intros acc Hacc; [exact Hacc|].
    cbn [fold_left]. apply IH. cbv zeta.
    destruct (ltb _ _); [|exact Hacc].
    exists a. reflexivity. }
  apply H. exact I.
Qed.

(** What a node made by [createSemanticBranch] looks like. *)
Lemma createSemanticBranch_steps e p nearbyNodes :
  match createSemanticBranch e p nearbyNodes with
  | (e', Some b) =>
      nodes e' = nodes e ++ [b]
      /\ config e' = config e
      /\ (NoDup (map (fun c => (conn_from c, conn_to c)) (connections e)) ->
          NoDup (map (fun c => (conn_from c, conn_to c)) (connections e')))
      /\ exists a, b = branch_candidate e p (cos a, sin a)
  | (e', None) => e' = e
  end.
Proof.
  unfold createSemanticBranch.
  assert (Hu := best_direction_unit (semanticField e) p nearbyNodes).
  destruct (best_direction (semanticField e) p nearbyNodes)
    as [[dir|] interest]; [|reflexivity].
  cbn [fst] in Hu. destruct Hu as (a & ->).
  destruct (leb interest 0); [reflexivity|].
  destruct (checkSemanticIntersection _ _ _); [reflexivity|].
  set (e1 := with_nodes e _ _).
  destruct (config_addConnection e1
              (mk_connection (id p)
                 (id (branch_candidate e p (cos a, sin a))))) as [Hc Hn].
  rewrite Hn, Hc. split; [reflexivity|]. split; [reflexivity|].
  split; [|exists a; reflexivity].
  intros Hnd. apply pairs_addConnection. exact Hnd.
Qed.

Lemma createSemanticAvoidanceBranch_steps e p nearbyNodes :
  match createSemanticAvoidanceBranch e p nearbyNodes with
  | (e', Some b) =>
      nodes e' = nodes e ++ [b]
      /\ config e' = config e
      /\ (NoDup (map (fun c => (conn_from c, conn_to c)) (connections e)) ->
          NoDup (map (fun c => (conn_from c, conn_to c)) (connections e')))
      /\ exists a, b = branch_candidate e p (cos a, sin a)
  | (e', None) => e' = e
  end.
Proof.
  unfold createSemanticAvoidanceBranch.
  destruct (char p); [reflexivity|].
  destruct (fold_left _ _ _) as [[angle|] freedom]; [|reflexivity].
  destruct (ltb 0.3 freedom); [|reflexivity].
  apply createSemanticBranch_steps.
Qed.

Lemma step_from_successor e (a : R) n nearbyNodes :
  (S (textIndex n) < length (text e))%nat ->
  step_from (text e) (characterSpacing (parameters e)) n
    (successor_candidate e (cos a, sin a) n nearbyNodes).
Proof.
  intros Hti. unfold step_from, successor_candidate.
  cbn [parent generation textIndex char velocity position fst snd].
  replace (Nat.min (textIndex n + 1) (length (text e) - 1))
    with (S (textIndex n)) by lia.
  repeat split; try reflexivity; try lia.
  exists a. split; reflexivity.
Qed.

Lemma step_from_branch e (a : R) n :
  (S (textIndex n) < length (text e))%nat ->
  step_from (text e) (characterSpacing (parameters e)) n
    (branch_candidate e n (cos a, sin a)).
Proof.
  intros Hti. unfold step_from, branch_candidate.
  cbn [parent generation textIndex char velocity position fst snd].
  replace (Nat.min (textIndex n + 1) (length (text e) - 1))
    with (S (textIndex n)) by lia.
  repeat split; try reflexivity; try lia.
  exists a. split; reflexivity.
Qed.

Lemma curved_direction_unit e n nearbyNodes draw :
  exists a, curved_direction e n nearbyNodes draw = (cos a, sin a).
Proof. unfold curved_direction, applyCurvature. eexists. reflexivity. Qed.

(** What one queue entry adds: the new nodes, appended to the nodes and
    to the queue of the next tick, each one step after the entry. *)
Lemma grow_node_steps rnd e q n :
  exists created,
    nodes (fst (grow_node rnd (e, q) n)) = nodes e ++ created
    /\ snd (grow_node rnd (e, q) n) = q ++ created
    /\ config (fst (grow_node rnd (e, q) n)) = config e
    /\ (NoDup (map (fun c => (conn_from c, conn_to c)) (connections e)) ->
        NoDup (map (fun c => (conn_from c, conn_to c))
                 (connections (fst (grow_node rnd (e, q) n)))))
    /\ forall c, In c created ->
         0 < energy n
         /\ step_from (text e) (characterSpacing (parameters e)) n c.
Proof.
  unfold grow_node.
  destruct (leb (energy n) 0 || _) eqn:Hguard.
  { exists []. cbn [fst snd]. rewrite !app_nil_r.
    split; [reflexivity|]. split; [reflexivity|]. split; [reflexivity|].
    split; [auto|]. intros c []. }
  apply orb_false_elim in Hguard. destruct Hguard as [Hen Hti].
  apply leb_false in Hen. apply Nat.leb_gt in Hti.
  assert (Hti' : (S (textIndex n) < length (text e))%nat) by lia.
  set (nb := neighbours e n).
  set (e1 := read_node (with_index e (index_after_query e n)) n).
  assert (Hc1 : config e1 = config e) by reflexivity.
  assert (Hn1 : nodes e1 = nodes e) by reflexivity.
  assert (Hk1 : connections e1 = connections e) by reflexivity.
  assert (Ht1 : text e1 = text e) by reflexivity.
  assert (Hp1 : parameters e1 = parameters e) by reflexivity.
  destruct (curved_direction_unit (with_index e (index_after_query e n)) n nb
              (curveDraw rnd)) as (a & Ha).
  rewrite Ha.
  set (S := successor_candidate e1 (cos a, sin a) n nb).
  assert (HS : 0 < energy n
          /\ step_from (text e) (characterSpacing (parameters e)) n S).
  { split; [exact Hen|]. subst S. rewrite <- Ht1, <- Hp1.
    apply step_from_successor. rewrite Ht1. exact Hti'. }
  destruct (checkSemanticIntersection (semanticField e1) S nb).
  - (* the successor is rejected: avoidance branch *)
    assert (Hspec := createSemanticAvoidanceBranch_steps e1 n nb).
    destruct (createSemanticAvoidanceBranch e1 n nb) as [e' [b|]].
    + destruct Hspec as (Hn & Hc & Hnd & a' & ->).
      exists [branch_candidate e1 n (cos a', sin a')]. cbn [fst snd].
      rewrite Hn, Hn1, Hc, Hc1.
      split; [reflexivity|]. split; [reflexivity|]. split; [reflexivity|].
      split; [exact Hnd|].
      intros c [<-|[]]. split; [exact Hen|]. rewrite <- Ht1, <- Hp1.
      apply step_from_branch. rewrite Ht1. exact Hti'.
    + subst e'. exists []. cbn [fst snd]. rewrite !app_nil_r.
      split; [reflexivity|]. split; [reflexivity|]. split; [reflexivity|].
      split; [auto|]. intros c [].
  - (* the successor is accepted *)
    set (e2 := addConnection _ _).
    assert (H2 : config e2 = config e /\ nodes e2 = nodes e ++ [S]
            /\ (NoDup (map (fun c => (conn_from c, conn_to c)) (connections e))
                -> NoDup (map (fun c => (conn_from c, conn_to c))
                            (connections e2)))).
    { subst e2.
      match goal with
      | |- context [addConnection ?x ?y] =>
          destruct (config_addConnection x y) as [Hc Hn];
          assert (Hnd := pairs_addConnection x y)
      end.
      rewrite Hc, Hn. split; [reflexivity|]. split; [reflexivity|].
      exact Hnd. }
    clearbody e2. destruct H2 as (Hc2 & Hn2 & Hnd2).
    assert (Ht2 : text e2 = text e).
    { unfold config in Hc2. injection Hc2. auto. }
    assert (Hp2 : parameters e2 = parameters e).
    { unfold config in Hc2. injection Hc2. auto. }
    destruct (ltb (branchDraw rnd) _ && ltb 50 (energy n)).
    + assert (Hspec := createSemanticBranch_steps e2 n nb).
      destruct (createSemanticBranch e2 n nb) as [e' [b|]].
      * destruct Hspec as (Hn & Hc & Hnd & a' & ->).
        exists [S; branch_candidate e2 n (cos a', sin a')]. cbn [fst snd].
        rewrite Hn, Hn2, Hc, Hc2, <- !app_assoc.
        split; [reflexivity|]. split; [reflexivity|]. split; [reflexivity|].
        split; [auto|].
        intros c [<-|[<-|[]]]; [exact HS|].
        split; [exact Hen|]. rewrite <- Ht2, <- Hp2.
        apply step_from_branch. rewrite Ht2. exact Hti'.
      * subst e'. exists [S]. cbn [fst snd].
        split; [exact Hn2|]. split; [reflexivity|]. split; [exact Hc2|].
        split; [exact Hnd2|]. intros c [<-|[]]. exact HS.
    + exists [S]. cbn [fst snd].
      split; [exact Hn2|]. split; [reflexivity|]. split; [exact Hc2|].
      split; [exact Hnd2|]. intros c [<-|[]]. exact HS.
Qed.

(** The loop of a tick over the queue. *)
Lemma grow_fold_steps env (entries : list (nat * node)) :
  forall e q,
    exists created,
      nodes (fst (fold_left
                    (fun acc (entry : nat * node) =>
                       grow_node (draws_of env (fst entry)) acc (snd entry))
                    entries (e, q)))
      = nodes e ++ created
      /\ snd (fold_left
                (fun acc (entry : nat * node) =>
                   grow_node (draws_of env (fst entry)) acc (snd entry))
                entries (e, q))
         = q ++ created
      /\ config (fst (fold_left
                        (fun acc (entry : nat * node) =>
                           grow_node (draws_of env (fst entry)) acc (snd entry))
                        entries (e, q)))
         = config e
      /\ (NoDup (map (fun c => (conn_from c, conn_to c)) (connections e)) ->
          NoDup (map (fun c => (conn_from c, conn_to c))
                   (connections
                      (fst (fold_left
                              (fun acc (entry : nat * node) =>
                                 grow_node (draws_of env (fst entry)) acc
                                   (snd entry))
                              entries (e, q))))))
      /\ forall c, In c created ->
           exists p,
             In p (map snd entries) /\ 0 < energy p
             /\ step_from (text e) (characterSpacing (parameters e)) p c.
Proof.
  induction entries as [|[k n] entries IH]; intros e q; cbn [fold_left fst snd].
  - exists []. rewrite !app_nil_r.
    split; [reflexivity|]. split; [reflexivity|]. split; [reflexivity|].
    split; [auto|]. intros c [].
  - destruct (grow_node_steps (draws_of env k) e q n)
      as (created1 & Hn1 & Hq1 & Hc1 & Hnd1 & Hs1).
    destruct (grow_node (draws_of env k) (e, q) n) as [e' q'].
    cbn [fst snd] in Hn1, Hq1, Hc1, Hnd1. subst q'.
    destruct (IH e' (q ++ created1)) as (created2 & Hn2 & Hq2 & Hc2 & Hnd2 & Hs2).
    exists (created1 ++ created2).
    rewrite Hn2, Hn1, Hq2, Hc2, Hc1, <- !app_assoc.
    split; [reflexivity|]. split; [reflexivity|]. split; [reflexivity|].
    split; [auto|].
    assert (Ht : text e' = text e /\ parameters e' = parameters e).
    { unfold config in Hc1. injection Hc1. auto. }
    destruct Ht as [Ht Hp].
    intros c Hin. apply in_app_or in Hin. destruct Hin as [Hin|Hin].
    + destruct (Hs1 c Hin) as [Hen Hstep].
      exists n. split; [left; reflexivity|]. split; assumption.
    + destruct (Hs2 c Hin) as (p & Hpin & Hen & Hstep).
      exists p. split; [right; exact Hpin|]. split; [exact Hen|].
      rewrite <- Ht, <- Hp. exact Hstep.
Qed.

Lemma config_performMemoryCleanup e :
  config (performMemoryCleanup e) = config e.
Proof.
  unfold performMemoryCleanup.
  destruct (maxNodes e <? _)%nat; simpl;
    match goal with |- context [if ?b then _ else _] => destruct b end;
    reflexivity.
Qed.

Lemma config_tick_start e : config (tick_start e) = config e.
Proof.
  unfold tick_start. destruct (_ <=? _)%nat; [|reflexivity].
  apply config_performMemoryCleanup.
Qed.

(** One tick, by its parts: the engine on which the loop runs, what the
    loop creates, and the queue and the generation count at the end. *)
Lemma grow_steps env e :
  isGrowing e = true -> growthQueue e <> [] ->
  exists created,
    nodes (grow env e) = nodes (tick_start e) ++ created
    /\ growthQueue (grow env e) = created
    /\ generation_count (grow env e) = S (generation_count e)
    /\ text (grow env e) = text e
    /\ isGrowing (grow env e) = true
    /\ (NoDup (map (fun c => (conn_from c, conn_to c))
                 (connections (tick_start e))) ->
        NoDup (map (fun c => (conn_from c, conn_to c))
                 (connections (grow env e))))
    /\ forall c, In c created ->
         exists p,
           In p (growthQueue e) /\ 0 < energy p
           /\ step_from (text e) (characterSpacing (parameters e)) p c.
Proof.
  intros Hg Hq. unfold grow. rewrite Hg.
  destruct (growthQueue e) as [|n0 queue] eqn:Eq; [contradiction Hq; reflexivity|].
  cbn [negb length Nat.eqb orb]. fold (tick_start e).
  assert (Hc := config_tick_start e).
  assert (Hcq : growthQueue (tick_start e) = growthQueue e
          /\ text (tick_start e) = text e
          /\ parameters (tick_start e) = parameters e
          /\ isGrowing (tick_start e) = isGrowing e
          /\ generation_count (tick_start e) = generation_count e).
  { unfold config in Hc. injection Hc. auto 10. }
  destruct Hcq as (Hq1 & Ht1 & Hp1 & Hg1 & Hgen1).
  destruct (grow_fold_steps env
              (combine (seq 0 (length (growthQueue (tick_start e))))
                 (growthQueue (tick_start e)))
              (tick_start e) [])
    as (created & Hn & Hnq & Hcf & Hnd & Hs).
  destruct (fold_left _ _ (tick_start e, [])) as [e2 newQueue].
  cbn [fst snd] in Hn, Hnq, Hcf, Hnd. cbn [app] in Hnq. subst newQueue.
  assert (H2 : text e2 = text e /\ isGrowing e2 = true
          /\ generation_count e2 = generation_count e).
  { unfold config in Hcf. injection Hcf. intros.
    repeat split; congruence. }
  destruct H2 as (Ht2 & Hg2 & Hgen2).
  exists created.
  assert (Hshape : forall c, In c created ->
            exists p,
              In p (n0 :: queue) /\ 0 < energy p
              /\ step_from (text e) (characterSpacing (parameters e)) p c).
  { intros c Hin. destruct (Hs c Hin) as (p & Hp & Hen & Hstep).
    exists p. rewrite <- Eq, <- Hq1, <- Ht1, <- Hp1.
    split; [|split; assumption].
    apply in_map_iff in Hp. destruct Hp as ([k p'] & <- & Hp).
    apply in_combine_r in Hp. exact Hp. }
  destruct (generation_count e2 mod 10 =? 0)%nat; [destruct (observed env)|];
    cbn [nodes growthQueue generation_count text isGrowing connections
         with_queue with_parameters];
    rewrite Hgen2; auto 10.
Qed.

(** *** Connections *)

Lemma NoDup_map_filter {A B} (f : A -> B) (g : A -> bool) (l : list A) :
  NoDup (map f l) -> NoDup (map f (filter g l)).
Proof.
  induction l as [|a l IH]; simpl; intros Hnd; [constructor|].
  inversion Hnd as [|? ? Hni Hnd']; subst.
  destruct (g a); simpl; [|auto].
  constructor; [|auto].
  intros Hin. apply Hni. apply in_map_iff in Hin.
  destruct Hin as (b & Hb & Hin). apply filter_In in Hin.
  apply in_map_iff. exists b. tauto.
Qed.

Lemma NoDup_map_skipn {A B} (f : A -> B) (k : nat) (l : list A) :
  NoDup (map f l) -> NoDup (map f (skipn k l)).
Proof.
  intros Hnd. rewrite <- (firstn_skipn k l), map_app in Hnd.
  apply NoDup_app_remove_l in Hnd. exact Hnd.
Qed.

Lemma pairs_performMemoryCleanup e :
  NoDup (map (fun c => (conn_from c, conn_to c)) (connections e)) ->
  NoDup (map (fun c => (conn_from c, conn_to c))
           (connections (performMemoryCleanup e))).
Proof.
  intros Hnd. unfold performMemoryCleanup.
  set (e1 := if (maxNodes e <? _)%nat then _ else e).
  assert (H1 : NoDup (map (fun c => (conn_from c, conn_to c)) (connections e1))).
  { subst e1. destruct (_ <? _)%nat; [|exact Hnd].
    cbn [connections with_connections]. apply NoDup_map_filter. exact Hnd. }
  clearbody e1. destruct (_ <? _)%nat; [|exact H1].
  cbn [connections with_connections]. apply NoDup_map_skipn. exact H1.
Qed.

(** X23.  No two connections have the same [(from, to)] pair:
    [addConnection], [performMemoryCleanup] and a tick of [grow] keep a
    list of connections free of such doubles. *)
Theorem connections_never_repeat e :
  NoDup (map (fun c => (conn_from c, conn_to c)) (connections e)) ->
  (forall c,
     NoDup (map (fun c => (conn_from c, conn_to c))
              (connections (addConnection e c))))
  /\ NoDup (map (fun c => (conn_from c, conn_to c))
              (connections (performMemoryCleanup e)))
  /\ forall env,
       NoDup (map (fun c => (conn_from c, conn_to c))
                (connections (grow env e))).
Proof.
  intros Hnd. split; [|split].
  - intros c. apply pairs_addConnection. exact Hnd.
  - apply pairs_performMemoryCleanup. exact Hnd.
  - intros env.
    destruct (isGrowing e) eqn:Hg.
    2:{ unfold grow. rewrite Hg. exact Hnd. }
    destruct (growthQueue e) as [|n0 queue] eqn:Hq.
    { unfold grow. rewrite Hg, Hq. exact Hnd. }
    destruct (grow_steps env e Hg) as (created & _ & _ & _ & _ & _ & Hk & _).
    { rewrite Hq. discriminate. }
    apply Hk. unfold tick_start. destruct (_ <=? _)%nat; [|exact Hnd].
    apply pairs_performMemoryCleanup. exact Hnd.
Qed.

(** *** The nodes that a tick creates *)

Lemma step_distance txt spacing p c :
  step_from txt spacing p c ->
  getDistance (position p) (position c) = Rabs spacing.
Proof.
  intros (_ & _ & _ & _ & _ & a & _ & Hpos).
  unfold getDistance. rewrite Hpos. cbn [fst snd].
  replace (fst (position p) - (fst (position p) + cos a * spacing))
    with (- (cos a * spacing)) by ring.
  replace (snd (position p) - (snd (position p) + sin a * spacing))
    with (- (sin a * spacing)) by ring.
  replace (- (cos a * spacing) * - (cos a * spacing)
           + - (sin a * spacing) * - (sin a * spacing))
    with ((sin a * sin a + cos a * cos a) * (spacing * spacing)) by ring.
  assert (H1 := sin2_cos2 a). unfold Rsqr in H1. rewrite H1, Rmult_1_l.
  fold (Rsqr spacing). apply sqrt_Rsqr_abs.
Qed.

(** X24.  Every node that a tick of [grow] creates goes to the end of
    the nodes and into the queue of the next tick, and is one step after
    an entry of the queue that still had energy: it has that entry as
    parent, the next character of the text, the next generation, a unit
    velocity, and lies [characterSpacing] away from the entry in the
    direction of that velocity. *)
Theorem created_nodes_step_from_parent env e :
  isGrowing e = true -> growthQueue e <> [] ->
  exists created,
    nodes (grow env e) = nodes (tick_start e) ++ created
    /\ growthQueue (grow env e) = created
    /\ forall c, In c created ->
         exists p,
           In p (growthQueue e) /\ 0 < energy p
           /\ step_from (text e) (characterSpacing (parameters e)) p c
           /\ getDistance (position p) (position c)
              = Rabs (characterSpacing (parameters e)).
Proof.
  intros Hg Hq.
  destruct (grow_steps env e Hg Hq) as (created & Hn & Hnq & _ & _ & _ & _ & Hs).
  exists created. split; [exact Hn|]. split; [exact Hnq|].
  intros c Hin. destruct (Hs c Hin) as (p & Hp & Hen & Hstep).
  exists p. split; [exact Hp|]. split; [exact Hen|]. split; [exact Hstep|].
  exact (step_distance _ _ _ _ Hstep).
Qed.

(** *** The end of growth *)

Lemma grow_idle env e : growthQueue e = [] -> grow env e = e.
Proof.
  intros Hq. unfold grow. rewrite Hq. cbn [length Nat.eqb].
  rewrite orb_true_r. reflexivity.
Qed.

Lemma ticks_advance envs e (k : nat) :
  isGrowing e = true ->
  text (grow_ticks envs k e) = text e
  /\ isGrowing (grow_ticks envs k e) = true
  /\ forall n, In n (growthQueue (grow_ticks envs k e)) ->
       (k <= textIndex n)%nat
       /\ ((1 <= k)%nat -> (textIndex n < length (text e))%nat).
Proof.
  intros Hg. induction k as [|k IH]; cbn [grow_ticks].
  - split; [reflexivity|]. split; [exact Hg|]. intros n _. split; lia.
  - destruct IH as (Ht & Hgk & Hqk).
    set (ek := grow_ticks envs k e) in *.
    destruct (growthQueue ek) as [|n0 queue] eqn:Hq.
    + rewrite (grow_idle _ _ Hq), Hq.
      split; [exact Ht|]. split; [exact Hgk|]. intros n [].
    + destruct (grow_steps (envs k) ek Hgk)
        as (created & _ & Hnq & _ & Ht' & Hg' & _ & Hs).
      { rewrite Hq. discriminate. }
      split; [congruence|]. split; [exact Hg'|].
      intros n Hin. rewrite Hnq in Hin.
      destruct (Hs n Hin) as (p & Hp & _ & (_ & _ & Hti & Hlt & _)).
      rewrite Hq in Hp. destruct (Hqk p Hp) as [Hk _].
      rewrite Ht in Hlt. lia.
Qed.

(** X25.  Growth ends: a running engine has an empty growth queue after
    as many ticks as its text has characters, whatever the random draws,
    and further ticks change nothing. *)
Theorem growth_terminates envs e (k : nat) :
  isGrowing e = true ->
  (length (text e) <= k)%nat -> (1 <= k)%nat ->
  growthQueue (grow_ticks envs k e) = []
  /\ forall env, grow env (grow_ticks envs k e) = grow_ticks envs k e.
Proof.
  intros Hg Hlen Hk.
  destruct (ticks_advance envs e k Hg) as (_ & _ & Hq).
  assert (Hnil : growthQueue (grow_ticks envs k e) = []).
  { destruct (growthQueue (grow_ticks envs k e)) as [|n queue]; [reflexivity|].
    destruct (Hq n (or_introl eq_refl)) as [H1 H2].
    specialize (H2 Hk). lia. }
  split; [exact Hnil|]. intros env. apply grow_idle. exact Hnil.
Qed.

(** *** The parameters *)

Lemma adaptSystemParameters_in_range p state :
  adapted_in_range (adaptSystemParameters p state).
Proof.
  unfold adapted_in_range, adaptSystemParameters.
  cbn [energyDecay semanticGravity interferenceAmplitude].
  repeat split;
    match goal with
    | |- context [Rmax 0.1 (Rmin 1.0 ?x)] =>
        destruct (Rmax_Rmin_bounds 0.1 1.0 x); lra
    end.
Qed.

(** X26.  A tick of [grow] never changes [initialEnergy],
    [branchProbability], [characterSpacing] and [embodimentFactor]; the
    three parameters that the self-reflection adapts are either left as
    they are or lie between 0.1 and 1 afterwards. *)
Theorem parameters_stay_in_range env e :
  initialEnergy (parameters (grow env e)) = initialEnergy (parameters e)
  /\ branchProbability (parameters (grow env e))
     = branchProbability (parameters e)
  /\ characterSpacing (parameters (grow env e))
     = characterSpacing (parameters e)
  /\ embodimentFactor (parameters (grow env e))
     = embodimentFactor (parameters e)
  /\ (parameters (grow env e) = parameters e
      \/ adapted_in_range (parameters (grow env e))).
Proof.
  unfold grow.
  destruct (negb (isGrowing e) || _); [repeat split; auto|].
  fold (tick_start e).
  destruct (grow_fold_steps env
              (combine (seq 0 (length (growthQueue (tick_start e))))
                 (growthQueue (tick_start e)))
              (tick_start e) [])
    as (created & _ & _ & Hcf & _ & _).
  destruct (fold_left _ _ (tick_start e, [])) as [e2 newQueue].
  cbn [fst] in Hcf. rewrite config_tick_start in Hcf.
  assert (Hp : parameters e2 = parameters e).
  { unfold config in Hcf. injection Hcf. auto. }
  destruct (generation_count e2 mod 10 =? 0)%nat; [destruct (observed env)|];
    cbn [parameters with_queue with_parameters]; rewrite ?Hp;
    try (repeat split; auto; fail).
  split; [reflexivity|]. split; [reflexivity|]. split; [reflexivity|].
  split; [reflexivity|]. right. apply adaptSystemParameters_in_range.
Qed.

(** *** [performMemoryCleanup] *)

Lemma keepCount_le (max : nat) : (SemanticField.keepCount max <= max)%nat.
Proof.
  unfold SemanticField.keepCount. apply Nat.Div0.div_le_upper_bound. lia.
Qed.

Lemma existsb_eqb_false (s : jsstring) (ids : list jsstring) :
  existsb (eqb s) ids = false -> ~ In s ids.
Proof.
  intros Hex Hin.
  assert (Ht : existsb (eqb s) ids = true).
  { apply existsb_exists. exists s. split; [exact Hin|].
    apply eqb_true. reflexivity. }
  congruence.
Qed.

(** X27.  [performMemoryCleanup] drops nodes from the old end only and
    leaves at most [maxNodes] nodes and at most [maxConnections]
    connections; no connection that stays starts or ends at a dropped
    node; and when nodes were dropped, the rebuilt spatial index holds
    nothing but nodes that stayed. *)
Theorem performMemoryCleanup_bounds e :
  exists removed,
    nodes e = removed ++ nodes (performMemoryCleanup e)
    /\ (length (nodes (performMemoryCleanup e)) <= maxNodes e)%nat
    /\ (length (connections (performMemoryCleanup e)) <= maxConnections e)%nat
    /\ (forall c, In c (connections (performMemoryCleanup e)) ->
        In c (connections e)
        /\ forall n, In n removed ->
             conn_from c <> id n /\ conn_to c <> id n)
    /\ (removed <> [] ->
        forall n,
          In n (SpatialIndex.all_items (spatialIndex (performMemoryCleanup e))) ->
          In n (nodes (performMemoryCleanup e))).
Proof.
  assert (Hconn : forall e1 : OrganicLayout.t,
            let conns' :=
              connections
                (if (maxConnections e1 <? length (connections e1))%nat
                 then with_connections e1
                        (skipn (length (connections e1)
                                - SemanticField.keepCount (maxConnections e1))
                           (connections e1))
                 else e1) in
            (length conns' <= maxConnections e1)%nat
            /\ forall c, In c conns' -> In c (connections e1)).
  { intros e1. cbv zeta.
    destruct (maxConnections e1 <? length (connections e1))%nat eqn:E.
    - apply Nat.ltb_lt in E. cbn [connections with_connections]. split.
      + rewrite length_skipn. assert (Hk := keepCount_le (maxConnections e1)).
        lia.
      + intros c. apply In_skipn.
    - apply Nat.ltb_ge in E. split; [exact E|auto]. }
  destruct (maxNodes e <? length (nodes e))%nat eqn:Hcut.
  - apply Nat.ltb_lt in Hcut.
    set (removeCount := (length (nodes e)
                         - SemanticField.keepCount (maxNodes e))%nat).
    exists (firstn removeCount (nodes e)).
    assert (Hnodes := nodes_performMemoryCleanup e).
    rewrite (proj2 (Nat.ltb_lt _ _) Hcut) in Hnodes. fold removeCount in Hnodes.
    assert (Hidx := spatialIndex_performMemoryCleanup e
                      (proj2 (Nat.ltb_lt _ _) Hcut)).
    fold removeCount in Hidx.
    rewrite Hnodes. split; [symmetry; apply firstn_skipn|].
    split.
    { rewrite length_skipn. subst removeCount.
      assert (Hk := keepCount_le (maxNodes e)). lia. }
    unfold performMemoryCleanup in Hidx |- *.
    rewrite (proj2 (Nat.ltb_lt _ _) Hcut) in Hidx |- *.
    fold removeCount in Hidx |- *.
    set (e1 := with_connections _ _) in *.
    destruct (Hconn e1) as [Hlen Hsub].
    split; [exact Hlen|]. split.
    + intros c Hc. apply Hsub in Hc. subst e1.
      cbn [connections with_connections] in Hc.
      apply filter_In in Hc. destruct Hc as [Hc Hends].
      split; [exact Hc|].
      apply andb_prop in Hends. destruct Hends as [Hf Ht].
      apply negb_true_iff in Hf, Ht.
      apply existsb_eqb_false in Hf, Ht.
      intros n Hn. split; intros Heq; [apply Hf|apply Ht];
        rewrite Heq; apply in_map; exact Hn.
    + intros _ n Hin. rewrite Hidx in Hin.
      apply fold_insert_all_items in Hin. destruct Hin as [Hin|Hin];
        [destruct Hin|exact Hin].
  - apply Nat.ltb_ge in Hcut. exists [].
    assert (Hnodes := nodes_performMemoryCleanup e).
    rewrite (proj2 (Nat.ltb_ge _ _) Hcut) in Hnodes.
    rewrite Hnodes. split; [reflexivity|]. split; [exact Hcut|].
    unfold performMemoryCleanup. rewrite (proj2 (Nat.ltb_ge _ _) Hcut).
    destruct (Hconn e) as [Hlen Hsub].
    split; [exact Hlen|]. split.
    + intros c Hc. split; [exact (Hsub c Hc)|intros n []].
    + intros Hne. contradiction Hne. reflexivity.
Qed.

(** *** [initialize] *)

Lemma seed_distance (cx cy angle radius : R) :
  getDistance (cx + cos angle * radius, cy + sin angle * radius) (cx, cy)
  = Rabs radius.
Proof.
  unfold getDistance. cbn [fst snd].
  replace (cx + cos angle * radius - cx) with (cos angle * radius) by ring.
  replace (cy + sin angle * radius - cy) with (sin angle * radius) by ring.
  replace (cos angle * radius * (cos angle * radius)
           + sin angle * radius * (sin angle * radius))
    with ((sin angle * sin angle + cos angle * cos angle) * (radius * radius))
    by ring.
  assert (H1 := sin2_cos2 angle). unfold Rsqr in H1. rewrite H1, Rmult_1_l.
  fold (Rsqr radius). apply sqrt_Rsqr_abs.
Qed.

Lemma add_seed_spec seedCount rnd e i :
  text e <> [] ->
  exists seed,
    nodes (add_seed seedCount rnd e i) = nodes e ++ [seed]
    /\ growthQueue (add_seed seedCount rnd e i) = growthQueue e ++ [seed]
    /\ (text (add_seed seedCount rnd e i), canvasWidth (add_seed seedCount rnd e i),
        canvasHeight (add_seed seedCount rnd e i),
        parameters (add_seed seedCount rnd e i),
        semanticField (add_seed seedCount rnd e i),
        connections (add_seed seedCount rnd e i),
        isGrowing (add_seed seedCount rnd e i),
        generation_count (add_seed seedCount rnd e i))
       = (text e, canvasWidth e, canvasHeight e, parameters e, semanticField e,
          connections e, isGrowing e, generation_count e)
    /\ is_seed e (radiusDraw (rnd i)) (length (nodes e)) seed.
Proof.
  intros Htext. unfold add_seed. eexists. cbv zeta.
  cbn [nodes growthQueue text canvasWidth canvasHeight parameters
       semanticField connections isGrowing generation_count
       with_queue with_nodes].
  split; [reflexivity|]. split; [reflexivity|]. split; [reflexivity|].
  unfold is_seed.
  cbn [id energy generation parent textIndex char position].
  assert (Hlen : (0 < length (text e))%nat).
  { destruct (text e); [contradiction Htext; reflexivity|simpl; lia]. }
  set (ti := Nat.min _ _).
  assert (Hti : (ti < length (text e))%nat) by (subst ti; lia).
  split; [reflexivity|]. split; [reflexivity|]. split; [reflexivity|].
  split; [reflexivity|]. split; [exact Hti|]. split.
  - unfold char_at.
    destruct (nth_error (text e) ti) as [c|] eqn:Hnth; [reflexivity|].
    apply nth_error_None in Hnth. lia.
  - apply seed_distance.
Qed.

Lemma initialize_fold seedCount rnd (l : list nat) :
  forall e,
    text e <> [] ->
    exists seeds,
      nodes (fold_left (add_seed seedCount rnd) l e) = nodes e ++ seeds
      /\ growthQueue (fold_left (add_seed seedCount rnd) l e)
         = growthQueue e ++ seeds
      /\ (text (fold_left (add_seed seedCount rnd) l e),
          canvasWidth (fold_left (add_seed seedCount rnd) l e),
          canvasHeight (fold_left (add_seed seedCount rnd) l e),
          parameters (fold_left (add_seed seedCount rnd) l e),
          semanticField (fold_left (add_seed seedCount rnd) l e),
          connections (fold_left (add_seed seedCount rnd) l e),
          isGrowing (fold_left (add_seed seedCount rnd) l e),
          generation_count (fold_left (add_seed seedCount rnd) l e))
         = (text e, canvasWidth e, canvasHeight e, parameters e,
            semanticField e, connections e, isGrowing e, generation_count e)
      /\ length seeds = length l
      /\ forall j seed,
           nth_error seeds j = Some seed ->
           exists i,
             nth_error l j = Some i
             /\ is_seed e (radiusDraw (rnd i)) (length (nodes e) + j) seed.
Proof.
  induction l as [|i l IH]; intros e Htext; cbn [fold_left].
  - exists []. rewrite !app_nil_r. repeat split; auto.
    intros [|j] seed Hnth; discriminate Hnth.
  - destruct (add_seed_spec seedCount rnd e i Htext)
      as (seed & Hn1 & Hq1 & Hf1 & Hs1).
    set (e1 := add_seed seedCount rnd e i) in *.
    assert (Ht1 : text e1 = text e) by reflexivity.
    assert (Hw1 : canvasWidth e1 = canvasWidth e) by reflexivity.
    assert (Hh1 : canvasHeight e1 = canvasHeight e) by reflexivity.
    assert (Hp1 : parameters e1 = parameters e) by reflexivity.
    assert (Htext1 : text e1 <> []) by (rewrite Ht1; exact Htext).
    destruct (IH e1 Htext1) as (seeds & Hn & Hq & Hf & Hlen & Hs).
    exists (seed :: seeds).
    rewrite Hn, Hn1, Hq, Hq1, Hf, <- !app_assoc.
    split; [reflexivity|]. split; [reflexivity|].
    split; [exact Hf1|]. split; [simpl; congruence|].
    intros [|j] s Hnth; cbn [nth_error] in Hnth |- *.
    + injection Hnth as <-. exists i. split; [reflexivity|].
      rewrite Nat.add_0_r. exact Hs1.
    + destruct (Hs j s Hnth) as (i' & Hi' & Hseed).
      exists i'. split; [exact Hi'|].
      unfold is_seed in *. rewrite Hn1, length_app in Hseed. cbn [length] in Hseed.
      rewrite Ht1, Hw1, Hh1, Hp1 in Hseed.
      replace (length (nodes e) + S j)%nat with (length (nodes e) + 1 + j)%nat
        by lia.
      exact Hseed.
Qed.

Lemma initialize_spec rnd e :
  text e <> [] ->
  exists seeds,
    nodes (initialize rnd e) = nodes e ++ seeds
    /\ growthQueue (initialize rnd e) = growthQueue e ++ seeds
    /\ (text (initialize rnd e), parameters (initialize rnd e),
        semanticField (initialize rnd e), connections (initialize rnd e),
        isGrowing (initialize rnd e), generation_count (initialize rnd e))
       = (text e, parameters e, semanticField e, connections e,
          isGrowing e, generation_count e)
    /\ (1 <= length seeds <= 10)%nat
    /\ forall i seed,
         nth_error seeds i = Some seed ->
         is_seed e (radiusDraw (rnd i)) (length (nodes e) + i) seed.
Proof.
  intros Htext. unfold initialize.
  destruct (text e) as [|c0 txt] eqn:Ht; [contradiction Htext; reflexivity|].
  rewrite <- Ht in *.
  set (seedCount := Z.to_nat _).
  destruct (initialize_fold seedCount rnd (seq 0 seedCount) e Htext)
    as (seeds & Hn & Hq & Hf & Hlen & Hs).
  exists seeds. split; [exact Hn|]. split; [exact Hq|]. split; [|split].
  - injection Hf as Hft _ _ Hfp Hfs Hfc Hfg Hfgen.
    rewrite Hft, Hfp, Hfs, Hfc, Hfg, Hfgen. reflexivity.
  - rewrite Hlen, length_seq. subst seedCount. lia.
  - intros i seed Hnth. destruct (Hs i seed Hnth) as (i' & Hi' & Hseed).
    assert (Hii : i' = i).
    { assert (Hlt : (i < length seeds)%nat).
      { apply nth_error_Some. congruence. }
      rewrite Hlen, length_seq in Hlt.
      rewrite nth_error_seq in Hi'.
      destruct (i <? seedCount)%nat eqn:E;
        [injection Hi' as <-; reflexivity|].
      apply Nat.ltb_ge in E. lia. }
    subst i'. exact Hseed.
Qed.

(** X28.  [initialize()] on an engine with a text appends between one
    and ten seeds to the nodes and to the growth queue.  The seeds take
    the next node ids in order; each has the initial energy, generation
    0, no parent, a character of the text at its text index, and lies at
    the distance [100 + 50 * draw] from the centre of the canvas, where
    [draw] is its first random number. *)
Theorem initialize_seeds rnd e :
  text e <> [] ->
  exists seeds,
    nodes (initialize rnd e) = nodes e ++ seeds
    /\ growthQueue (initialize rnd e) = growthQueue e ++ seeds
    /\ (1 <= length seeds <= 10)%nat
    /\ forall i seed,
         nth_error seeds i = Some seed ->
         is_seed e (radiusDraw (rnd i)) (length (nodes e) + i) seed.
Proof.
  intros Htext.
  destruct (initialize_spec rnd e Htext) as (seeds & Hn & Hq & _ & Hlen & Hs).
  exists seeds. auto.
Qed.

(** *** Directions *)

Lemma unit_of_div (x y : R) :
  0 < sqrt (x * x + y * y) ->
  x / sqrt (x * x + y * y) * (x / sqrt (x * x + y * y))
  + y / sqrt (x * x + y * y) * (y / sqrt (x * x + y * y)) = 1.
Proof.
  intros Hm. set (m := sqrt (x * x + y * y)) in *.
  assert (Hsq : m * m = x * x + y * y).
  { subst m. apply sqrt_sqrt. nra. }
  replace (x / m * (x / m) + y / m * (y / m))
    with ((x * x + y * y) / (m * m)) by (field; lra).
  rewrite <- Hsq. field. lra.
Qed.

Lemma sqrt_pos_of_nonzero (x y : R) :
  x * x + y * y <> 0 -> 0 < sqrt (x * x + y * y).
Proof.
  intros Hnz. apply sqrt_lt_R0.
  destruct (Rtotal_order (x * x + y * y) 0) as [Hlt|[Heq|Hgt]];
    [nra|contradiction|exact Hgt].
Qed.

(** X29.  The direction helpers return unit vectors.  [normalizeVector]
    of a vector other than zero is the unit vector of its direction, and
    [getNormalizedDirection] between two different points is the unit
    vector from the first to the second; [calculateGrowthDirection] and
    [applyCurvature] return a unit vector whatever their arguments. *)
Theorem directions_are_unit :
  (forall v : R * R,
     fst v * fst v + snd v * snd v <> 0 ->
     dot (normalizeVector v) (normalizeVector v) = 1
     /\ exists k,
          0 < k
          /\ v = (k * fst (normalizeVector v), k * snd (normalizeVector v)))
  /\ (forall from to : R * R,
        from <> to ->
        dot (getNormalizedDirection from to) (getNormalizedDirection from to)
        = 1
        /\ to = (fst from
                 + getDistance from to * fst (getNormalizedDirection from to),
                 snd from
                 + getDistance from to * snd (getNormalizedDirection from to)))
  /\ (forall n nearbyNodes,
        dot (calculateGrowthDirection n nearbyNodes)
          (calculateGrowthDirection n nearbyNodes) = 1)
  /\ forall direction curvature draw,
       dot (applyCurvature direction curvature draw)
         (applyCurvature direction curvature draw) = 1.
Proof.
  split; [|split; [|split]].
  - intros [x y] Hnz. cbn [fst snd] in Hnz.
    assert (Hm := sqrt_pos_of_nonzero x y Hnz).
    unfold normalizeVector. cbn [fst snd].
    rewrite (proj2 (ltb_true _ _) Hm). unfold dot. cbn [fst snd].
    split; [apply unit_of_div; exact Hm|].
    exists (sqrt (x * x + y * y)). split; [exact Hm|].
    f_equal; field; lra.
  - intros [fx fy] [tx ty] Hne.
    assert (Hnz : (tx - fx) * (tx - fx) + (ty - fy) * (ty - fy) <> 0).
    { intros Hz. apply Hne.
      destruct (Rplus_sqr_eq_0 (tx - fx) (ty - fy) Hz) as [Hx Hy].
      f_equal; lra. }
    assert (Hm := sqrt_pos_of_nonzero _ _ Hnz).
    unfold getNormalizedDirection, getDistance. cbn [fst snd].
    rewrite (proj2 (ltb_true _ _) Hm). unfold dot. cbn [fst snd].
    split; [apply unit_of_div; exact Hm|].
    replace ((fx - tx) * (fx - tx) + (fy - ty) * (fy - ty))
      with ((tx - fx) * (tx - fx) + (ty - fy) * (ty - fy)) by ring.
    f_equal; field; lra.
  - intros n nearbyNodes. unfold calculateGrowthDirection.
    set (direction := fold_left _ _ _). cbv zeta.
    destruct (ltb 0 _) eqn:Hlt; unfold dot; cbn [fst snd].
    + apply ltb_true in Hlt. apply unit_of_div. exact Hlt.
    + ring.
  - intros direction curvature draw. unfold applyCurvature, dot.
    cbn [fst snd]. set (a := atan2 _ _ + _).
    assert (H1 := sin2_cos2 a). unfold Rsqr in H1. lra.
Qed.

(** *** [reset] *)

(** X30.  [reset()] starts again from the seeds, with the growth
    stopped, no connections, generation 0 and node ids from [node_0] on;
    it keeps the text and the parameters as adapted so far, and leaves a
    new semantic field that has not analysed the text: its association
    graph and collocation table are empty. *)
Theorem reset_starts_over rnd e :
  semanticField (reset rnd e) = SemanticField.new
  /\ parameters (reset rnd e) = parameters e
  /\ text (reset rnd e) = text e
  /\ isGrowing (reset rnd e) = false
  /\ connections (reset rnd e) = []
  /\ generation_count (reset rnd e) = 0%nat
  /\ growthQueue (reset rnd e) = nodes (reset rnd e)
  /\ ids_sequential (reset rnd e)
  /\ (text e <> [] -> (1 <= length (nodes (reset rnd e)) <= 10)%nat).
Proof.
  unfold reset.
  set (e0 := mk (text e) (canvasWidth e) (canvasHeight e) [] [] [] 0 false
               (maxNodes e) (maxConnections e)
               (SpatialIndex.clear (spatialIndex e)) SemanticField.new
               (parameters e)).
  assert (Hseq : ids_sequential (initialize rnd e0)).
  { apply ids_sequential_initialize. reflexivity. }
  destruct (text e) as [|c0 txt] eqn:Ht.
  - assert (Hi : initialize rnd e0 = e0).
    { unfold initialize. cbn [text e0]. reflexivity. }
    rewrite Hi. cbn [e0 semanticField parameters text isGrowing connections
                       generation_count growthQueue nodes].
    do 7 (split; [reflexivity|]).
    split; [rewrite Hi in Hseq; exact Hseq|].
    intros Hne. contradiction Hne. reflexivity.
  - assert (Htext : text e0 <> []) by discriminate.
    destruct (initialize_spec rnd e0 Htext)
      as (seeds & Hn & Hq & Hf & Hlen & _).
    assert (Hn0 : nodes e0 = []) by reflexivity.
    assert (Hq0 : growthQueue e0 = []) by reflexivity.
    rewrite Hn0 in Hn. rewrite Hq0 in Hq. cbn [app] in Hn, Hq.
    injection Hf as Hft Hfp Hfs Hfc Hfg Hfgen.
    rewrite Hft, Hfp, Hfs, Hfc, Hfg, Hfgen, Hn, Hq.
    do 7 (split; [reflexivity|]).
    split; [exact Hseq|].
    intros _. exact Hlen.
Qed.

(** *** The properties on examples *)

Lemma connections_never_repeat_witness :
  (forall c,
     NoDup (map (fun c => (conn_from c, conn_to c))
              (connections (addConnection engine_one_seed c))))
  /\ NoDup (map (fun c => (conn_from c, conn_to c))
              (connections (performMemoryCleanup engine_one_seed)))
  /\ forall env,
       NoDup (map (fun c => (conn_from c, conn_to c))
                (connections (grow env engine_one_seed))).
Proof.
  apply (connections_never_repeat engine_one_seed). constructor.
Defined.

Lemma created_nodes_step_from_parent_witness :
  exists created,
    nodes (grow first_tick engine_one_seed)
    = nodes (tick_start engine_one_seed) ++ created
    /\ growthQueue (grow first_tick engine_one_seed) = created
    /\ forall c, In c created ->
         exists p,
           In p (growthQueue engine_one_seed) /\ 0 < energy p
           /\ step_from (text engine_one_seed)
                (characterSpacing (parameters engine_one_seed)) p c
           /\ getDistance (position p) (position c)
              = Rabs (characterSpacing (parameters engine_one_seed)).
Proof.
  apply (created_nodes_step_from_parent first_tick engine_one_seed).
  - reflexivity.
  - discriminate.
Defined.

Lemma growth_terminates_witness :
  growthQueue (grow_ticks (fun _ => first_tick) 6 engine_one_seed) = []
  /\ forall env,
       grow env (grow_ticks (fun _ => first_tick) 6 engine_one_seed)
       = grow_ticks (fun _ => first_tick) 6 engine_one_seed.
Proof.
  apply (growth_terminates (fun _ => first_tick) engine_one_seed 6).
  - reflexivity.
  - cbn. lia.
  - lia.
Defined.

Lemma initialize_seeds_witness :
  exists seeds,
    nodes (initialize centre_draws engine_one_seed)
    = nodes engine_one_seed ++ seeds
    /\ growthQueue (initialize centre_draws engine_one_seed)
       = growthQueue engine_one_seed ++ seeds
    /\ (1 <= length seeds <= 10)%nat
    /\ forall i seed,
         nth_error seeds i = Some seed ->
         is_seed engine_one_seed (radiusDraw (centre_draws i))
           (length (nodes engine_one_seed) + i) seed.
Proof.
  apply (initialize_seeds centre_draws engine_one_seed). discriminate.
Defined.
End OrganicLayoutLaws.
